(** * Trajectory-constraints remover of unified-planning

    A shallow embedding of
    [unified_planning/engines/compilers/trajectory_constraints_remover.py]
    and of the parts of the expression substrate it calls, followed by the
    properties of the compilation that the specification states. *)

From Stdlib Require Import List String Ascii Bool Arith Lia.
From Stdlib Require Import DecimalString DecimalNat.
Import ListNotations.
Open Scope string_scope.
Open Scope list_scope.

(** ** Python results: a value or a raised exception *)

Inductive PyExc : Type :=
| UPProblemDefinitionError (msg : string)
| UPUsageError (msg : string)
| Exception_ (msg : string)
| IndexError
| AttributeError
| KeyError.

Inductive result (A : Type) : Type :=
| OK (a : A)
| Raise (e : PyExc).

Arguments OK {A} a.
Arguments Raise {A} e.

Definition bind {A B : Type} (r : result A) (k : A -> result B) : result B :=
  match r with
  | OK a => k a
  | Raise e => Raise e
  end.

Notation "'do' x <- r ; k" := (bind r (fun x => k))
  (at level 10, x pattern, r at level 100, k at level 200).

(** ** FNode: the immutable expression nodes *)

(** Modelled from the spec: the Formula of section 3 (the FNode class is not
    among the sources): boolean constants, fluent applications, negation,
    n-ary conjunction and disjunction, and the five trajectory-constraint
    variants.  Grounded problems only have 0-ary fluents, so a fluent
    expression is identified by the fluent's name. *)
#[warnings="-register-all"]
Inductive FNode : Type :=
| BoolConst (b : bool)
| FluentExp (f : string)
| Not (a : FNode)
| And (l : list FNode)
| Or (l : list FNode)
| Always (phi : FNode)
| Sometime (phi : FNode)
| AtMostOnce (phi : FNode)
| SometimeBefore (phi psi : FNode)
| SometimeAfter (phi psi : FNode).

Definition TRUE : FNode := BoolConst true.
Definition FALSE : FNode := BoolConst false.

(** Structural equality of FNodes ([==] on hash-consed nodes). *)
Fixpoint FNode_eq_dec (x y : FNode) {struct x} : {x = y} + {x <> y}.
Proof.
  decide equality;
    solve [ apply bool_dec | apply string_dec
          | apply (list_eq_dec FNode_eq_dec) ].
Defined.

Definition FNode_eqb (x y : FNode) : bool :=
  if FNode_eq_dec x y then true else false.

Definition memb (x : FNode) (l : list FNode) : bool :=
  if in_dec FNode_eq_dec x l then true else false.

Definition is_true (e : FNode) : bool :=
  match e with BoolConst true => true | _ => false end.
Definition is_false (e : FNode) : bool :=
  match e with BoolConst false => true | _ => false end.
Definition is_and (e : FNode) : bool :=
  match e with And _ => true | _ => false end.
Definition is_or (e : FNode) : bool :=
  match e with Or _ => true | _ => false end.
Definition is_not (e : FNode) : bool :=
  match e with Not _ => true | _ => false end.
Definition is_fluent_exp (e : FNode) : bool :=
  match e with FluentExp _ => true | _ => false end.
Definition is_always (e : FNode) : bool :=
  match e with Always _ => true | _ => false end.
Definition is_sometime (e : FNode) : bool :=
  match e with Sometime _ => true | _ => false end.
Definition is_at_most_once (e : FNode) : bool :=
  match e with AtMostOnce _ => true | _ => false end.
Definition is_sometime_before (e : FNode) : bool :=
  match e with SometimeBefore _ _ => true | _ => false end.
Definition is_sometime_after (e : FNode) : bool :=
  match e with SometimeAfter _ _ => true | _ => false end.

(** Modelled from the spec: structural inspection of a formula (section 2,
    item 1), [e.args]: the tuple of children; constants and 0-ary fluents
    have none. *)
Definition args (e : FNode) : list FNode :=
  match e with
  | BoolConst _ | FluentExp _ => []
  | Not a => [a]
  | And l | Or l => l
  | Always phi | Sometime phi | AtMostOnce phi => [phi]
  | SometimeBefore phi psi | SometimeAfter phi psi => [phi; psi]
  end.

(** [e.args[i]]: indexing a tuple out of range raises IndexError. *)
Definition args_at (e : FNode) (i : nat) : result FNode :=
  match nth_error (args e) i with
  | Some x => OK x
  | None => Raise IndexError
  end.

(** ** Expression manager *)

(** Modelled from the spec: the expression substrate's construction of a
    conjunction (section 2, item 1; the ExpressionManager class is not among
    the sources): of no term it is the constant true, of one term that
    term. *)
Definition em_And (l : list FNode) : FNode :=
  match l with
  | [] => TRUE
  | [x] => x
  | _ => And l
  end.

(** Modelled from the spec: the construction of a disjunction (section 2,
    item 1): of no term it is the constant false, of one term that term. *)
Definition em_Or (l : list FNode) : FNode :=
  match l with
  | [] => FALSE
  | [x] => x
  | _ => Or l
  end.

(** Modelled from the spec: the construction of a negation (section 2,
    item 1). *)
Definition em_Not (e : FNode) : FNode := Not e.

(** A Python value handed to the expression manager: an FNode, or a Python
    bool that [auto_promote] turns into the boolean constant. *)
Inductive PyExpr : Type :=
| PyNode (e : FNode)
| PyBool (b : bool).

(** Modelled from the spec: the expression manager accepts a Python bool
    where it expects a formula and reads it as the constant (section 2,
    item 1, construction). *)
Definition auto_promote (v : PyExpr) : FNode :=
  match v with
  | PyNode e => e
  | PyBool b => BoolConst b
  end.

(** ** Simplifier

    The expression substrate's [simplify] is a bottom-up walker: children
    are simplified first, then the node is rebuilt by the walk function of
    its kind.  Conjunctions and disjunctions are flattened, the neutral
    constant and repeated terms are dropped, the absorbing constant or a
    complementary pair decides the result; negation folds constants and
    double negations. *)

(** Modelled from the spec: [simplify] on a negation (section 2, item 1 and
    section 4.4; the Simplifier walker is not among the sources). *)
Definition walk_not (child : FNode) : FNode :=
  match child with
  | BoolConst l => BoolConst (negb l)
  | Not x => x
  | _ => Not child
  end.

(** Modelled from the spec: [simplify] drops repeated terms (section 2,
    item 1): insertion into an insertion-ordered set. *)
Definition new_args_add (s : FNode) (new_args : list FNode) : list FNode :=
  if memb s new_args then new_args else new_args ++ [s].

(** Modelled from the spec: [simplify] on the terms of a conjunction or
    disjunction (section 2, item 1): a term whose negation is already
    present decides the result, reported as [None]. *)
Fixpoint add_terms (ss : list FNode) (new_args : list FNode)
  : option (list FNode) :=
  match ss with
  | [] => Some new_args
  | s :: rest =>
      if memb (walk_not s) new_args then None
      else add_terms rest (new_args_add s new_args)
  end.

(** Modelled from the spec: [simplify] on the arguments of a conjunction
    (section 2, item 1): true is dropped, false decides, a nested
    conjunction contributes its terms. *)
Fixpoint walk_and_loop (l : list FNode) (new_args : list FNode)
  : option (list FNode) :=
  match l with
  | [] => Some new_args
  | a :: rest =>
      if is_true a then walk_and_loop rest new_args
      else if is_false a then None
      else match add_terms (if is_and a then args a else [a]) new_args with
           | None => None
           | Some na => walk_and_loop rest na
           end
  end.

(** Modelled from the spec: [simplify] on a conjunction or disjunction of
    twice the same argument (section 2, item 1). *)
Definition same_pair (l : list FNode) : option FNode :=
  match l with
  | [a0; a1] => if FNode_eq_dec a0 a1 then Some a0 else None
  | _ => None
  end.

(** Modelled from the spec: [simplify] on a conjunction (section 2,
    item 1). *)
Definition walk_and (l : list FNode) : FNode :=
  match same_pair l with
  | Some a0 => a0
  | None =>
      match walk_and_loop l [] with
      | None => FALSE
      | Some [] => TRUE
      | Some [x] => x
      | Some na => And na
      end
  end.

(** Modelled from the spec: [simplify] on the arguments of a disjunction
    (section 2, item 1): false is dropped, true decides, a nested
    disjunction contributes its terms. *)
Fixpoint walk_or_loop (l : list FNode) (new_args : list FNode)
  : option (list FNode) :=
  match l with
  | [] => Some new_args
  | a :: rest =>
      if is_false a then walk_or_loop rest new_args
      else if is_true a then None
      else match add_terms (if is_or a then args a else [a]) new_args with
           | None => None
           | Some na => walk_or_loop rest na
           end
  end.

(** Modelled from the spec: [simplify] on a disjunction (section 2,
    item 1). *)
Definition walk_or (l : list FNode) : FNode :=
  match same_pair l with
  | Some a0 => a0
  | None =>
      match walk_or_loop l [] with
      | None => TRUE
      | Some [] => FALSE
      | Some [x] => x
      | Some na => Or na
      end
  end.

(** Modelled from the spec: [simplify] (section 2, item 1 and section 4.4;
    the Simplifier walker is not among the sources). *)
Fixpoint simplify (e : FNode) : FNode :=
  match e with
  | BoolConst b => BoolConst b
  | FluentExp f => FluentExp f
  | Not a => walk_not (simplify a)
  | And l => walk_and (map simplify l)
  | Or l => walk_or (map simplify l)
  | Always phi => Always (simplify phi)
  | Sometime phi => Sometime (simplify phi)
  | AtMostOnce phi => AtMostOnce (simplify phi)
  | SometimeBefore phi psi => SometimeBefore (simplify phi) (simplify psi)
  | SometimeAfter phi psi => SometimeAfter (simplify phi) (simplify psi)
  end.

(** ** Dictionaries keyed by FNodes (insertion ordered) *)

Definition dict (V : Type) : Type := list (FNode * V).

Fixpoint dict_get {V : Type} (d : dict V) (k : FNode) : option V :=
  match d with
  | [] => None
  | (k', v) :: rest => if FNode_eq_dec k k' then Some v else dict_get rest k
  end.

Fixpoint dict_set {V : Type} (d : dict V) (k : FNode) (v : V) : dict V :=
  match d with
  | [] => [(k, v)]
  | (k', v') :: rest =>
      if FNode_eq_dec k k' then (k', v) :: rest
      else (k', v') :: dict_set rest k v
  end.

Definition dict_keys {V : Type} (d : dict V) : list FNode := map fst d.

(** ** Substituter *)

(** Modelled from the spec: the expression substrate's [substitute] (section
    2, item 1; the Substituter walker is not among the sources).  A node that
    is a key of the map is replaced by its value; any other node is rebuilt
    from its substituted children. *)
Fixpoint substitute_walk (subs : dict FNode) (e : FNode) : FNode :=
  match dict_get subs e with
  | Some r => r
  | None =>
      match e with
      | BoolConst b => BoolConst b
      | FluentExp f => FluentExp f
      | Not a => em_Not (substitute_walk subs a)
      | And l => em_And (map (substitute_walk subs) l)
      | Or l => em_Or (map (substitute_walk subs) l)
      | Always phi => Always (substitute_walk subs phi)
      | Sometime phi => Sometime (substitute_walk subs phi)
      | AtMostOnce phi => AtMostOnce (substitute_walk subs phi)
      | SometimeBefore phi psi =>
          SometimeBefore (substitute_walk subs phi) (substitute_walk subs psi)
      | SometimeAfter phi psi =>
          SometimeAfter (substitute_walk subs phi) (substitute_walk subs psi)
      end
  end.

(** Modelled from the spec: [substitute] (section 2, item 1); an empty map
    returns the expression. *)
Definition substitute (e : FNode) (subs : dict FNode) : FNode :=
  match subs with
  | [] => e
  | _ => substitute_walk subs e
  end.

(** ** Free variables *)

(** Modelled from the spec: the fluent expressions occurring in a formula
    (section 2, item 1 and section 4.3; the free-variables extractor is not
    among the sources), in order of occurrence. *)
Fixpoint fluents_of (e : FNode) : list FNode :=
  match e with
  | BoolConst _ => []
  | FluentExp f => [FluentExp f]
  | Not a => fluents_of a
  | And l | Or l => flat_map fluents_of l
  | Always phi | Sometime phi | AtMostOnce phi => fluents_of phi
  | SometimeBefore phi psi | SometimeAfter phi psi =>
      fluents_of phi ++ fluents_of psi
  end.

(** Modelled from the spec: [free_vars] (section 4.3): the set of the fluent
    expressions of a formula, each once. *)
Definition free_vars (e : FNode) : list FNode :=
  nodup FNode_eq_dec (fluents_of e).

(** ** The problem model *)

(** Modelled from the spec: the type of a fluent, boolean or not (section 3,
    Fluent; the model classes are not among the sources). *)
Inductive UPType : Type :=
| BoolType
| OtherType (n : string).

(** Modelled from the spec: Fluent, a named state variable (section 3). *)
Record Fluent : Type := mkFluent {
  fluent_name : string;
  fluent_type : UPType
}.

(** Modelled from the spec: Effect, (condition, fluent, value) (section
    3). *)
Record Effect : Type := mkEffect {
  condition : FNode;
  fluent : FNode;
  value : FNode
}.

(** Modelled from the spec: a grounded instantaneous action, (name,
    preconditions, effects) (section 3). *)
Record InstantaneousAction : Type := mkAction {
  action_name : string;
  preconditions : list FNode;
  effects : list Effect
}.

(** Modelled from the spec: the problem model storing fluents, actions,
    initial values, goals and trajectory constraints (section 1 and section
    2, item 8). *)
Record Problem : Type := mkProblem {
  problem_name : string;
  fluents : list Fluent;
  actions : list InstantaneousAction;
  initial_values : dict FNode;
  goals : list FNode;
  trajectory_constraints : list FNode
}.

Definition Effect_eq_dec (x y : Effect) : {x = y} + {x <> y}.
Proof. decide equality; apply FNode_eq_dec. Defined.

Definition Action_eq_dec (x y : InstantaneousAction) : {x = y} + {x <> y}.
Proof.
  decide equality;
    solve [ apply string_dec | apply (list_eq_dec FNode_eq_dec)
          | apply (list_eq_dec Effect_eq_dec) ].
Defined.

(** Modelled from the spec: renaming of the cloned problem (section 4.1; the
    Problem class is not among the sources). *)
Definition set_name (P : Problem) (n : string) : Problem :=
  mkProblem n (fluents P) (actions P) (initial_values P) (goals P)
            (trajectory_constraints P).

(** Modelled from the spec: the goals are replaced (section 4.7, step 2). *)
Definition clear_goals (P : Problem) : Problem :=
  mkProblem (problem_name P) (fluents P) (actions P) (initial_values P) []
            (trajectory_constraints P).

(** Modelled from the spec: the goals are replaced by the new goal (section
    4.7, step 2). *)
Definition add_goal (P : Problem) (g : FNode) : Problem :=
  mkProblem (problem_name P) (fluents P) (actions P) (initial_values P)
            (goals P ++ [g]) (trajectory_constraints P).

(** Modelled from the spec: the trajectory constraints of the clone are
    cleared (section 4.7, step 1). *)
Definition clear_trajectory_constraints (P : Problem) : Problem :=
  mkProblem (problem_name P) (fluents P) (actions P) (initial_values P)
            (goals P) [].

(** Modelled from the spec: a newly allocated monitor fluent is added
    (section 4.7, step 3). *)
Definition add_fluent (P : Problem) (fl : Fluent) : Problem :=
  mkProblem (problem_name P) (fluents P ++ [fl]) (actions P)
            (initial_values P) (goals P) (trajectory_constraints P).

(** Modelled from the spec: the action list is replaced (section 4.7, step
    5). *)
Definition clear_actions (P : Problem) : Problem :=
  mkProblem (problem_name P) (fluents P) [] (initial_values P) (goals P)
            (trajectory_constraints P).

(** Modelled from the spec: the action list is replaced by the rewritten
    actions in their order (section 4.7, step 5). *)
Definition add_action (P : Problem) (a : InstantaneousAction) : Problem :=
  mkProblem (problem_name P) (fluents P) (actions P ++ [a])
            (initial_values P) (goals P) (trajectory_constraints P).

(** Modelled from the spec: an initial value is set for a fluent (section
    4.7, step 4). *)
Definition set_initial_value (P : Problem) (fl : Fluent) (v : FNode)
  : Problem :=
  mkProblem (problem_name P) (fluents P) (actions P)
            (dict_set (initial_values P) (FluentExp (fluent_name fl)) v)
            (goals P) (trajectory_constraints P).

(** The result of the grounder, an external engine: the grounded problem
    and the map from each grounded action to its lifted action and
    arguments. *)
Definition MapValue : Type := (string * list string)%type.

Record GroundingResult : Type := mkGroundingResult {
  grounded_problem : Problem;
  map_back_action_instance : list (InstantaneousAction * MapValue)
}.

Record CompilerResult : Type := mkCompilerResult {
  result_problem : Problem;
  trace_back_map : list (InstantaneousAction * MapValue);
  engine_name : string
}.

Fixpoint action_map_get (m : list (InstantaneousAction * MapValue))
                        (a : InstantaneousAction) : result MapValue :=
  match m with
  | [] => Raise KeyError
  | (a', v) :: rest =>
      if Action_eq_dec a a' then OK v else action_map_get rest a
  end.

(** ** Module constants *)

Definition HOLD : string := "hold".
Definition SEEN_PHI : string := "seen-phi".
Definition SEEN_PSI : string := "seen-psi".
Definition SEPARATOR : string := "-".
Definition engine_self_name : string := "TrajectoryConstraintsRemover".

(** [f"{n}"] for a non-negative integer. *)
Definition str_of_nat (n : nat) : string :=
  NilEmpty.string_of_uint (Nat.to_uint n).

(** [f"{t}"] for the tag returned by [_evaluate_constraint]. *)
Definition str_of_type (t : option string) : string :=
  match t with
  | Some s => s
  | None => "None"
  end.

(** ** Regression *)

Section MapM.
Context {A B : Type}.
Variable f : A -> result B.

Fixpoint mapM (l : list A) : result (list B) :=
  match l with
  | [] => OK []
  | x :: rest =>
      do y <- f x;
      do ys <- mapM rest;
      OK (y :: ys)
  end.
End MapM.

(** The literal an effect asserts: [Not(eff.fluent)] when [eff.value] is
    false, [eff.fluent] otherwise. *)
Definition asserted (eff : Effect) : FNode :=
  if is_false (value eff) then em_Not (fluent eff) else fluent eff.

(** The loop of [_gamma] over the effects, with the list [disjunction] it
    builds; [return False] is a Python bool. *)
Fixpoint _gamma_loop (literal : FNode) (effs : list Effect)
                     (disjunction : list FNode) : PyExpr :=
  match effs with
  | [] =>
      match disjunction with
      | [] => PyBool false
      | _ => PyNode (em_Or disjunction)
      end
  | eff :: rest =>
      let cond := condition eff in
      let eff' := asserted eff in
      if FNode_eq_dec literal eff' then
        if is_true cond then PyNode TRUE
        else _gamma_loop literal rest (disjunction ++ [cond])
      else _gamma_loop literal rest disjunction
  end.

Definition _gamma (literal : FNode) (action : InstantaneousAction) : PyExpr :=
  _gamma_loop literal (effects action) [].

Definition _gamma_substitution (literal : FNode)
                               (action : InstantaneousAction) : FNode :=
  let negated_literal := em_Not literal in
  let gamma1 := auto_promote (_gamma literal action) in
  let gamma2 := em_Not (auto_promote (_gamma negated_literal action)) in
  let conjunction := em_And [literal; gamma2] in
  em_Or [gamma1; conjunction].

Fixpoint _regression (phi : FNode) (action : InstantaneousAction)
  : result FNode :=
  match phi with
  | BoolConst _ => OK phi
  | FluentExp _ => OK (_gamma_substitution phi action)
  | Or l =>
      do rs <- mapM (fun component => _regression component action) l;
      OK (em_Or rs)
  | And l =>
      do rs <- mapM (fun component => _regression component action) l;
      OK (em_And rs)
  | Not a =>
      do r <- _regression a action;
      OK (em_Not r)
  | _ => Raise (UPUsageError "This compiler cannot handle this expression")
  end.

(** ** Per-constraint rewriting *)

(** [_add_cond_eff] returns the list [E] it appended to. *)
Definition _add_cond_eff (E : list Effect) (cond eff : FNode) : list Effect :=
  if negb (is_false (simplify cond)) then
    match eff with
    | Not f => E ++ [mkEffect cond f FALSE]
    | _ => E ++ [mkEffect cond eff TRUE]
    end
  else E.

(** The managers return the pair (precondition, to_add) of the source,
    and the list [E] they extended. *)
Definition Precond : Type := (option FNode * bool)%type.

Definition _manage_always_compilation (phi : FNode) (a : InstantaneousAction)
  : result Precond :=
  do r <- _regression phi a;
  let R := simplify r in
  if FNode_eq_dec R phi then OK (None, false)
  else OK (Some R, true).

Definition _manage_amo_compilation (phi m_atom : FNode)
    (a : InstantaneousAction) (E : list Effect)
  : result (Precond * list Effect) :=
  do r <- _regression phi a;
  let R := simplify r in
  if FNode_eq_dec R phi then OK ((None, false), E)
  else
    let rho := simplify (em_Or [em_Not R; em_Not m_atom; phi]) in
    OK ((Some rho, true), _add_cond_eff E R m_atom).

Definition _manage_sb_compilation (phi psi m_atom : FNode)
    (a : InstantaneousAction) (E : list Effect)
  : result (Precond * list Effect) :=
  do r_phi <- _regression phi a;
  let R_phi := simplify r_phi in
  let added_precond :=
    if FNode_eq_dec R_phi phi then (None, false)
    else (Some (simplify (em_Or [em_Not R_phi; m_atom])), true) in
  do r_psi <- _regression psi a;
  let R_psi := simplify r_psi in
  let E' := if FNode_eq_dec R_psi psi then E
            else _add_cond_eff E R_psi m_atom in
  OK (added_precond, E').

Definition _manage_sometime_compilation (phi m_atom : FNode)
    (a : InstantaneousAction) (E : list Effect) : result (list Effect) :=
  do r <- _regression phi a;
  let R := simplify r in
  if FNode_eq_dec R phi then OK E
  else OK (_add_cond_eff E R m_atom).

Definition _manage_sa_compilation (phi psi m_atom : FNode)
    (a : InstantaneousAction) (E : list Effect) : result (list Effect) :=
  do r1 <- _regression phi a;
  let R1 := simplify r1 in
  do r2 <- _regression psi a;
  let R2 := simplify r2 in
  let E1 :=
    if negb (FNode_eqb phi R1) || negb (FNode_eqb psi R2) then
      let cond := simplify (em_And [R1; em_Not R2]) in
      _add_cond_eff E cond (em_Not m_atom)
    else E in
  let E2 :=
    if negb (FNode_eqb psi R2) then _add_cond_eff E1 R2 m_atom else E1 in
  OK E2.

(** ** Relevancy index *)

(** [relevancy_dict.setdefault(atom, []).append(c)] *)
Definition relevancy_add (rd : dict (list FNode)) (c atom : FNode)
  : dict (list FNode) :=
  match dict_get rd atom with
  | Some conditions_list => dict_set rd atom (conditions_list ++ [c])
  | None => dict_set rd atom [c]
  end.

Definition _build_relevancy_dict (C : list FNode) : dict (list FNode) :=
  fold_left
    (fun rd c => fold_left (fun rd' atom => relevancy_add rd' c atom)
                           (free_vars c) rd)
    C [].

(** [if c not in relevant_constrains: relevant_constrains.append(c)] *)
Definition append_new (relevant_constrains : list FNode) (c : FNode)
  : list FNode :=
  if memb c relevant_constrains then relevant_constrains
  else relevant_constrains ++ [c].

Definition _get_relevant_constraints (a : InstantaneousAction)
    (relevancy_dict : dict (list FNode)) : list FNode :=
  fold_left
    (fun relevant_constrains eff =>
       let constr := match dict_get relevancy_dict (fluent eff) with
                     | Some l => l
                     | None => []
                     end in
       fold_left append_new constr relevant_constrains)
    (effects a) [].

(** ** Grounded initial state *)

(** [initial_values.get(k)] is an FNode whose [is_true()] holds. *)
Definition initially_true (iv : dict FNode) (k : FNode) : bool :=
  match dict_get iv k with
  | Some w => is_true w
  | None => false
  end.

(** The body of the loop over [grounding_init_state]. *)
Definition ground_step (initial_values : dict FNode)
    (grounded_initial_state : dict FNode) (key_gr : FNode) : dict FNode :=
  match dict_get initial_values key_gr with
  | Some initial_value =>
      if is_true initial_value
      then dict_set grounded_initial_state key_gr initial_value
      else grounded_initial_state
  | None => grounded_initial_state
  end.

(** [[eff.fluent for act in actions for eff in act.effects]] *)
Definition effect_fluents (actions : list InstantaneousAction) : list FNode :=
  flat_map (fun act => map fluent (effects act)) actions.

Definition _ground_initial_state (actions : list InstantaneousAction)
    (initial_values : dict FNode) : dict FNode :=
  let grounding_init_state := effect_fluents actions in
  fold_left (ground_step initial_values) grounding_init_state [].

(** ** Monitoring atoms *)

(** Modelled from the spec: a Formula is an immutable term that is
    inspected structurally (section 3; the FNode class is not among the
    sources); as a Python object it defines no truth value of its own, so
    every node is truthy. *)
Definition FNode_truthy (e : FNode) : bool := true.

(** [x or not y] in Python, for a given truth value of the objects: [x]
    itself when it is truthy, and the bool [not y] otherwise. *)
Definition py_or_not_with (truthy : FNode -> bool) (x y : FNode) : PyExpr :=
  if truthy x then PyNode x else PyBool (negb (truthy y)).

Definition py_or_not (x y : FNode) : PyExpr :=
  py_or_not_with FNode_truthy x y.

(** [v.is_true()]: a method of FNode; a Python bool has no such attribute. *)
Definition py_is_true (v : PyExpr) : result bool :=
  match v with
  | PyNode e => OK (is_true e)
  | PyBool _ => Raise AttributeError
  end.

Definition _evaluate_constraint (constr : FNode) (init_values : dict FNode)
  : result (option string * PyExpr) :=
  match constr with
  | Sometime phi =>
      OK (Some HOLD, PyNode (simplify (substitute phi init_values)))
  | SometimeAfter phi psi =>
      OK (Some HOLD,
          py_or_not (simplify (substitute psi init_values))
                    (simplify (substitute phi init_values)))
  | SometimeBefore phi psi =>
      OK (Some SEEN_PSI, PyNode (simplify (substitute psi init_values)))
  | AtMostOnce phi =>
      OK (Some SEEN_PHI, PyNode (simplify (substitute phi init_values)))
  | _ =>
      do a0 <- args_at constr 0;
      OK (None, PyNode (simplify (substitute a0 init_values)))
  end.

(** The two errors [_get_monitoring_atoms] raises. *)
Definition always_violated : PyExc :=
  UPProblemDefinitionError
    "PROBLEM NOT SOLVABLE: an always is violated in the initial state".

Definition sometime_before_violated : PyExc :=
  UPProblemDefinitionError
    "PROBLEM NOT SOLVABLE: a sometime-before is violated in the initial state".

(** The locals of [_get_monitoring_atoms] and the instance's
    [_monitoring_atom_dict], threaded through the loop over C. *)
Record MonitorState : Type := mkMonitorState {
  monitoring_atoms : list Fluent;
  monitoring_atoms_counter : nat;
  initial_state_prime : list FNode;
  _monitoring_atom_dict : dict FNode
}.

(** [f"{type}{SEPARATOR}{monitoring_atoms_counter}"] *)
Definition monitor_name (type : option string) (counter : nat) : string :=
  str_of_type type ++ SEPARATOR ++ str_of_nat counter.

(** The body of the loop of [_get_monitoring_atoms] over C. *)
Definition monitor_step (I : dict FNode) (constr : FNode) (st : MonitorState)
  : result MonitorState :=
  match constr with
  | Always phi =>
      if is_false (simplify (substitute phi I)) then Raise always_violated
      else OK st
  | _ =>
      do (type, init_state_value) <- _evaluate_constraint constr I;
      let fluent := mkFluent (monitor_name type (monitoring_atoms_counter st))
                             BoolType in
      let monitoring_atom := FluentExp (fluent_name fluent) in
      do holds <- py_is_true init_state_value;
      let initial_state_prime' :=
        if holds then initial_state_prime st ++ [monitoring_atom]
        else initial_state_prime st in
      do checked <- match constr with
              | SometimeBefore phi _ =>
                  if is_true (simplify (substitute phi I))
                  then Raise sometime_before_violated
                  else OK tt
              | _ => OK tt
              end;
      OK (mkMonitorState
            (monitoring_atoms st ++ [fluent])
            (S (monitoring_atoms_counter st))
            initial_state_prime'
            (dict_set (_monitoring_atom_dict st) constr monitoring_atom))
  end.

Fixpoint monitor_loop (I : dict FNode) (C : list FNode) (st : MonitorState)
  : result MonitorState :=
  match C with
  | [] => OK st
  | constr :: rest =>
      do st' <- monitor_step I constr st;
      monitor_loop I rest st'
  end.

(** [self_dict] is the instance's [_monitoring_atom_dict] on entry; the
    constructor sets it to the empty dict. *)
Definition _get_monitoring_atoms (self_dict : dict FNode) (C : list FNode)
    (I : dict FNode) : result MonitorState :=
  monitor_loop I C (mkMonitorState [] 0 [] self_dict).

Definition _get_landmark_constraints (C : list FNode) : list FNode :=
  filter (fun constr => is_sometime constr || is_sometime_after constr) C.

(** ** Constraint list *)

(** Modelled from the spec: the universal-quantifier eliminator (section
    4.2, step 3; ExpressionQuantifiersRemover is not among the sources).
    FNode has no quantifier node, the problems embedded here being
    quantifier free, so the eliminator returns its argument. *)
Definition remove_quantifiers (c : FNode) : FNode := c.

(** [assert c.node_type is not OperatorKind.EXISTS] holds of every node of
    this model, which has no quantifier node; what is left of the loop is a
    map. *)
Definition _remove_quantifier (C : list FNode) : list FNode :=
  map remove_quantifiers C.

Definition _build_constraint_list (constraints : list FNode) : list FNode :=
  let C_temp := simplify (em_And constraints) in
  let C_list := if is_and C_temp then args C_temp else [C_temp] in
  let C_to_return := simplify (em_And (_remove_quantifier C_list)) in
  if is_and C_to_return then args C_to_return else [C_to_return].

(** ** The compilation *)

Definition dict_item {V : Type} (d : dict V) (k : FNode) : result V :=
  match dict_get d k with
  | Some v => OK v
  | None => Raise KeyError
  end.

Section FoldM.
Context {A S : Type}.
Variable f : S -> A -> result S.

Fixpoint foldM (l : list A) (s : S) : result S :=
  match l with
  | [] => OK s
  | x :: rest =>
      do s' <- f s x;
      foldM rest s'
  end.
End FoldM.

(** [if to_add and not precondition.is_true(): a.preconditions.append(..)] *)
Definition append_precondition (a : InstantaneousAction) (p : Precond)
  : result InstantaneousAction :=
  match p with
  | (_, false) => OK a
  | (Some precondition, true) =>
      if negb (is_true precondition)
      then OK (mkAction (action_name a)
                        (preconditions a ++ [precondition])
                        (effects a))
      else OK a
  | (None, true) => Raise AttributeError
  end.

(** The message of the source goes on with [ = {c}], the printed constraint;
    the printer of FNode is not among the sources and this end of the
    message is left out. *)
Definition unknown_constraint : PyExc :=
  Exception_ "ERROR This compiler cannot handle this constraint".

(** One iteration of the loop over the relevant constraints of an action:
    the state is the action, whose preconditions grow, and the list [E]. *)
Definition compile_constraint (monitors : dict FNode)
    (st : InstantaneousAction * list Effect) (c : FNode)
  : result (InstantaneousAction * list Effect) :=
  let (a, E) := st in
  match c with
  | Always phi =>
      do p <- _manage_always_compilation phi a;
      do a' <- append_precondition a p;
      OK (a', E)
  | AtMostOnce phi =>
      do m_atom <- dict_item monitors c;
      do (p, E') <- _manage_amo_compilation phi m_atom a E;
      do a' <- append_precondition a p;
      OK (a', E')
  | SometimeBefore phi psi =>
      do m_atom <- dict_item monitors c;
      do (p, E') <- _manage_sb_compilation phi psi m_atom a E;
      do a' <- append_precondition a p;
      OK (a', E')
  | Sometime phi =>
      do m_atom <- dict_item monitors c;
      do E' <- _manage_sometime_compilation phi m_atom a E;
      OK (a, E')
  | SometimeAfter phi psi =>
      do m_atom <- dict_item monitors c;
      do E' <- _manage_sa_compilation phi psi m_atom a E;
      OK (a, E')
  | _ => Raise unknown_constraint
  end.

(** The body of [for a in A] up to [a.effects.append(eff)]. *)
Definition compile_action (monitors : dict FNode)
    (relevancy_dict : dict (list FNode)) (a : InstantaneousAction)
  : result InstantaneousAction :=
  let relevant_constraints := _get_relevant_constraints a relevancy_dict in
  do (a', E) <- foldM (compile_constraint monitors) relevant_constraints
                      (a, []);
  OK (mkAction (action_name a') (preconditions a') (effects a' ++ E)).

Fixpoint action_map_set (m : list (InstantaneousAction * MapValue))
    (a : InstantaneousAction) (v : MapValue)
  : list (InstantaneousAction * MapValue) :=
  match m with
  | [] => [(a, v)]
  | (a', v') :: rest =>
      if Action_eq_dec a a' then (a', v) :: rest
      else (a', v') :: action_map_set rest a v
  end.

Definition action_step (map_grounded_action : list (InstantaneousAction * MapValue))
    (monitors : dict FNode) (relevancy_dict : dict (list FNode))
    (st : list InstantaneousAction * list (InstantaneousAction * MapValue))
    (a : InstantaneousAction)
  : result (list InstantaneousAction * list (InstantaneousAction * MapValue)) :=
  let (A_prime, tbm) := st in
  do map_value <- action_map_get map_grounded_action a;
  do a' <- compile_action monitors relevancy_dict a;
  let A_prime' := if memb FALSE (preconditions a') then A_prime
                  else A_prime ++ [a'] in
  OK (A_prime', action_map_set tbm a' map_value).

(** [f"{init_val}"] for a 0-ary fluent expression is the fluent's name. *)
Definition str_of_fluent_exp (e : FNode) : string :=
  match e with
  | FluentExp f => f
  | _ => ""
  end.

(** The end of [_compile]: the new goal, fluents, actions and initial
    values are installed in the clone of the grounded problem. *)
Definition assemble_problem (_problem : Problem) (G_new : FNode)
    (F_prime : list Fluent) (A_prime : list InstantaneousAction)
    (I_prime : list FNode) : Problem :=
  let P1 := add_goal (clear_goals _problem) G_new in
  let P2 := clear_trajectory_constraints P1 in
  let P3 := fold_left add_fluent F_prime P2 in
  let P4 := fold_left add_action A_prime (clear_actions P3) in
  fold_left
    (fun P init_val =>
       set_initial_value P (mkFluent (str_of_fluent_exp init_val) BoolType)
                         TRUE)
    I_prime P4.

(** [problem] is the problem handed to the compiler and [_grounding_result]
    what the grounder returned for it.  The assertions on the classes of the
    problem, of the grounder's result and of the actions hold by the types of
    this model, and [self._problem.initial_values] is the field
    [initial_values] of a problem all of whose fluents have an initial
    value. *)
Definition _compile (self_dict : dict FNode) (problem : Problem)
    (_grounding_result : GroundingResult) : result CompilerResult :=
  let _problem :=
    set_name (grounded_problem _grounding_result)
             (engine_self_name ++ "_" ++ problem_name problem) in
  let A := actions _problem in
  let I := _ground_initial_state A (initial_values _problem) in
  let C := _build_constraint_list (trajectory_constraints _problem) in
  let relevancy_dict := _build_relevancy_dict C in
  do ms <- _get_monitoring_atoms self_dict C I;
  let I_prime := initial_state_prime ms in
  let F_prime := monitoring_atoms ms in
  let monitors := _monitoring_atom_dict ms in
  do landmarks <- mapM (dict_item monitors) (_get_landmark_constraints C);
  let G_prime := em_And landmarks in
  let map_grounded_action := map_back_action_instance _grounding_result in
  do (A_prime, tbm) <-
     foldM (action_step map_grounded_action monitors relevancy_dict) A ([], []);
  let G_new := simplify (em_And (goals _problem ++ [G_prime])) in
  OK (mkCompilerResult
        (assemble_problem _problem G_new F_prime A_prime I_prime)
        tbm
        engine_self_name).

(** A compiler instance as its constructor leaves it, and a grounding
    result for a problem that is already ground: the problem itself, every
    action mapped back to its own name without arguments. *)
Definition fresh_dict : dict FNode := [].

Definition ground_self (p : Problem) : GroundingResult :=
  mkGroundingResult p (map (fun a => (a, (action_name a, []))) (actions p)).

Definition compile (p : Problem) : result CompilerResult :=
  _compile fresh_dict p (ground_self p).


(** ** Plans, states and trajectory constraints *)

(** Modelled from the spec: a state of the grounded problem's transition
    system (section 3; the planner and the plan validator are not among the
    sources), the list of the fluents that are true, absence meaning
    false. *)
Definition State : Type := list string.

(** Modelled from the spec: the truth of a formula in a state (section
    3). *)
Fixpoint holds (s : State) (e : FNode) : bool :=
  match e with
  | BoolConst b => b
  | FluentExp f => existsb (String.eqb f) s
  | Not a => negb (holds s a)
  | And l => forallb (holds s) l
  | Or l => existsb (holds s) l
  | _ => false
  end.

(** Modelled from the spec: the initial state, from the explicit initial
    values (section 3, invariants: absence is false). *)
Definition initial_state (P : Problem) : State :=
  flat_map (fun kv => match kv with
                      | (FluentExp f, BoolConst true) => [f]
                      | _ => []
                      end)
           (initial_values P).

(** Modelled from the spec: an effect fires iff its condition holds in the
    state the action is applied in; when fired it assigns its value to its
    fluent (section 3, Effect). *)
Definition apply_effect (pre : State) (s : State) (eff : Effect) : State :=
  if holds pre (condition eff) then
    match fluent eff with
    | FluentExp f =>
        if holds pre (value eff) then f :: remove string_dec f s
        else remove string_dec f s
    | _ => s
    end
  else s.

(** Modelled from the spec: applying an action applies its effects (section
    3). *)
Definition apply_action (a : InstantaneousAction) (s : State) : State :=
  fold_left (apply_effect s) (effects a) s.

(** Modelled from the spec: a plan names actions of the problem (section 6,
    plan lifter). *)
Definition find_action (P : Problem) (n : string)
  : option InstantaneousAction :=
  find (fun a => String.eqb (action_name a) n) (actions P).

(** Modelled from the spec: the sequence of states visited by a plan
    (section 3), given by the names of its actions; [None] when an action is
    unknown or a precondition does not hold. *)
Fixpoint run (P : Problem) (s : State) (plan : list string)
  : option (list State) :=
  match plan with
  | [] => Some [s]
  | n :: rest =>
      match find_action P n with
      | Some a =>
          if forallb (holds s) (preconditions a)
          then option_map (cons s) (run P (apply_action a s) rest)
          else None
      | None => None
      end
  end.

(** Modelled from the spec: at-most-once, the truth span of phi is a single
    contiguous interval (section 3). *)
Fixpoint at_most_once_on (phi : FNode) (tr : list State)
                         (seen inside : bool) : bool :=
  match tr with
  | [] => true
  | s :: rest =>
      if holds s phi then
        if seen && negb inside then false
        else at_most_once_on phi rest true true
      else at_most_once_on phi rest seen false
  end.

(** Modelled from the spec: sometime-before, if phi ever becomes true, psi
    was true in some strictly earlier state (section 3). *)
Fixpoint sometime_before_on (phi psi : FNode) (tr : list State)
                            (seen_psi : bool) : bool :=
  match tr with
  | [] => true
  | s :: rest =>
      if holds s phi && negb seen_psi then false
      else sometime_before_on phi psi rest (seen_psi || holds s psi)
  end.

(** Modelled from the spec: sometime-after, whenever phi holds, psi holds in
    that state or later (section 3). *)
Fixpoint sometime_after_on (phi psi : FNode) (tr : list State) : bool :=
  match tr with
  | [] => true
  | s :: rest =>
      (if holds s phi then existsb (fun s' => holds s' psi) tr else true)
      && sometime_after_on phi psi rest
  end.

(** Modelled from the spec: the meaning of the five trajectory constraints
    over the states a plan visits (section 3). *)
Definition satisfies (tr : list State) (c : FNode) : bool :=
  match c with
  | Always phi => forallb (fun s => holds s phi) tr
  | Sometime phi => existsb (fun s => holds s phi) tr
  | AtMostOnce phi => at_most_once_on phi tr false false
  | SometimeBefore phi psi => sometime_before_on phi psi tr false
  | SometimeAfter phi psi => sometime_after_on phi psi tr
  | _ => false
  end.

(** Modelled from the spec: a plan is valid for a problem when it is
    executable from the initial state, its trajectory satisfies the
    problem's trajectory constraints and its last state satisfies the goals
    (sections 3 and 8, P8). *)
Definition valid_plan (P : Problem) (plan : list string) : bool :=
  match run P (initial_state P) plan with
  | Some tr =>
      forallb (satisfies tr) (trajectory_constraints P)
      && forallb (holds (last tr [])) (goals P)
  | None => false
  end.

(** ** Problems used as concrete inputs *)

Definition atom_p : FNode := FluentExp "p".
Definition atom_q : FNode := FluentExp "q".
Definition atom_r : FNode := FluentExp "r".
Definition atom_g : FNode := FluentExp "g".

Definition bool_fluent (n : string) : Fluent := mkFluent n BoolType.

Definition set_true (n : string) (f : FNode) : InstantaneousAction :=
  mkAction n [] [mkEffect TRUE f TRUE].
Definition set_false (n : string) (f : FNode) : InstantaneousAction :=
  mkAction n [] [mkEffect TRUE f FALSE].

(** Scenarios S1 to S4 of the specification. *)
Definition scenario_S1 : Problem :=
  mkProblem "s1" [bool_fluent "p"; bool_fluent "q"]
            [set_true "op" atom_p]
            [(atom_p, FALSE); (atom_q, FALSE)] [] [Sometime atom_p].

Definition scenario_S2 : Problem :=
  mkProblem "s2" [bool_fluent "p"]
            [set_false "op" atom_p]
            [(atom_p, TRUE)] [] [Always atom_p].

Definition turn_on : InstantaneousAction := set_true "turn_on" atom_p.
Definition turn_off : InstantaneousAction := set_false "turn_off" atom_p.

Definition scenario_S3 : Problem :=
  mkProblem "s3" [bool_fluent "p"]
            [turn_on; turn_off]
            [(atom_p, FALSE)] [] [AtMostOnce atom_p].

Definition scenario_S4 : Problem :=
  mkProblem "s4" [bool_fluent "p"; bool_fluent "q"]
            [set_true "mark_p" atom_p; set_true "mark_q" atom_q]
            [(atom_p, FALSE); (atom_q, FALSE)] [] [SometimeBefore atom_p atom_q].

(** No trajectory constraint at all. *)
Definition problem_no_constraints : Problem :=
  mkProblem "plain" [bool_fluent "g"]
            [set_true "reach" atom_g]
            [(atom_g, FALSE)] [atom_g] [].

(** [always(p)] with p false in the initial state and never written. *)
Definition problem_always_false : Problem :=
  mkProblem "af" [bool_fluent "p"; bool_fluent "g"]
            [set_true "reach" atom_g]
            [(atom_p, FALSE); (atom_g, FALSE)] [atom_g] [Always atom_p].

(** [sometime-after(p, q)] with p and q false in the initial state. *)
Definition problem_after_idle : Problem :=
  mkProblem "ai" [bool_fluent "p"; bool_fluent "q"; bool_fluent "g"]
            [set_true "reach" atom_g; set_true "mark_p" atom_p;
             set_true "mark_q" atom_q]
            [(atom_p, FALSE); (atom_q, FALSE); (atom_g, FALSE)]
            [atom_g] [SometimeAfter atom_p atom_q].

(** [sometime-after(not p, q)] with p true and q false initially: the first
    argument evaluates to the constant false in the initial state. *)
Definition problem_after_negated : Problem :=
  mkProblem "an" [bool_fluent "p"; bool_fluent "q"]
            [set_false "drop_p" atom_p; set_true "mark_q" atom_q]
            [(atom_p, TRUE); (atom_q, FALSE)]
            [] [SometimeAfter (Not atom_p) atom_q].

(** A violated sometime-before listed ahead of a violated always. *)
Definition problem_two_violations : Problem :=
  mkProblem "tv" [bool_fluent "p"; bool_fluent "q"; bool_fluent "r"]
            [set_false "drop_p" atom_p; set_false "drop_r" atom_r]
            [(atom_p, TRUE); (atom_q, FALSE); (atom_r, TRUE)]
            [] [SometimeBefore atom_p atom_q; Always (Not atom_r)].

(** A single violated always. *)
Definition problem_always_violated : Problem :=
  mkProblem "av" [bool_fluent "r"]
            [set_false "drop_r" atom_r]
            [(atom_r, TRUE)] [] [Always (Not atom_r)].

(** Two landmark constraints around a constraint that is none. *)
Definition problem_landmarks : Problem :=
  mkProblem "lm" [bool_fluent "p"; bool_fluent "q"; bool_fluent "g"]
            [set_true "reach" atom_g; set_true "mark_p" atom_p;
             set_true "mark_q" atom_q]
            [(atom_p, FALSE); (atom_q, FALSE); (atom_g, FALSE)]
            [atom_g]
            [SometimeAfter atom_p atom_q; AtMostOnce atom_p; Sometime atom_q].

(** The constraint list and the grounded initial state [_compile] computes
    for a grounding result. *)
Definition constraints_of (gr : GroundingResult) : list FNode :=
  _build_constraint_list (trajectory_constraints (grounded_problem gr)).

Definition init_of (gr : GroundingResult) : dict FNode :=
  _ground_initial_state (actions (grounded_problem gr))
                        (initial_values (grounded_problem gr)).

(** The formulas the regression accepts: constants, fluent atoms and their
    combinations by negation, conjunction and disjunction. *)
Fixpoint propositional (e : FNode) : bool :=
  match e with
  | BoolConst _ | FluentExp _ => true
  | Not a => propositional a
  | And l | Or l => forallb propositional l
  | _ => false
  end.

(** The monitor tag of each constraint kind (section 4.5 of the
    specification); [None], printed "None", for a node that is none of the
    four monitored kinds. *)
Definition tag_of_kind (c : FNode) : option string :=
  match c with
  | Sometime _ | SometimeAfter _ _ => Some HOLD
  | SometimeBefore _ _ => Some SEEN_PSI
  | AtMostOnce _ => Some SEEN_PHI
  | _ => None
  end.

(** The constraints that get a monitor, in list order. *)
Definition monitored (C : list FNode) : list FNode :=
  filter (fun c => negb (is_always c)) C.

(** The fluents allocated for a list of monitored constraints by a single
    counter starting at [n]. *)
Fixpoint monitor_fluents (l : list FNode) (n : nat) : list Fluent :=
  match l with
  | [] => []
  | c :: rest =>
      mkFluent (monitor_name (tag_of_kind c) n) BoolType
        :: monitor_fluents rest (S n)
  end.

(** [FALSE not in a.preconditions] *)
Definition kept (a : InstantaneousAction) : bool :=
  negb (memb FALSE (preconditions a)).

(** ** Simplified forms *)

Definition is_bool_constant (e : FNode) : bool :=
  match e with BoolConst _ => true | _ => false end.

(** A term a conjunction (with [flat := is_and]) or a disjunction (with
    [flat := is_or]) of the simplifier may hold: no constant and no node of
    the same kind. *)
Definition term_of (flat : FNode -> bool) (x : FNode) : Prop :=
  is_bool_constant x = false /\ flat x = false.

(** The shape of what [simplify] returns: no constant below a connective,
    no double negation, no conjunction directly below a conjunction nor
    disjunction below a disjunction, at least two terms in each, and term
    lists that the inner loop of the walker leaves as they are (no repeated
    and no complementary terms). *)
#[warnings="-register-all"]
Inductive normal : FNode -> Prop :=
| normal_const : forall b, normal (BoolConst b)
| normal_fluent : forall f, normal (FluentExp f)
| normal_not : forall a,
    normal a -> is_bool_constant a = false -> is_not a = false ->
    normal (Not a)
| normal_and : forall l,
    Forall normal l -> Forall (term_of is_and) l ->
    add_terms l [] = Some l -> 2 <= List.length l ->
    normal (And l)
| normal_or : forall l,
    Forall normal l -> Forall (term_of is_or) l ->
    add_terms l [] = Some l -> 2 <= List.length l ->
    normal (Or l)
| normal_always : forall phi, normal phi -> normal (Always phi)
| normal_sometime : forall phi, normal phi -> normal (Sometime phi)
| normal_amo : forall phi, normal phi -> normal (AtMostOnce phi)
| normal_sb : forall phi psi,
    normal phi -> normal psi -> normal (SometimeBefore phi psi)
| normal_sa : forall phi psi,
    normal phi -> normal psi -> normal (SometimeAfter phi psi).

(** An action touches a formula when one of its effects writes a fluent
    that occurs in it. *)
Definition untouched (a : InstantaneousAction) (psi : FNode) : Prop :=
  forall eff, In eff (effects a) -> ~ In (fluent eff) (fluents_of psi).

(** The effects of a grounded action assign fluent expressions. *)
Definition grounded_effects (a : InstantaneousAction) : Prop :=
  Forall (fun eff => is_fluent_exp (fluent eff) = true) (effects a).

(** The five kinds of trajectory constraint. *)
Definition is_constraint (c : FNode) : bool :=
  is_always c || is_sometime c || is_at_most_once c
  || is_sometime_before c || is_sometime_after c.

(** Every constraint listed under a fluent mentions that fluent. *)
Definition relevancy_sound (rd : dict (list FNode)) : Prop :=
  forall atom l c,
    dict_get rd atom = Some l -> In c l -> In atom (fluents_of c).

(** ** Induction on FNodes, through the lists of children *)

Section FNodeInd.
Variable P : FNode -> Prop.
Hypothesis HConst : forall b, P (BoolConst b).
Hypothesis HFluent : forall f, P (FluentExp f).
Hypothesis HNot : forall a, P a -> P (Not a).
Hypothesis HAnd : forall l, Forall P l -> P (And l).
Hypothesis HOr : forall l, Forall P l -> P (Or l).
Hypothesis HAlways : forall phi, P phi -> P (Always phi).
Hypothesis HSometime : forall phi, P phi -> P (Sometime phi).
Hypothesis HAmo : forall phi, P phi -> P (AtMostOnce phi).
Hypothesis HSb : forall phi psi, P phi -> P psi -> P (SometimeBefore phi psi).
Hypothesis HSa : forall phi psi, P phi -> P psi -> P (SometimeAfter phi psi).

Fixpoint FNode_nested_ind (e : FNode) : P e :=
  let fix go (l : list FNode) : Forall P l :=
    match l with
    | [] => Forall_nil P
    | x :: r => Forall_cons x (FNode_nested_ind x) (go r)
    end in
  match e with
  | BoolConst b => HConst b
  | FluentExp f => HFluent f
  | Not a => HNot a (FNode_nested_ind a)
  | And l => HAnd l (go l)
  | Or l => HOr l (go l)
  | Always phi => HAlways phi (FNode_nested_ind phi)
  | Sometime phi => HSometime phi (FNode_nested_ind phi)
  | AtMostOnce phi => HAmo phi (FNode_nested_ind phi)
  | SometimeBefore phi psi =>
      HSb phi psi (FNode_nested_ind phi) (FNode_nested_ind psi)
  | SometimeAfter phi psi =>
      HSa phi psi (FNode_nested_ind phi) (FNode_nested_ind psi)
  end.
End FNodeInd.

(** The set D of section 4.4: the conditions of the effects that assert a
    literal, in the order of the effects. *)
Definition asserting_conditions (literal : FNode) (effs : list Effect)
  : list FNode :=
  map condition (filter (fun eff => FNode_eqb literal (asserted eff)) effs).

(** The constraints of a list that mention a fluent, in list order. *)
Definition mentioning (atom : FNode) (C : list FNode) : list FNode :=
  filter (fun c => memb atom (free_vars c)) C.

(** A dict entry for a list: absent when the list is empty. *)
Definition entry_of (l : list FNode) : option (list FNode) :=
  match l with
  | [] => None
  | _ => Some l
  end.

(** ** Further functions of the compiler *)

(** [_get_all_atoms]: the fluent expressions below conjunctions,
    disjunctions and negations, with repetitions; any other node gives
    none. *)
Fixpoint _get_all_atoms (condition : FNode) : list FNode :=
  match condition with
  | FluentExp _ => [condition]
  | And l | Or l => flat_map _get_all_atoms l
  | Not a => _get_all_atoms a
  | _ => []
  end.

(** The formula [_evaluate_constraint] evaluates in the initial state for a
    node of the constraint list: [args[1]] for sometime-after and
    sometime-before, [args[0]] otherwise, when there is one. *)
Definition watched (c : FNode) : option FNode :=
  match c with
  | SometimeAfter _ psi | SometimeBefore _ psi => Some psi
  | _ => nth_error (args c) 0
  end.

(** The monitors that start true, for the monitored constraints [l] numbered
    from [n]. *)
Fixpoint initial_true_atoms (I : dict FNode) (l : list FNode) (n : nat)
  : list FNode :=
  match l with
  | [] => []
  | c :: rest =>
      (match watched c with
       | Some x =>
           if is_true (simplify (substitute x I))
           then [FluentExp (monitor_name (tag_of_kind c) n)]
           else []
       | None => []
       end) ++ initial_true_atoms I rest (S n)
  end.

(** An effect that writes the monitor [m]: it assigns a boolean constant
    under a condition that does not simplify to false, to [m] itself or, when
    [m] is a negation, to the atom below it. *)
Definition monitor_write (m : FNode) (eff : Effect) : Prop :=
  is_bool_constant (value eff) = true /\
  is_false (simplify (condition eff)) = false /\
  (fluent eff = m \/ m = Not (fluent eff)).

(** What the loop over the relevant constraints may append to [E] for the
    constraint [c]. *)
Definition monitor_effect (monitors : dict FNode) (c : FNode) (eff : Effect)
  : Prop :=
  is_always c = false /\
  exists m, dict_get monitors c = Some m /\ monitor_write m eff.

(** The ways one iteration of the loop of the allocator can fail. *)
Definition allocation_failure (I : dict FNode) (c : FNode) (e : PyExc)
  : Prop :=
  (e = always_violated /\
   exists phi,
     c = Always phi /\ is_false (simplify (substitute phi I)) = true) \/
  (e = sometime_before_violated /\
   exists phi psi,
     c = SometimeBefore phi psi /\
     is_true (simplify (substitute phi I)) = true) \/
  (e = IndexError /\ args c = []).

(** The ways one iteration of the loop over the relevant constraints can
    fail. *)
Definition rewriting_failure (monitors : dict FNode) (c : FNode) (e : PyExc)
  : Prop :=
  (e = UPUsageError "This compiler cannot handle this expression" /\
   is_constraint c = true /\ forallb propositional (args c) = false) \/
  (e = unknown_constraint /\ is_constraint c = false) \/
  (e = KeyError /\ is_always c = false /\ dict_get monitors c = None).

(** The test one iteration of the allocator's loop makes on a member of the
    constraint list: an always must not evaluate to false and a
    sometime-before's first argument must not evaluate to true in the
    initial state; any other node must have a first argument. *)
Definition allocates (I : dict FNode) (c : FNode) : bool :=
  match c with
  | Always phi => negb (is_false (simplify (substitute phi I)))
  | SometimeBefore phi _ => negb (is_true (simplify (substitute phi I)))
  | _ => match args c with [] => false | _ :: _ => true end
  end.

(** The constraints the rewriting loop handles: one of the five kinds, over
    arguments the regression accepts. *)
Definition rewritable (c : FNode) : bool :=
  is_constraint c && forallb propositional (args c).

(** The effects of a grounded action over boolean fluents: each assigns a
    boolean constant to a fluent expression. *)
Definition boolean_effects (a : InstantaneousAction) : Prop :=
  Forall (fun eff =>
            is_fluent_exp (fluent eff) = true /\
            is_bool_constant (value eff) = true) (effects a).

(** No two effects that fire in [s] assign different values to one
    fluent. *)
Definition conflict_free (a : InstantaneousAction) (s : State) : Prop :=
  forall e1 e2,
    In e1 (effects a) -> In e2 (effects a) ->
    holds s (condition e1) = true -> holds s (condition e2) = true ->
    fluent e1 = fluent e2 -> value e1 = value e2.

(** The effect fires in [s] and writes the fluent [f]. *)
Definition fires_on (s : State) (f : string) (eff : Effect) : bool :=
  holds s (condition eff) && FNode_eqb (fluent eff) (FluentExp f).

(** An action with two conditional effects on p, guarded by q and by its
    negation. *)
Definition copy_q : InstantaneousAction :=
  mkAction "copy_q" []
           [mkEffect atom_q atom_p TRUE; mkEffect (Not atom_q) atom_p FALSE].

(** Some effect of some action assigns the fluent [k]. *)
Definition written (actions : list InstantaneousAction) (k : FNode) : Prop :=
  exists a eff, In a actions /\ In eff (effects a) /\ fluent eff = k.



(** * Properties *)

(** ** Equality tests *)

Lemma FNode_eqb_refl (x : FNode) : FNode_eqb x x = true.
Proof. unfold FNode_eqb. destruct (FNode_eq_dec x x); congruence. Qed.

Lemma FNode_eqb_eq (x y : FNode) : FNode_eqb x y = true <-> x = y.
Proof.
  unfold FNode_eqb. destruct (FNode_eq_dec x y); split; congruence.
Qed.

Lemma memb_In (x : FNode) (l : list FNode) : memb x l = true <-> In x l.
Proof. unfold memb. destruct (in_dec FNode_eq_dec x l); split; congruence. Qed.

Lemma memb_false (x : FNode) (l : list FNode) : memb x l = false <-> ~ In x l.
Proof. unfold memb. destruct (in_dec FNode_eq_dec x l); split; congruence. Qed.

Lemma is_true_TRUE (e : FNode) : is_true e = true <-> e = TRUE.
Proof.
  unfold TRUE. destruct e as [[|]| | | | | | | | |]; simpl; split; congruence.
Qed.

Lemma is_false_FALSE (e : FNode) : is_false e = true <-> e = FALSE.
Proof.
  unfold FALSE. destruct e as [[|]| | | | | | | | |]; simpl; split; congruence.
Qed.

(** ** Dictionaries *)

Lemma dict_get_set_same {V : Type} (d : dict V) (k : FNode) (v : V) :
  dict_get (dict_set d k v) k = Some v.
Proof.
  induction d as [|[k' v'] d IH]; simpl.
  - destruct (FNode_eq_dec k k); congruence.
  - destruct (FNode_eq_dec k k') as [->|Hne]; simpl.
    + destruct (FNode_eq_dec k' k'); congruence.
    + destruct (FNode_eq_dec k k'); congruence.
Qed.

Lemma dict_get_set_other {V : Type} (d : dict V) (k k0 : FNode) (v : V) :
  k0 <> k -> dict_get (dict_set d k v) k0 = dict_get d k0.
Proof.
  intros Hne. induction d as [|[k' v'] d IH]; simpl.
  - destruct (FNode_eq_dec k0 k); congruence.
  - destruct (FNode_eq_dec k k') as [->|Hne']; simpl.
    + destruct (FNode_eq_dec k0 k'); congruence.
    + destruct (FNode_eq_dec k0 k'); congruence.
Qed.

(** ** The grounded initial state *)

Lemma ground_step_get (iv acc : dict FNode) (key k : FNode) :
  dict_get (ground_step iv acc key) k =
  if FNode_eqb k key && initially_true iv key then dict_get iv k
  else dict_get acc k.
Proof.
  unfold ground_step, initially_true, FNode_eqb.
  destruct (FNode_eq_dec k key) as [->|Hne]; simpl.
  - destruct (dict_get iv key) as [w|]; [|reflexivity].
    destruct (is_true w); [|reflexivity].
    apply dict_get_set_same.
  - destruct (dict_get iv key) as [w|]; [|reflexivity].
    destruct (is_true w); [|reflexivity].
    apply dict_get_set_other. exact Hne.
Qed.

Lemma ground_fold_get (iv : dict FNode) (keys : list FNode) :
  forall (acc : dict FNode) (k : FNode),
    dict_get (fold_left (ground_step iv) keys acc) k =
    if memb k keys && initially_true iv k then dict_get iv k
    else dict_get acc k.
Proof.
  induction keys as [|key keys IH]; intros acc k; simpl.
  - reflexivity.
  - rewrite IH, ground_step_get.
    destruct (FNode_eq_dec k key) as [->|Hne].
    + rewrite FNode_eqb_refl.
      assert (Hm : memb key (key :: keys) = true)
        by (apply memb_In; left; reflexivity).
      rewrite Hm.
      destruct (memb key keys); destruct (initially_true iv key); reflexivity.
    + assert (Hk : FNode_eqb k key = false).
      { destruct (FNode_eqb k key) eqn:E; [|reflexivity].
        apply FNode_eqb_eq in E. congruence. }
      assert (Hm : memb k (key :: keys) = memb k keys).
      { destruct (memb k keys) eqn:E.
        - apply memb_In. right. apply memb_In. exact E.
        - apply memb_false. apply memb_false in E.
          intros [H|H]; [congruence|tauto]. }
      rewrite Hk, Hm. simpl.
      destruct (memb k keys && initially_true iv k); reflexivity.
Qed.

Lemma substitute_fluent (I : dict FNode) (f : string) :
  substitute (FluentExp f) I =
  match dict_get I (FluentExp f) with
  | Some v => v
  | None => FluentExp f
  end.
Proof.
  destruct I as [|kv I]; [reflexivity|].
  unfold substitute. cbn [substitute_walk].
  destruct (dict_get (kv :: I) (FluentExp f)); reflexivity.
Qed.


(** ** The regression returns on propositional formulas *)

Lemma mapM_total {A B : Type} (f : A -> result B) (l : list A) :
  Forall (fun x => exists y, f x = OK y) l ->
  exists ys, mapM f l = OK ys /\ List.length ys = List.length l.
Proof.
  induction 1 as [|x l [y Hy] _ [ys [Hys Hlen]]]; simpl.
  - exists []. auto.
  - rewrite Hy. simpl. rewrite Hys. simpl. exists (y :: ys).
    simpl. auto.
Qed.

Lemma regression_total (a : InstantaneousAction) (phi : FNode) :
  propositional phi = true -> exists r, _regression phi a = OK r.
Proof.
  induction phi as [b|f|x IH|l IH|l IH| | | | |] using FNode_nested_ind;
    simpl; intros Hp; try discriminate.
  - eauto.
  - eauto.
  - destruct (IH Hp) as [r Hr]. rewrite Hr. simpl. eauto.
  - rewrite forallb_forall in Hp.
    destruct (mapM_total (fun c => _regression c a) l) as [rs [Hrs _]].
    { rewrite Forall_forall in *. intros x Hx. apply IH; auto. }
    rewrite Hrs. simpl. eauto.
  - rewrite forallb_forall in Hp.
    destruct (mapM_total (fun c => _regression c a) l) as [rs [Hrs _]].
    { rewrite Forall_forall in *. intros x Hx. apply IH; auto. }
    rewrite Hrs. simpl. eauto.
Qed.

(** ** Monitor allocation, one constraint at a time *)

Lemma monitor_loop_app (I : dict FNode) (C1 C2 : list FNode) :
  forall st,
    monitor_loop I (C1 ++ C2) st =
    do st' <- monitor_loop I C1 st; monitor_loop I C2 st'.
Proof.
  induction C1 as [|c C1 IH]; intros st; simpl.
  - reflexivity.
  - destruct (monitor_step I c st) as [st'|e]; simpl; [apply IH|reflexivity].
Qed.

(** [_compile] in terms of the grounded problem: renaming the clone changes
    neither its actions, initial values, goals nor constraints. *)
Lemma compile_unfold (d : dict FNode) (P : Problem) (gr : GroundingResult) :
  _compile d P gr =
  do ms <- _get_monitoring_atoms d (constraints_of gr) (init_of gr);
  do landmarks <- mapM (dict_item (_monitoring_atom_dict ms))
                       (_get_landmark_constraints (constraints_of gr));
  do (A_prime, tbm) <-
     foldM (action_step (map_back_action_instance gr)
                        (_monitoring_atom_dict ms)
                        (_build_relevancy_dict (constraints_of gr)))
           (actions (grounded_problem gr)) ([], []);
  OK (mkCompilerResult
        (assemble_problem
           (set_name (grounded_problem gr)
                     (engine_self_name ++ "_" ++ problem_name P))
           (simplify (em_And (goals (grounded_problem gr)
                                ++ [em_And landmarks])))
           (monitoring_atoms ms) A_prime (initial_state_prime ms))
        tbm engine_self_name).
Proof. reflexivity. Qed.

Lemma compile_raises_with_monitors (d : dict FNode) (P : Problem)
    (gr : GroundingResult) (e : PyExc) :
  _get_monitoring_atoms d (constraints_of gr) (init_of gr) = Raise e ->
  _compile d P gr = Raise e.
Proof. intros H. rewrite compile_unfold, H. reflexivity. Qed.

(** C2 (as the code has it): the monitor of sometime-after(phi, psi) enters
    the initial-true set exactly when psi, substituted and simplified, is the
    constant true; phi is never consulted, because [x or not y] on two FNode
    objects is [x].  On sometime-after(not p, q) with p initially true and q
    initially false, phi evaluates to the constant false, so that
    psi[I] or not phi[I] holds, and yet the monitor hold-0 is left out of the
    initial-true set.  Whatever truth value Python gave the objects, the
    value tested by is_true() would be that of psi alone. *)
Theorem sometime_after_initial_value_ignores_phi :
  (forall I phi psi st,
      monitor_step I (SometimeAfter phi psi) st =
      OK (mkMonitorState
            (monitoring_atoms st
               ++ [mkFluent (monitor_name (Some HOLD)
                                          (monitoring_atoms_counter st))
                            BoolType])
            (S (monitoring_atoms_counter st))
            (if is_true (simplify (substitute psi I))
             then initial_state_prime st
                    ++ [FluentExp (monitor_name (Some HOLD)
                                      (monitoring_atoms_counter st))]
             else initial_state_prime st)
            (dict_set (_monitoring_atom_dict st) (SometimeAfter phi psi)
                      (FluentExp (monitor_name (Some HOLD)
                                      (monitoring_atoms_counter st)))))) /\
  (let gr := ground_self problem_after_negated in
   constraints_of gr = [SometimeAfter (Not atom_p) atom_q] /\
   simplify (substitute (Not atom_p) (init_of gr)) = FALSE /\
   simplify (substitute atom_q (init_of gr)) = atom_q /\
   exists ms,
     _get_monitoring_atoms fresh_dict (constraints_of gr) (init_of gr) = OK ms /\
     _monitoring_atom_dict ms =
       [(SometimeAfter (Not atom_p) atom_q, FluentExp "hold-0")] /\
     initial_state_prime ms = []) /\
  (forall truthy x y b,
      py_is_true (py_or_not_with truthy x y) = OK b -> b = is_true x).
Proof.
  split; [|split].
  - intros I phi psi st. reflexivity.
  - cbv zeta. repeat split.
    eexists. repeat split.
  - intros truthy x y b. unfold py_or_not_with.
    destruct (truthy x); simpl; intros H; [congruence|discriminate].
Qed.

(** C4 (as the code has it): without trajectory constraints the constraint
    list is the single constant true, which is no always, so the allocator
    asks [_evaluate_constraint] for its first argument and the compilation
    ends in an IndexError; no problem is returned. *)
Theorem empty_constraints_index_error :
  forall (d : dict FNode) (P : Problem) (gr : GroundingResult),
    trajectory_constraints (grounded_problem gr) = [] ->
    constraints_of gr = [TRUE] /\ _compile d P gr = Raise IndexError.
Proof.
  intros d P gr H.
  assert (HC : constraints_of gr = [TRUE])
    by (unfold constraints_of; rewrite H; reflexivity).
  split; [exact HC|].
  apply compile_raises_with_monitors. rewrite HC. reflexivity.
Qed.

Lemma empty_constraints_index_error_witness :
  trajectory_constraints (grounded_problem (ground_self problem_no_constraints))
    = [] /\
  compile problem_no_constraints = Raise IndexError.
Proof.
  split; [reflexivity|].
  apply (empty_constraints_index_error fresh_dict problem_no_constraints
           (ground_self problem_no_constraints)).
  reflexivity.
Defined.

(** C1 (as the code has it): the encoding preserves plans in neither
    direction.  With always(p), p false initially and written by no action,
    the compilation succeeds and the plan [reach] is valid for the output
    problem although its trajectory violates always(p).  With
    sometime-after(p, q), p and q false initially, the plan [reach] is valid
    for the input problem, p never holding, but not for the output problem,
    whose monitor hold-0 starts false and is required by the goal. *)
Theorem plan_preservation_fails :
  (exists res,
      compile problem_always_false = OK res /\
      valid_plan (result_problem res) ["reach"] = true /\
      valid_plan problem_always_false ["reach"] = false) /\
  (exists res,
      compile problem_after_idle = OK res /\
      valid_plan problem_after_idle ["reach"] = true /\
      valid_plan (result_problem res) ["reach"] = false).
Proof.
  split; eexists; (split; [reflexivity|]); split; reflexivity.
Qed.

(** On a list with a violated sometime-before ahead of a violated always,
    the error raised is the sometime-before one. *)
Lemma always_violation_not_first :
  let gr := ground_self problem_two_violations in
  In (Always (Not atom_r)) (constraints_of gr) /\
  is_false (simplify (substitute (Not atom_r) (init_of gr))) = true /\
  compile problem_two_violations = Raise sometime_before_violated /\
  sometime_before_violated <> always_violated.
Proof.
  cbv zeta. split; [right; left; reflexivity|].
  split; [reflexivity|]. split; [reflexivity|].
  unfold sometime_before_violated, always_violated. intros H. discriminate H.
Qed.

(** What the check of the allocator does detect: when the constraint list
    holds always(phi) and phi, substituted by the grounded initial state and
    simplified, is the constant false, the compilation raises and returns no
    problem; the error is that of the first failing constraint in list
    order: the always violation when the constraints ahead of it are
    accepted, the error of an earlier constraint otherwise. *)
Theorem always_violation_fails :
  forall (d : dict FNode) (P : Problem) (gr : GroundingResult) (phi : FNode),
    In (Always phi) (constraints_of gr) ->
    is_false (simplify (substitute phi (init_of gr))) = true ->
    exists e,
      _compile d P gr = Raise e /\
      forall C1 C2,
        constraints_of gr = C1 ++ Always phi :: C2 ->
        match _get_monitoring_atoms d C1 (init_of gr) with
        | OK _ => e = always_violated
        | Raise e' => e = e'
        end.
Proof.
  intros d P gr phi Hin Hfalse.
  assert (Hsplit : forall C1 C2,
             constraints_of gr = C1 ++ Always phi :: C2 ->
             _get_monitoring_atoms d (constraints_of gr) (init_of gr) =
             match _get_monitoring_atoms d C1 (init_of gr) with
             | OK _ => Raise always_violated
             | Raise e' => Raise e'
             end).
  { intros C1 C2 HC. rewrite HC. unfold _get_monitoring_atoms.
    rewrite monitor_loop_app.
    destruct (monitor_loop (init_of gr) C1 _) as [st|e']; simpl;
      [|reflexivity].
    rewrite Hfalse. reflexivity. }
  destruct (in_split _ _ Hin) as [C1 [C2 HC]].
  destruct (_get_monitoring_atoms d (constraints_of gr) (init_of gr))
    as [ms|e] eqn:Hms.
  - pose proof (Hsplit _ _ HC) as Hs. revert Hs.
    destruct (_get_monitoring_atoms d C1 (init_of gr));
      intros Hs; discriminate Hs.
  - exists e. split; [apply compile_raises_with_monitors; exact Hms|].
    intros C1' C2' HC'.
    pose proof (Hsplit _ _ HC') as Hs. revert Hs.
    destruct (_get_monitoring_atoms d C1' (init_of gr)); congruence.
Qed.

Lemma always_violation_fails_witness :
  exists e,
    compile problem_always_violated = Raise e /\
    forall C1 C2,
      constraints_of (ground_self problem_always_violated)
        = C1 ++ Always (Not atom_r) :: C2 ->
      match _get_monitoring_atoms fresh_dict C1
              (init_of (ground_self problem_always_violated)) with
      | OK _ => e = always_violated
      | Raise e' => e = e'
      end.
Proof.
  apply (always_violation_fails fresh_dict problem_always_violated
           (ground_self problem_always_violated) (Not atom_r)).
  - left. reflexivity.
  - reflexivity.
Defined.

(** C3 (as the code has it): an always(phi) whose phi is false in the
    initial state is not always rejected.  On always(p) with p false
    initially (the input of P2 in section 8), the normalised list holds
    always(p) and p is false in the initial state, yet the compilation
    returns a problem: the substitution map keeps only the written fluents
    that are initially true, so p is left as it is, and the test of the
    allocator, which asks for the constant false, passes.  The same holds of
    the allocator on every fluent atom that is not initially true: the atom
    stays symbolic and always(atom) is accepted. *)
Theorem always_violation_undetected :
  (In (Always atom_p) (constraints_of (ground_self problem_always_false)) /\
   dict_get (initial_values problem_always_false) atom_p = Some FALSE /\
   holds (initial_state problem_always_false) atom_p = false /\
   simplify (substitute atom_p (init_of (ground_self problem_always_false)))
   = atom_p /\
   exists res,
     compile problem_always_false = OK res /\
     actions (result_problem res) = actions problem_always_false) /\
  forall (gr : GroundingResult) (f : string) (st : MonitorState),
    initially_true (initial_values (grounded_problem gr)) (FluentExp f)
    = false ->
    simplify (substitute (FluentExp f) (init_of gr)) = FluentExp f /\
    monitor_step (init_of gr) (Always (FluentExp f)) st = OK st.
Proof.
  split.
  - split; [left; reflexivity|]. split; [reflexivity|].
    split; [reflexivity|]. split; [reflexivity|].
    eexists. split; reflexivity.
  - intros gr f st Hf.
    assert (Hs : substitute (FluentExp f) (init_of gr) = FluentExp f).
    { rewrite substitute_fluent. unfold init_of, _ground_initial_state.
      rewrite ground_fold_get, Hf, andb_false_r. reflexivity. }
    split; [rewrite Hs; reflexivity|].
    unfold monitor_step. rewrite Hs. reflexivity.
Qed.

(** ** The at-most-once rewriting *)

Lemma action_eta (a : InstantaneousAction) :
  mkAction (action_name a) (preconditions a ++ []) (effects a) = a.
Proof. destruct a. simpl. rewrite app_nil_r. reflexivity. Qed.

(** C5, the claim as it is stated, fails: for turn_off of scenario S3 the
    regression of p is the constant false, which differs from p, and yet the
    action gains neither a precondition nor an effect. *)
Lemma amo_rewrite_may_add_nothing :
  exists r,
    _regression atom_p turn_off = OK r /\
    simplify r = FALSE /\
    simplify r <> atom_p /\
    compile_constraint [(AtMostOnce atom_p, FluentExp "seen-phi-0")]
                       (turn_off, []) (AtMostOnce atom_p)
      = OK (turn_off, []) /\
    exists res,
      compile scenario_S3 = OK res /\
      In turn_off (actions (result_problem res)).
Proof.
  eexists. split; [reflexivity|]. split; [reflexivity|].
  split; [discriminate|]. split; [reflexivity|].
  eexists. split; [reflexivity|]. right. left. reflexivity.
Qed.

(** ** Monitor names *)







Lemma monitor_fluents_app (l1 l2 : list FNode) :
  forall n,
    monitor_fluents (l1 ++ l2) n =
    monitor_fluents l1 n ++ monitor_fluents l2 (n + List.length l1).
Proof.
  induction l1 as [|c l1 IH]; intros n; simpl.
  - rewrite Nat.add_0_r. reflexivity.
  - rewrite IH.
    replace (n + S (List.length l1)) with (S n + List.length l1) by lia.
    reflexivity.
Qed.

(** ** The allocator loop *)

Lemma monitor_step_always (I : dict FNode) (c : FNode) (st st' : MonitorState) :
  is_always c = true -> monitor_step I c st = OK st' -> st' = st.
Proof.
  destruct c; simpl; try discriminate. intros _.
  destruct (is_false _); congruence.
Qed.

Lemma monitor_step_allocates (I : dict FNode) (c : FNode)
    (st st' : MonitorState) :
  is_always c = false -> monitor_step I c st = OK st' ->
  monitoring_atoms st' =
    monitoring_atoms st
      ++ [mkFluent (monitor_name (tag_of_kind c) (monitoring_atoms_counter st))
                   BoolType] /\
  monitoring_atoms_counter st' = S (monitoring_atoms_counter st) /\
  _monitoring_atom_dict st' =
    dict_set (_monitoring_atom_dict st) c
      (FluentExp (monitor_name (tag_of_kind c) (monitoring_atoms_counter st))).
Proof.
  intros Ha. unfold monitor_step.
  destruct c; try discriminate; simpl; unfold args_at; simpl;
    try discriminate.
  - intros H. inversion H. auto.
  - destruct l; simpl; [discriminate|]. intros H. inversion H. auto.
  - destruct l; simpl; [discriminate|]. intros H. inversion H. auto.
  - intros H. inversion H. auto.
  - intros H. inversion H. auto.
  - destruct (is_true (simplify (substitute c1 I))); simpl; [discriminate|].
    intros H. inversion H. auto.
  - intros H. inversion H. auto.
Qed.

Lemma monitor_loop_inv (I : dict FNode) (C : list FNode) :
  forall st st',
    monitor_loop I C st = OK st' ->
    monitoring_atoms_counter st' =
      monitoring_atoms_counter st + List.length (monitored C) /\
    monitoring_atoms st' =
      monitoring_atoms st
        ++ monitor_fluents (monitored C) (monitoring_atoms_counter st) /\
    (forall c m,
        dict_get (_monitoring_atom_dict st') c = Some m ->
        (~ In c (monitored C) /\
         dict_get (_monitoring_atom_dict st) c = Some m) \/
        exists n,
          nth_error (monitored C) n = Some c /\
          m = FluentExp (monitor_name (tag_of_kind c)
                                      (monitoring_atoms_counter st + n))) /\
    (forall c,
        In c (monitored C) \/
        (exists m, dict_get (_monitoring_atom_dict st) c = Some m) ->
        exists m, dict_get (_monitoring_atom_dict st') c = Some m) /\
    (forall c,
        ~ In c (monitored C) ->
        dict_get (_monitoring_atom_dict st') c
        = dict_get (_monitoring_atom_dict st) c).
Proof.
  induction C as [|c0 C IH]; intros st st'; simpl.
  - intros H. inversion H; subst st'. rewrite Nat.add_0_r, app_nil_r.
    repeat split; auto. intros c [[]|H']. exact H'.
  - destruct (monitor_step I c0 st) as [st1|e] eqn:Hstep; simpl;
      [|discriminate].
    intros Hloop. destruct (IH _ _ Hloop) as [Hn [Hat [Hd [He Hk]]]].
    unfold monitored in *. simpl.
    destruct (is_always c0) eqn:Ha; simpl.
    + apply (monitor_step_always I c0 st st1 Ha) in Hstep. subst st1.
      repeat split; auto.
    + destruct (monitor_step_allocates I c0 st st1 Ha Hstep)
        as [Hat1 [Hn1 Hd1]].
      rewrite Hn1 in *. rewrite Hat1 in Hat. rewrite Hd1 in *.
      split; [lia|]. split; [rewrite Hat, <- app_assoc; reflexivity|].
      split; [|split].
      * intros c m Hc. destruct (Hd c m Hc) as [[Hnin Hold]|[n [Hnth Hm]]].
        -- destruct (FNode_eq_dec c c0) as [->|Hne].
           ++ rewrite dict_get_set_same in Hold. right. exists 0.
              rewrite Nat.add_0_r. simpl. split; congruence.
           ++ rewrite dict_get_set_other in Hold by exact Hne. left.
              split; [|exact Hold]. intros [Heq|Hin]; [congruence|tauto].
        -- right. exists (S n). simpl. split; [exact Hnth|].
           rewrite Hm.
           replace (S (monitoring_atoms_counter st) + n)
             with (monitoring_atoms_counter st + S n) by lia.
           reflexivity.
      * intros c Hc. apply He.
        destruct (FNode_eq_dec c c0) as [->|Hne].
        -- right. rewrite dict_get_set_same. eauto.
        -- destruct Hc as [[Heq|Hin]|Hex]; [congruence|auto|].
           right. rewrite dict_get_set_other by exact Hne. exact Hex.
      * intros c Hnin. rewrite Hk by tauto.
        apply dict_get_set_other. intros Heq. apply Hnin. left. congruence.
Qed.


Lemma monitor_fluents_bool (l : list FNode) :
  forall k fl, In fl (monitor_fluents l k) -> fluent_type fl = BoolType.
Proof.
  induction l as [|c l IH]; intros k fl; simpl; [tauto|].
  intros [<-|Hin]; [reflexivity|eauto].
Qed.

Lemma monitored_In (C : list FNode) (c : FNode) :
  In c (monitored C) <-> In c C /\ is_always c = false.
Proof.
  unfold monitored. rewrite filter_In.
  destruct (is_always c); simpl; split; intros [H1 H2]; auto; discriminate.
Qed.






(** ** The simplifier preserves truth in every state *)

Lemma holds_walk_not (s : State) (x : FNode) :
  holds s (walk_not x) = negb (holds s x).
Proof. destruct x; simpl; try reflexivity. rewrite negb_involutive. reflexivity. Qed.

Lemma forallb_In_true {A : Type} (f : A -> bool) (l : list A) (x : A) :
  forallb f l = true -> In x l -> f x = true.
Proof. rewrite forallb_forall. auto. Qed.

Lemma existsb_In_true {A : Type} (f : A -> bool) (l : list A) (x : A) :
  In x l -> f x = true -> existsb f l = true.
Proof. intros Hin Hx. apply existsb_exists. eauto. Qed.

Lemma new_args_add_forallb (s : State) (x : FNode) (acc : list FNode) :
  forallb (holds s) (new_args_add x acc) = forallb (holds s) acc && holds s x.
Proof.
  unfold new_args_add. destruct (memb x acc) eqn:Hm.
  - apply memb_In in Hm.
    destruct (forallb (holds s) acc) eqn:Hacc; [|reflexivity].
    rewrite (forallb_In_true _ _ _ Hacc Hm). reflexivity.
  - rewrite forallb_app. simpl. rewrite andb_true_r. reflexivity.
Qed.

Lemma new_args_add_existsb (s : State) (x : FNode) (acc : list FNode) :
  existsb (holds s) (new_args_add x acc) = existsb (holds s) acc || holds s x.
Proof.
  unfold new_args_add. destruct (memb x acc) eqn:Hm.
  - apply memb_In in Hm.
    destruct (holds s x) eqn:Hx; [|rewrite orb_false_r; reflexivity].
    rewrite (existsb_In_true _ _ _ Hm Hx). reflexivity.
  - rewrite existsb_app. simpl. rewrite orb_false_r. reflexivity.
Qed.

Lemma add_terms_and_sound (s : State) (ss : list FNode) :
  forall acc,
    match add_terms ss acc with
    | Some na =>
        forallb (holds s) na = forallb (holds s) acc && forallb (holds s) ss
    | None => forallb (holds s) acc && forallb (holds s) ss = false
    end.
Proof.
  induction ss as [|x ss IH]; intros acc; simpl.
  - rewrite andb_true_r. reflexivity.
  - destruct (memb (walk_not x) acc) eqn:Hm.
    + apply memb_In in Hm.
      destruct (forallb (holds s) acc) eqn:Hacc; [|reflexivity].
      pose proof (forallb_In_true _ _ _ Hacc Hm) as Hx.
      rewrite holds_walk_not in Hx. apply negb_true_iff in Hx.
      rewrite Hx. reflexivity.
    + specialize (IH (new_args_add x acc)).
      rewrite new_args_add_forallb in IH.
      rewrite andb_assoc. exact IH.
Qed.

Lemma add_terms_or_sound (s : State) (ss : list FNode) :
  forall acc,
    match add_terms ss acc with
    | Some na =>
        existsb (holds s) na = existsb (holds s) acc || existsb (holds s) ss
    | None => existsb (holds s) acc || existsb (holds s) ss = true
    end.
Proof.
  induction ss as [|x ss IH]; intros acc; simpl.
  - rewrite orb_false_r. reflexivity.
  - destruct (memb (walk_not x) acc) eqn:Hm.
    + apply memb_In in Hm.
      destruct (holds s x) eqn:Hx; [rewrite orb_true_r; reflexivity|].
      assert (Hn : holds s (walk_not x) = true)
        by (rewrite holds_walk_not, Hx; reflexivity).
      rewrite (existsb_In_true _ _ _ Hm Hn). reflexivity.
    + specialize (IH (new_args_add x acc)).
      rewrite new_args_add_existsb in IH.
      rewrite orb_assoc. exact IH.
Qed.

Lemma and_chunk_holds (s : State) (a : FNode) :
  forallb (holds s) (if is_and a then args a else [a]) = holds s a.
Proof. destruct a; simpl; try rewrite andb_true_r; reflexivity. Qed.

Lemma or_chunk_holds (s : State) (a : FNode) :
  existsb (holds s) (if is_or a then args a else [a]) = holds s a.
Proof. destruct a; simpl; try rewrite orb_false_r; reflexivity. Qed.

Lemma walk_and_loop_sound (s : State) (l : list FNode) :
  forall acc,
    match walk_and_loop l acc with
    | Some na =>
        forallb (holds s) na = forallb (holds s) acc && forallb (holds s) l
    | None => forallb (holds s) acc && forallb (holds s) l = false
    end.
Proof.
  induction l as [|a l IH]; intros acc; simpl.
  - rewrite andb_true_r. reflexivity.
  - destruct (is_true a) eqn:Ht.
    + apply is_true_TRUE in Ht. subst a. simpl. apply IH.
    + destruct (is_false a) eqn:Hf.
      * apply is_false_FALSE in Hf. subst a. simpl.
        rewrite andb_false_r. reflexivity.
      * pose proof (add_terms_and_sound s
                      (if is_and a then args a else [a]) acc) as Hchunk.
        rewrite and_chunk_holds in Hchunk.
        destruct (add_terms _ acc) as [na|].
        -- specialize (IH na). rewrite Hchunk in IH.
           rewrite andb_assoc. exact IH.
        -- rewrite andb_assoc, Hchunk. reflexivity.
Qed.

Lemma walk_or_loop_sound (s : State) (l : list FNode) :
  forall acc,
    match walk_or_loop l acc with
    | Some na =>
        existsb (holds s) na = existsb (holds s) acc || existsb (holds s) l
    | None => existsb (holds s) acc || existsb (holds s) l = true
    end.
Proof.
  induction l as [|a l IH]; intros acc; simpl.
  - rewrite orb_false_r. reflexivity.
  - destruct (is_false a) eqn:Hf.
    + apply is_false_FALSE in Hf. subst a. simpl. apply IH.
    + destruct (is_true a) eqn:Ht.
      * apply is_true_TRUE in Ht. subst a. simpl.
        rewrite orb_true_r. reflexivity.
      * pose proof (add_terms_or_sound s
                      (if is_or a then args a else [a]) acc) as Hchunk.
        rewrite or_chunk_holds in Hchunk.
        destruct (add_terms _ acc) as [na|].
        -- specialize (IH na). rewrite Hchunk in IH.
           rewrite orb_assoc. exact IH.
        -- rewrite orb_assoc, Hchunk. reflexivity.
Qed.

Lemma same_pair_inv (l : list FNode) (a : FNode) :
  same_pair l = Some a -> l = [a; a].
Proof.
  destruct l as [|a0 [|a1 [|a2 l]]]; simpl; try discriminate.
  destruct (FNode_eq_dec a0 a1); [|discriminate]. congruence.
Qed.

Lemma walk_and_sound (s : State) (l : list FNode) :
  holds s (walk_and l) = forallb (holds s) l.
Proof.
  unfold walk_and. destruct (same_pair l) as [a|] eqn:Hp.
  - apply same_pair_inv in Hp. subst l. simpl.
    destruct (holds s a); reflexivity.
  - pose proof (walk_and_loop_sound s l []) as H. simpl in H.
    destruct (walk_and_loop l []) as [[|x [|y na]]|].
    + simpl. exact H.
    + simpl in *. rewrite andb_true_r in H. exact H.
    + exact H.
    + simpl. symmetry. exact H.
Qed.

Lemma walk_or_sound (s : State) (l : list FNode) :
  holds s (walk_or l) = existsb (holds s) l.
Proof.
  unfold walk_or. destruct (same_pair l) as [a|] eqn:Hp.
  - apply same_pair_inv in Hp. subst l. simpl.
    destruct (holds s a); reflexivity.
  - pose proof (walk_or_loop_sound s l []) as H. simpl in H.
    destruct (walk_or_loop l []) as [[|x [|y na]]|].
    + simpl. exact H.
    + simpl in *. rewrite orb_false_r in H. exact H.
    + exact H.
    + simpl. symmetry. exact H.
Qed.

Lemma simplify_sound (s : State) (e : FNode) :
  holds s (simplify e) = holds s e.
Proof.
  induction e as [b|f|x IH|l IH|l IH| | | | |] using FNode_nested_ind;
    simpl; try reflexivity.
  - rewrite holds_walk_not, IH. reflexivity.
  - rewrite walk_and_sound. induction IH as [|x l Hx _ IHl]; simpl;
      [reflexivity|]. rewrite Hx, IHl. reflexivity.
  - rewrite walk_or_sound. induction IH as [|x l Hx _ IHl]; simpl;
      [reflexivity|]. rewrite Hx, IHl. reflexivity.
Qed.

Lemma em_And_holds (s : State) (l : list FNode) :
  holds s (em_And l) = forallb (holds s) l.
Proof.
  destruct l as [|x [|y l]]; simpl; try reflexivity.
  rewrite andb_true_r. reflexivity.
Qed.

(** ** The structure of a successful compilation *)

Lemma bind_ok {A B : Type} (r : result A) (k : A -> result B) (b : B) :
  bind r k = OK b -> exists a, r = OK a /\ k a = OK b.
Proof. destruct r as [a|e]; simpl; [eauto|discriminate]. Qed.

Lemma fold_add_fluent (F : list Fluent) :
  forall P,
    fluents (fold_left add_fluent F P) = fluents P ++ F /\
    actions (fold_left add_fluent F P) = actions P /\
    goals (fold_left add_fluent F P) = goals P /\
    trajectory_constraints (fold_left add_fluent F P)
      = trajectory_constraints P.
Proof.
  induction F as [|fl F IH]; intros P; simpl.
  - rewrite app_nil_r. auto.
  - destruct (IH (add_fluent P fl)) as [H1 [H2 [H3 H4]]].
    rewrite H1, H2, H3, H4. simpl. rewrite <- app_assoc. auto.
Qed.

Lemma fold_add_action (A : list InstantaneousAction) :
  forall P,
    fluents (fold_left add_action A P) = fluents P /\
    actions (fold_left add_action A P) = actions P ++ A /\
    goals (fold_left add_action A P) = goals P /\
    trajectory_constraints (fold_left add_action A P)
      = trajectory_constraints P.
Proof.
  induction A as [|a A IH]; intros P; simpl.
  - rewrite app_nil_r. auto.
  - destruct (IH (add_action P a)) as [H1 [H2 [H3 H4]]].
    rewrite H1, H2, H3, H4. simpl. rewrite <- app_assoc. auto.
Qed.

Lemma fold_set_initial_value (I_prime : list FNode) :
  forall P,
    let P' := fold_left
                (fun P init_val =>
                   set_initial_value
                     P (mkFluent (str_of_fluent_exp init_val) BoolType) TRUE)
                I_prime P in
    fluents P' = fluents P /\ actions P' = actions P /\
    goals P' = goals P /\
    trajectory_constraints P' = trajectory_constraints P.
Proof.
  induction I_prime as [|x I_prime IH]; intros P; simpl; [auto|].
  destruct (IH (set_initial_value
                  P (mkFluent (str_of_fluent_exp x) BoolType) TRUE))
    as [H1 [H2 [H3 H4]]].
  simpl in *. auto.
Qed.

Lemma assemble_problem_fields (P0 : Problem) (G_new : FNode)
    (F_prime : list Fluent) (A_prime : list InstantaneousAction)
    (I_prime : list FNode) :
  let P' := assemble_problem P0 G_new F_prime A_prime I_prime in
  fluents P' = fluents P0 ++ F_prime /\
  actions P' = A_prime /\
  goals P' = [G_new] /\
  trajectory_constraints P' = [].
Proof.
  unfold assemble_problem. cbv zeta.
  destruct (fold_set_initial_value I_prime
              (fold_left add_action A_prime
                 (clear_actions
                    (fold_left add_fluent F_prime
                       (clear_trajectory_constraints
                          (add_goal (clear_goals P0) G_new))))))
    as [H1 [H2 [H3 H4]]].
  cbv zeta in H1, H2, H3, H4. rewrite H1, H2, H3, H4.
  destruct (fold_add_action A_prime
              (clear_actions
                 (fold_left add_fluent F_prime
                    (clear_trajectory_constraints
                       (add_goal (clear_goals P0) G_new)))))
    as [K1 [K2 [K3 K4]]].
  rewrite K1, K2, K3, K4. simpl.
  destruct (fold_add_fluent F_prime
              (clear_trajectory_constraints
                 (add_goal (clear_goals P0) G_new)))
    as [L1 [L2 [L3 L4]]].
  rewrite L1, L3, L4. simpl. auto.
Qed.

Lemma compile_ok_inv (d : dict FNode) (P : Problem) (gr : GroundingResult)
    (res : CompilerResult) :
  _compile d P gr = OK res ->
  exists ms mons A_prime tbm,
    _get_monitoring_atoms d (constraints_of gr) (init_of gr) = OK ms /\
    mapM (dict_item (_monitoring_atom_dict ms))
         (_get_landmark_constraints (constraints_of gr)) = OK mons /\
    foldM (action_step (map_back_action_instance gr)
                       (_monitoring_atom_dict ms)
                       (_build_relevancy_dict (constraints_of gr)))
          (actions (grounded_problem gr)) ([], []) = OK (A_prime, tbm) /\
    actions (result_problem res) = A_prime /\
    goals (result_problem res) =
      [simplify (em_And (goals (grounded_problem gr) ++ [em_And mons]))] /\
    fluents (result_problem res) =
      fluents (grounded_problem gr) ++ monitoring_atoms ms /\
    trajectory_constraints (result_problem res) = [].
Proof.
  rewrite compile_unfold. intros H.
  apply bind_ok in H. destruct H as [ms [Hms H]].
  apply bind_ok in H. destruct H as [mons [Hmons H]].
  apply bind_ok in H. destruct H as [[A_prime tbm] [Hfold H]].
  inversion H; subst res; simpl.
  destruct (assemble_problem_fields
              (set_name (grounded_problem gr)
                 (engine_self_name ++ "_" ++ problem_name P))
              (simplify (em_And (goals (grounded_problem gr) ++ [em_And mons])))
              (monitoring_atoms ms) A_prime (initial_state_prime ms))
    as [F1 [F2 [F3 F4]]].
  exists ms, mons, A_prime, tbm. repeat split; assumption.
Qed.

Lemma action_loop_ok (m : list (InstantaneousAction * MapValue))
    (d : dict FNode) (rd : dict (list FNode)) (A : list InstantaneousAction) :
  forall acc tb acc' tb',
    foldM (action_step m d rd) A (acc, tb) = OK (acc', tb') ->
    exists rewritten,
      mapM (compile_action d rd) A = OK rewritten /\
      acc' = acc ++ filter kept rewritten.
Proof.
  induction A as [|a A IH]; intros acc tb acc' tb'; simpl.
  - intros H. inversion H. exists []. simpl. rewrite app_nil_r. auto.
  - intros H. apply bind_ok in H. destruct H as [[acc1 tb1] [Hstep Hrest]].
    unfold action_step in Hstep.
    apply bind_ok in Hstep. destruct Hstep as [v [Hv Hstep]].
    apply bind_ok in Hstep. destruct Hstep as [a' [Ha' Hstep]].
    inversion Hstep; subst acc1 tb1. clear Hstep.
    destruct (IH _ _ _ _ Hrest) as [rewritten [Hmap Hacc]].
    exists (a' :: rewritten). rewrite Ha'. simpl. rewrite Hmap. simpl.
    split; [reflexivity|]. rewrite Hacc. unfold kept at 2.
    destruct (memb FALSE (preconditions a')); simpl;
      [reflexivity|rewrite <- app_assoc; reflexivity].
Qed.

Lemma action_loop_total (m : list (InstantaneousAction * MapValue))
    (d : dict FNode) (rd : dict (list FNode)) (A : list InstantaneousAction) :
  forall rewritten,
    mapM (compile_action d rd) A = OK rewritten ->
    Forall (fun a => exists v, action_map_get m a = OK v) A ->
    forall acc tb,
    exists tb',
      foldM (action_step m d rd) A (acc, tb)
      = OK (acc ++ filter kept rewritten, tb').
Proof.
  induction A as [|a A IH]; intros rewritten Hmap Hall acc tb; simpl in *.
  - inversion Hmap. simpl. rewrite app_nil_r. eauto.
  - apply bind_ok in Hmap. destruct Hmap as [a' [Ha' Hmap]].
    apply bind_ok in Hmap. destruct Hmap as [rest [Hrest Hmap]].
    inversion Hmap; subst rewritten. clear Hmap.
    inversion Hall as [|? ? [v Hv] Hall']; subst.
    unfold action_step at 1. rewrite Hv. simpl. rewrite Ha'. simpl.
    destruct (IH rest Hrest Hall'
                 (if memb FALSE (preconditions a') then acc else acc ++ [a'])
                 (action_map_set tb a' v)) as [tb' Htb'].
    exists tb'. fold (action_step m d rd). rewrite Htb'. unfold kept at 2.
    destruct (memb FALSE (preconditions a')); simpl;
      [reflexivity|rewrite <- app_assoc; reflexivity].
Qed.

Lemma landmark_monitored (C : list FNode) (c : FNode) :
  In c (_get_landmark_constraints C) ->
  In c C /\ (is_sometime c || is_sometime_after c) = true /\
  In c (monitored C).
Proof.
  unfold _get_landmark_constraints, monitored. rewrite !filter_In.
  intros [Hin Hk]. repeat split; auto.
  destruct c; simpl in *; congruence.
Qed.

Lemma landmarks_total (d : dict FNode) (C : list FNode) (I : dict FNode)
    (ms : MonitorState) :
  _get_monitoring_atoms d C I = OK ms ->
  exists mons,
    mapM (dict_item (_monitoring_atom_dict ms)) (_get_landmark_constraints C)
    = OK mons.
Proof.
  intros H. unfold _get_monitoring_atoms in H.
  destruct (monitor_loop_inv I C _ _ H) as [_ [_ [_ [He _]]]].
  destruct (mapM_total (dict_item (_monitoring_atom_dict ms))
              (_get_landmark_constraints C)) as [mons [Hm _]]; [|eauto].
  apply Forall_forall. intros c Hc.
  apply landmark_monitored in Hc. destruct Hc as [_ [_ Hmon]].
  destruct (He c (or_introl Hmon)) as [m Hm].
  exists m. unfold dict_item. rewrite Hm. reflexivity.
Qed.

Lemma kept_no_false (a : InstantaneousAction) :
  kept a = true <-> ~ In FALSE (preconditions a).
Proof.
  unfold kept. rewrite negb_true_iff. apply memb_false.
Qed.

(** C7: when the monitors are allocated, every action is rewritten and the
    grounder's map knows every action, the compilation returns a problem,
    whatever the rewritten preconditions are; its actions are the rewritten
    actions without those whose preconditions contain the constant false, in
    their original order.  So a rewritten action with false among its
    preconditions is absent from the output, and no action of the output has
    false among its preconditions. *)
Theorem action_pruning :
  forall (d : dict FNode) (P : Problem) (gr : GroundingResult)
         (ms : MonitorState) (rewritten : list InstantaneousAction),
    _get_monitoring_atoms d (constraints_of gr) (init_of gr) = OK ms ->
    mapM (compile_action (_monitoring_atom_dict ms)
                         (_build_relevancy_dict (constraints_of gr)))
         (actions (grounded_problem gr)) = OK rewritten ->
    Forall (fun a => exists v,
                action_map_get (map_back_action_instance gr) a = OK v)
           (actions (grounded_problem gr)) ->
    exists res,
      _compile d P gr = OK res /\
      actions (result_problem res) = filter kept rewritten /\
      (forall a', In a' rewritten -> In FALSE (preconditions a') ->
                  ~ In a' (actions (result_problem res))) /\
      (forall a', In a' (actions (result_problem res)) ->
                  ~ In FALSE (preconditions a')).
Proof.
  intros d P gr ms rewritten Hms Hmap Hall.
  destruct (landmarks_total _ _ _ _ Hms) as [mons Hmons].
  destruct (action_loop_total _ _ _ _ _ Hmap Hall [] []) as [tb Hfold].
  simpl in Hfold.
  exists (mkCompilerResult
            (assemble_problem
               (set_name (grounded_problem gr)
                  (engine_self_name ++ "_" ++ problem_name P))
               (simplify (em_And (goals (grounded_problem gr)
                                    ++ [em_And mons])))
               (monitoring_atoms ms) (filter kept rewritten)
               (initial_state_prime ms))
            tb engine_self_name).
  split.
  - rewrite compile_unfold, Hms. cbn [bind]. rewrite Hmons. cbn [bind].
    rewrite Hfold. reflexivity.
  - cbn [result_problem].
    destruct (assemble_problem_fields
                (set_name (grounded_problem gr)
                   (engine_self_name ++ "_" ++ problem_name P))
                (simplify (em_And (goals (grounded_problem gr)
                                     ++ [em_And mons])))
                (monitoring_atoms ms) (filter kept rewritten)
                (initial_state_prime ms)) as [_ [Hact _]].
    cbv zeta in Hact. rewrite Hact.
    split; [reflexivity|]. split.
    + intros a' _ Hfalse Hin. apply filter_In in Hin.
      destruct Hin as [_ Hk]. apply kept_no_false in Hk. auto.
    + intros a' Hin. apply filter_In in Hin.
      destruct Hin as [_ Hk]. apply kept_no_false in Hk. exact Hk.
Qed.

Lemma action_pruning_witness :
  exists res,
    compile scenario_S2 = OK res /\
    actions (result_problem res) =
      filter kept [mkAction "op" [FALSE] [mkEffect TRUE atom_p FALSE]] /\
    (forall a',
        In a' [mkAction "op" [FALSE] [mkEffect TRUE atom_p FALSE]] ->
        In FALSE (preconditions a') ->
        ~ In a' (actions (result_problem res))) /\
    (forall a', In a' (actions (result_problem res)) ->
                ~ In FALSE (preconditions a')).
Proof.
  apply (action_pruning fresh_dict scenario_S2 (ground_self scenario_S2)
           (mkMonitorState [] 0 [] [])
           [mkAction "op" [FALSE] [mkEffect TRUE atom_p FALSE]]).
  - reflexivity.
  - reflexivity.
  - repeat constructor. eexists. reflexivity.
Defined.

(** ** The augmented goal *)

Lemma mapM_Forall2 {A B : Type} (f : A -> result B) (l : list A) :
  forall ys, mapM f l = OK ys -> Forall2 (fun x y => f x = OK y) l ys.
Proof.
  induction l as [|x l IH]; intros ys; simpl.
  - intros H. inversion H. constructor.
  - intros H. apply bind_ok in H. destruct H as [y [Hy H]].
    apply bind_ok in H. destruct H as [ys' [Hys H]].
    inversion H. constructor; auto.
Qed.

Lemma dict_item_ok {V : Type} (d : dict V) (k : FNode) (v : V) :
  dict_item d k = OK v <-> dict_get d k = Some v.
Proof.
  unfold dict_item. destruct (dict_get d k); split; congruence.
Qed.

Lemma Forall2_In_l {A B : Type} (R : A -> B -> Prop) (l : list A)
    (l' : list B) (x : A) :
  Forall2 R l l' -> In x l -> exists y, In y l' /\ R x y.
Proof.
  induction 1 as [|a b l l' Hab _ IH]; simpl; [tauto|].
  intros [<-|Hin]; [eauto|].
  destruct (IH Hin) as [y [Hy HR]]. eauto.
Qed.

Lemma Forall2_In_r {A B : Type} (R : A -> B -> Prop) (l : list A)
    (l' : list B) (y : B) :
  Forall2 R l l' -> In y l' -> exists x, In x l /\ R x y.
Proof.
  induction 1 as [|a b l l' Hab _ IH]; simpl; [tauto|].
  intros [<-|Hin]; [eauto|].
  destruct (IH Hin) as [x [Hx HR]]. eauto.
Qed.

(** C8: the goal of a compiled problem is the single formula
    simplify(And(G, And(m_1 .. m_k))), where G are the goals of the grounded
    problem and m_1 .. m_k the monitors of the sometime and sometime-after
    constraints of the normalised list, in list order.  Every such constraint
    has its monitor among them, every m_i is the monitor of such a
    constraint, so no other kind contributes, and in every state the new
    goal holds exactly when the original goals and all these monitors
    hold. *)
Theorem landmark_goal_augmentation :
  forall (d : dict FNode) (P : Problem) (gr : GroundingResult)
         (res : CompilerResult),
    _compile d P gr = OK res ->
    exists ms mons,
      _get_monitoring_atoms d (constraints_of gr) (init_of gr) = OK ms /\
      Forall2 (fun c m => dict_get (_monitoring_atom_dict ms) c = Some m)
              (_get_landmark_constraints (constraints_of gr)) mons /\
      goals (result_problem res) =
        [simplify (em_And (goals (grounded_problem gr) ++ [em_And mons]))] /\
      (forall c,
          In c (constraints_of gr) ->
          (is_sometime c || is_sometime_after c) = true ->
          exists m,
            dict_get (_monitoring_atom_dict ms) c = Some m /\ In m mons) /\
      (forall m,
          In m mons ->
          exists c,
            In c (constraints_of gr) /\
            (is_sometime c || is_sometime_after c) = true /\
            dict_get (_monitoring_atom_dict ms) c = Some m) /\
      (forall s,
          forallb (holds s) (goals (result_problem res)) =
          forallb (holds s) (goals (grounded_problem gr))
          && forallb (holds s) mons).
Proof.
  intros d P gr res H.
  destruct (compile_ok_inv _ _ _ _ H)
    as [ms [mons [A_prime [tbm [Hms [Hmons [_ [_ [Hgoal _]]]]]]]]].
  exists ms, mons.
  assert (HF : Forall2
                 (fun c m => dict_get (_monitoring_atom_dict ms) c = Some m)
                 (_get_landmark_constraints (constraints_of gr)) mons).
  { apply mapM_Forall2 in Hmons.
    eapply Forall2_impl; [|exact Hmons].
    intros c m Hc. apply dict_item_ok. exact Hc. }
  split; [exact Hms|]. split; [exact HF|]. split; [exact Hgoal|].
  split; [|split].
  - intros c Hin Hk.
    assert (Hl : In c (_get_landmark_constraints (constraints_of gr))).
    { apply filter_In. auto. }
    destruct (Forall2_In_l _ _ _ _ HF Hl) as [m [Hm Hd]]. eauto.
  - intros m Hm.
    destruct (Forall2_In_r _ _ _ _ HF Hm) as [c [Hc Hd]].
    apply landmark_monitored in Hc. destruct Hc as [Hin [Hk _]]. eauto.
  - intros s. rewrite Hgoal. simpl.
    rewrite simplify_sound, em_And_holds, forallb_app. simpl.
    rewrite em_And_holds, !andb_true_r. reflexivity.
Qed.

Lemma landmark_goal_augmentation_witness :
  exists res,
    compile problem_landmarks = OK res /\
    goals (result_problem res)
      = [And [atom_g; FluentExp "hold-0"; FluentExp "hold-2"]] /\
    exists ms mons,
      _get_monitoring_atoms fresh_dict
        (constraints_of (ground_self problem_landmarks))
        (init_of (ground_self problem_landmarks)) = OK ms /\
      Forall2 (fun c m => dict_get (_monitoring_atom_dict ms) c = Some m)
              [SometimeAfter atom_p atom_q; Sometime atom_q] mons /\
      goals (result_problem res) =
        [simplify (em_And (goals problem_landmarks ++ [em_And mons]))].
Proof.
  eexists. split; [reflexivity|]. split; [reflexivity|].
  destruct (landmark_goal_augmentation fresh_dict problem_landmarks
              (ground_self problem_landmarks) _ eq_refl)
    as [ms [mons [Hms [HF [Hgoal _]]]]].
  exists ms, mons. split; [exact Hms|]. split; [exact HF|exact Hgoal].
Defined.

(** ** What the simplifier returns is in simplified form *)

Lemma add_terms_app (l1 l2 : list FNode) :
  forall acc,
    add_terms (l1 ++ l2) acc =
    match add_terms l1 acc with
    | Some na => add_terms l2 na
    | None => None
    end.
Proof.
  induction l1 as [|x l1 IH]; intros acc; simpl; [reflexivity|].
  destruct (memb (walk_not x) acc); [reflexivity|apply IH].
Qed.

Lemma add_terms_keeps (Q : FNode -> Prop) (ss : list FNode) :
  forall acc na,
    add_terms ss acc = Some na ->
    Forall Q acc -> Forall Q ss -> Forall Q na.
Proof.
  induction ss as [|x ss IH]; intros acc na; simpl.
  - intros H. inversion H. auto.
  - destruct (memb (walk_not x) acc); [discriminate|].
    intros H Hacc Hss. inversion Hss as [|? ? Hx Hss']; subst.
    apply (IH _ _ H); [|exact Hss'].
    unfold new_args_add. destruct (memb x acc); [exact Hacc|].
    apply Forall_app. auto.
Qed.

Lemma add_terms_stable (ss : list FNode) :
  forall acc na,
    add_terms ss acc = Some na ->
    add_terms acc [] = Some acc ->
    add_terms na [] = Some na.
Proof.
  induction ss as [|x ss IH]; intros acc na; simpl.
  - intros H. inversion H. auto.
  - destruct (memb (walk_not x) acc) eqn:Hc; [discriminate|].
    intros H Hacc. apply (IH _ _ H).
    unfold new_args_add. destruct (memb x acc) eqn:Hx; [exact Hacc|].
    rewrite add_terms_app, Hacc. simpl. rewrite Hc.
    unfold new_args_add. rewrite Hx. reflexivity.
Qed.

(** The terms a walker inserts for one simplified argument. *)
Lemma chunk_terms (flat : FNode -> bool) (a : FNode) :
  (flat = is_and \/ flat = is_or) ->
  normal a -> is_bool_constant a = false ->
  Forall normal (if flat a then args a else [a]) /\
  Forall (term_of flat) (if flat a then args a else [a]).
Proof.
  intros Hflat Hn Hc.
  destruct (flat a) eqn:Hf.
  - destruct Hflat as [-> | ->]; destruct a; try discriminate;
      inversion Hn; subst; simpl; auto.
  - split; repeat constructor; auto.
Qed.

Lemma walk_and_loop_normal (l : list FNode) :
  forall acc na,
    walk_and_loop l acc = Some na ->
    Forall normal l ->
    Forall normal acc -> Forall (term_of is_and) acc ->
    add_terms acc [] = Some acc ->
    Forall normal na /\ Forall (term_of is_and) na /\
    add_terms na [] = Some na.
Proof.
  induction l as [|a l IH]; intros acc na; simpl.
  - intros H. inversion H. auto.
  - intros H Hl. inversion Hl as [|? ? Ha Hl']; subst.
    destruct (is_true a) eqn:Ht; [eauto|].
    destruct (is_false a) eqn:Hf; [discriminate|].
    assert (Hc : is_bool_constant a = false)
      by (destruct a as [[|]| | | | | | | | |]; simpl in *; congruence).
    destruct (chunk_terms is_and a (or_introl eq_refl) Ha Hc) as [Hn1 Hn2].
    destruct (add_terms _ acc) as [na1|] eqn:Hadd; [|discriminate].
    intros Hacc1 Hacc2 Hacc3.
    apply (IH _ _ H Hl').
    + eapply add_terms_keeps; eauto.
    + eapply add_terms_keeps; eauto.
    + eapply add_terms_stable; eauto.
Qed.

Lemma walk_or_loop_normal (l : list FNode) :
  forall acc na,
    walk_or_loop l acc = Some na ->
    Forall normal l ->
    Forall normal acc -> Forall (term_of is_or) acc ->
    add_terms acc [] = Some acc ->
    Forall normal na /\ Forall (term_of is_or) na /\
    add_terms na [] = Some na.
Proof.
  induction l as [|a l IH]; intros acc na; simpl.
  - intros H. inversion H. auto.
  - intros H Hl. inversion Hl as [|? ? Ha Hl']; subst.
    destruct (is_false a) eqn:Hf; [eauto|].
    destruct (is_true a) eqn:Ht; [discriminate|].
    assert (Hc : is_bool_constant a = false)
      by (destruct a as [[|]| | | | | | | | |]; simpl in *; congruence).
    destruct (chunk_terms is_or a (or_intror eq_refl) Ha Hc) as [Hn1 Hn2].
    destruct (add_terms _ acc) as [na1|] eqn:Hadd; [|discriminate].
    intros Hacc1 Hacc2 Hacc3.
    apply (IH _ _ H Hl').
    + eapply add_terms_keeps; eauto.
    + eapply add_terms_keeps; eauto.
    + eapply add_terms_stable; eauto.
Qed.

Lemma same_pair_In (l : list FNode) (a : FNode) :
  same_pair l = Some a -> In a l.
Proof. intros H. apply same_pair_inv in H. subst l. left. reflexivity. Qed.

Lemma walk_and_normal (l : list FNode) :
  Forall normal l -> normal (walk_and l).
Proof.
  intros Hl. unfold walk_and.
  destruct (same_pair l) as [a|] eqn:Hp.
  - apply same_pair_In in Hp. rewrite Forall_forall in Hl. auto.
  - destruct (walk_and_loop l []) as [na|] eqn:Hloop; [|constructor].
    destruct (walk_and_loop_normal l [] na Hloop Hl) as [H1 [H2 H3]];
      auto.
    destruct na as [|x [|y na]].
    + constructor.
    + inversion H1; auto.
    + constructor; auto. simpl. lia.
Qed.

Lemma walk_or_normal (l : list FNode) :
  Forall normal l -> normal (walk_or l).
Proof.
  intros Hl. unfold walk_or.
  destruct (same_pair l) as [a|] eqn:Hp.
  - apply same_pair_In in Hp. rewrite Forall_forall in Hl. auto.
  - destruct (walk_or_loop l []) as [na|] eqn:Hloop; [|constructor].
    destruct (walk_or_loop_normal l [] na Hloop Hl) as [H1 [H2 H3]];
      auto.
    destruct na as [|x [|y na]].
    + constructor.
    + inversion H1; auto.
    + constructor; auto. simpl. lia.
Qed.

Lemma walk_not_normal (x : FNode) : normal x -> normal (walk_not x).
Proof.
  intros Hx. destruct x; simpl; try (constructor; auto; fail).
  inversion Hx; auto.
Qed.

Lemma simplify_normal (e : FNode) : normal (simplify e).
Proof.
  induction e as [b|f|x IH|l IH|l IH| | | | |] using FNode_nested_ind;
    simpl; try (constructor; auto; fail).
  - apply walk_not_normal. exact IH.
  - apply walk_and_normal. apply Forall_map. exact IH.
  - apply walk_or_normal. apply Forall_map. exact IH.
Qed.

(** ** A simplified form is a fixed point of the simplifier *)

Lemma walk_not_fixed (a : FNode) :
  is_bool_constant a = false -> is_not a = false -> walk_not a = Not a.
Proof. destruct a; simpl; congruence. Qed.

Lemma walk_and_loop_terms (l : list FNode) :
  forall acc,
    Forall (term_of is_and) l -> walk_and_loop l acc = add_terms l acc.
Proof.
  induction l as [|a l IH]; intros acc Hl; simpl; [reflexivity|].
  inversion Hl as [|? ? [Hc Hf] Hl']; subst.
  assert (Ht : is_true a = false)
    by (destruct a as [[|]| | | | | | | | |]; simpl in *; congruence).
  assert (Hfa : is_false a = false)
    by (destruct a as [[|]| | | | | | | | |]; simpl in *; congruence).
  rewrite Ht, Hfa, Hf. simpl.
  destruct (memb (walk_not a) acc); [reflexivity|]. apply IH. exact Hl'.
Qed.

Lemma walk_or_loop_terms (l : list FNode) :
  forall acc,
    Forall (term_of is_or) l -> walk_or_loop l acc = add_terms l acc.
Proof.
  induction l as [|a l IH]; intros acc Hl; simpl; [reflexivity|].
  inversion Hl as [|? ? [Hc Hf] Hl']; subst.
  assert (Ht : is_true a = false)
    by (destruct a as [[|]| | | | | | | | |]; simpl in *; congruence).
  assert (Hfa : is_false a = false)
    by (destruct a as [[|]| | | | | | | | |]; simpl in *; congruence).
  rewrite Ht, Hfa, Hf. simpl.
  destruct (memb (walk_not a) acc); [reflexivity|]. apply IH. exact Hl'.
Qed.

Lemma stable_no_same_pair (l : list FNode) :
  add_terms l [] = Some l -> same_pair l = None.
Proof.
  intros H. destruct (same_pair l) as [a|] eqn:Hp; [|reflexivity].
  apply same_pair_inv in Hp. subst l. exfalso. simpl in H.
  unfold new_args_add in H. simpl in H.
  destruct (memb (walk_not a) [a]); [discriminate|].
  assert (Hm : memb a [a] = true) by (apply memb_In; left; reflexivity).
  rewrite Hm in H. discriminate.
Qed.

Lemma two_terms {A : Type} (l : list A) :
  2 <= List.length l -> exists x y r, l = x :: y :: r.
Proof.
  destruct l as [|x [|y r]]; simpl; intros H; try lia. eauto.
Qed.

Lemma walk_and_fixed (l : list FNode) :
  Forall (term_of is_and) l -> add_terms l [] = Some l ->
  2 <= List.length l -> walk_and l = And l.
Proof.
  intros Ht Hs Hlen. unfold walk_and.
  rewrite (stable_no_same_pair l Hs), (walk_and_loop_terms l [] Ht), Hs.
  destruct (two_terms l Hlen) as [x [y [r ->]]]. reflexivity.
Qed.

Lemma walk_or_fixed (l : list FNode) :
  Forall (term_of is_or) l -> add_terms l [] = Some l ->
  2 <= List.length l -> walk_or l = Or l.
Proof.
  intros Ht Hs Hlen. unfold walk_or.
  rewrite (stable_no_same_pair l Hs), (walk_or_loop_terms l [] Ht), Hs.
  destruct (two_terms l Hlen) as [x [y [r ->]]]. reflexivity.
Qed.

Lemma map_fixed {A : Type} (f : A -> A) (P : A -> Prop) (l : list A) :
  Forall (fun x => P x -> f x = x) l -> Forall P l -> map f l = l.
Proof.
  induction 1 as [|x l Hx _ IH]; intros HP; simpl; [reflexivity|].
  inversion HP; subst. rewrite Hx, IH; auto.
Qed.

Lemma simplify_fixed (e : FNode) : normal e -> simplify e = e.
Proof.
  induction e as [b|f|x IH|l IH|l IH
                  |phi IH|phi IH|phi IH|phi psi IH1 IH2|phi psi IH1 IH2]
    using FNode_nested_ind;
    intros Hn; inversion Hn; subst; simpl; try reflexivity.
  - rewrite IH by assumption. apply walk_not_fixed; assumption.
  - rewrite (map_fixed simplify normal l IH) by assumption.
    apply walk_and_fixed; assumption.
  - rewrite (map_fixed simplify normal l IH) by assumption.
    apply walk_or_fixed; assumption.
  - rewrite IH by assumption. reflexivity.
  - rewrite IH by assumption. reflexivity.
  - rewrite IH by assumption. reflexivity.
  - rewrite IH1, IH2 by assumption. reflexivity.
  - rewrite IH1, IH2 by assumption. reflexivity.
Qed.

Lemma simplify_idempotent (e : FNode) : simplify (simplify e) = simplify e.
Proof. apply simplify_fixed, simplify_normal. Qed.

(** A conjunction or disjunction of the one simplified term is that term. *)
Lemma walk_and_single (y : FNode) : normal y -> walk_and [y] = y.
Proof.
  intros Hn. unfold walk_and. simpl.
  destruct y as [[|]| | |l| | | | | |]; try reflexivity.
  inversion Hn as [| | |? _ _ Hs Hlen| | | | | |]; subst. simpl. rewrite Hs.
  destruct (two_terms l Hlen) as [x [y [r ->]]]. reflexivity.
Qed.

Lemma walk_or_single (y : FNode) : normal y -> walk_or [y] = y.
Proof.
  intros Hn. unfold walk_or. simpl.
  destruct y as [[|]| | | |l| | | | |]; try reflexivity.
  inversion Hn as [| | | |? _ _ Hs Hlen| | | | |]; subst. simpl. rewrite Hs.
  destruct (two_terms l Hlen) as [x [y [r ->]]]. reflexivity.
Qed.

Lemma simplify_em_And (l : list FNode) :
  simplify (em_And l) = walk_and (map simplify l).
Proof.
  destruct l as [|x [|y l]]; try reflexivity.
  simpl. symmetry. apply walk_and_single, simplify_normal.
Qed.

Lemma simplify_em_Or (l : list FNode) :
  simplify (em_Or l) = walk_or (map simplify l).
Proof.
  destruct l as [|x [|y l]]; try reflexivity.
  simpl. symmetry. apply walk_or_single, simplify_normal.
Qed.

(** ** Regression through an action that does not touch the formula *)

Lemma gamma_loop_untouched (lit : FNode) (effs : list Effect) :
  (forall eff, In eff effs -> asserted eff <> lit) ->
  forall disj,
    _gamma_loop lit effs disj =
    match disj with
    | [] => PyBool false
    | _ => PyNode (em_Or disj)
    end.
Proof.
  induction effs as [|eff effs IH]; intros H disj; simpl; [reflexivity|].
  destruct (FNode_eq_dec lit _) as [Heq|_].
  - exfalso. apply (H eff); [left; reflexivity|]. symmetry. exact Heq.
  - apply IH. intros eff' Hin. apply H. right. exact Hin.
Qed.

Lemma gamma_atom_untouched (a : InstantaneousAction) (f : string) :
  untouched a (FluentExp f) -> _gamma (FluentExp f) a = PyBool false.
Proof.
  intros Hu. unfold _gamma. apply gamma_loop_untouched.
  intros eff Hin. specialize (Hu eff Hin). simpl in Hu. unfold asserted.
  destruct (is_false (value eff)); unfold em_Not; [discriminate|].
  intros H. apply Hu. left. symmetry. exact H.
Qed.

Lemma gamma_negated_atom_untouched (a : InstantaneousAction) (f : string) :
  grounded_effects a -> untouched a (FluentExp f) ->
  _gamma (em_Not (FluentExp f)) a = PyBool false.
Proof.
  intros Hg Hu. unfold _gamma. apply gamma_loop_untouched.
  intros eff Hin. specialize (Hu eff Hin). simpl in Hu.
  unfold grounded_effects in Hg. rewrite Forall_forall in Hg.
  specialize (Hg eff Hin). unfold asserted.
  destruct (is_false (value eff)); unfold em_Not.
  - intros H. inversion H as [H']. apply Hu. left. symmetry. exact H'.
  - intros H. rewrite H in Hg. discriminate.
Qed.

Lemma simplify_untouched_atom (f : string) :
  simplify (em_Or [auto_promote (PyBool false);
                   em_And [FluentExp f;
                           em_Not (auto_promote (PyBool false))]])
  = FluentExp f.
Proof. reflexivity. Qed.

Lemma untouched_In (a : InstantaneousAction) (l : list FNode) (x : FNode) :
  (untouched a (And l) \/ untouched a (Or l)) -> In x l -> untouched a x.
Proof.
  intros Hu Hin eff Heff Hf.
  assert (Hflat : In (fluent eff) (flat_map fluents_of l))
    by (apply in_flat_map; eauto).
  destruct Hu as [Hu|Hu]; apply (Hu eff Heff); exact Hflat.
Qed.

Lemma mapM_regression_simplify (a : InstantaneousAction) (l : list FNode) :
  Forall (fun x => exists r, _regression x a = OK r /\
                             simplify r = simplify x) l ->
  exists rs,
    mapM (fun component => _regression component a) l = OK rs /\
    map simplify rs = map simplify l.
Proof.
  induction 1 as [|x l [r [Hr Hs]] _ [rs [Hrs Hmap]]]; simpl.
  - exists []. auto.
  - rewrite Hr. simpl. rewrite Hrs. simpl. exists (r :: rs). simpl.
    rewrite Hs, Hmap. auto.
Qed.

Lemma regression_untouched (a : InstantaneousAction) :
  grounded_effects a ->
  forall psi,
    propositional psi = true -> untouched a psi ->
    exists r, _regression psi a = OK r /\ simplify r = simplify psi.
Proof.
  intros Hg psi.
  induction psi as [b|f|x IH|l IH|l IH| | | | |] using FNode_nested_ind;
    simpl; intros Hp Hu; try discriminate.
  - eauto.
  - eexists. split; [reflexivity|].
    unfold _gamma_substitution.
    rewrite (gamma_atom_untouched a f Hu).
    rewrite (gamma_negated_atom_untouched a f Hg Hu).
    apply simplify_untouched_atom.
  - destruct (IH Hp Hu) as [r [Hr Hs]]. rewrite Hr. simpl.
    eexists. split; [reflexivity|]. simpl. rewrite Hs. reflexivity.
  - rewrite forallb_forall in Hp.
    destruct (mapM_regression_simplify a l) as [rs [Hrs Hmap]].
    { rewrite Forall_forall in *. intros x Hx.
      apply IH; auto. apply (untouched_In a l x); auto. }
    rewrite Hrs. simpl. eexists. split; [reflexivity|].
    rewrite simplify_em_And, Hmap. reflexivity.
  - rewrite forallb_forall in Hp.
    destruct (mapM_regression_simplify a l) as [rs [Hrs Hmap]].
    { rewrite Forall_forall in *. intros x Hx.
      apply IH; auto. apply (untouched_In a l x); auto. }
    rewrite Hrs. simpl. eexists. split; [reflexivity|].
    rewrite simplify_em_Or, Hmap. reflexivity.
Qed.

(** ** Relevant constraints *)

Lemma relevancy_add_sound (rd : dict (list FNode)) (c atom : FNode) :
  relevancy_sound rd -> In atom (fluents_of c) ->
  relevancy_sound (relevancy_add rd c atom).
Proof.
  intros Hrd Hatom atom' l c' Hget Hin. unfold relevancy_add in Hget.
  destruct (FNode_eq_dec atom' atom) as [->|Hne].
  - destruct (dict_get rd atom) as [old|] eqn:Hold;
      rewrite dict_get_set_same in Hget; inversion Hget; subst l.
    + apply in_app_or in Hin. destruct Hin as [Hin|[<-|[]]]; eauto.
    + destruct Hin as [<-|[]]. exact Hatom.
  - destruct (dict_get rd atom);
      rewrite dict_get_set_other in Hget by exact Hne; eauto.
Qed.

Lemma build_relevancy_dict_sound (C : list FNode) :
  relevancy_sound (_build_relevancy_dict C).
Proof.
  unfold _build_relevancy_dict.
  assert (H : forall rd, relevancy_sound rd ->
            relevancy_sound
              (fold_left
                 (fun rd c =>
                    fold_left (fun rd' atom => relevancy_add rd' c atom)
                              (free_vars c) rd) C rd)).
  { induction C as [|c C IH]; intros rd Hrd; simpl; [exact Hrd|].
    apply IH.
    assert (Hin : forall atoms rd0,
               (forall x, In x atoms -> In x (fluents_of c)) ->
               relevancy_sound rd0 ->
               relevancy_sound
                 (fold_left (fun rd' atom => relevancy_add rd' c atom)
                            atoms rd0)).
    { induction atoms as [|x atoms IHa]; intros rd0 Hx Hrd0; simpl;
        [exact Hrd0|].
      apply IHa; [intros y Hy; apply Hx; right; exact Hy|].
      apply relevancy_add_sound; [exact Hrd0|]. apply Hx. left. reflexivity. }
    apply Hin; [|exact Hrd].
    intros x Hx. unfold free_vars in Hx. apply nodup_In in Hx. exact Hx. }
  apply H. intros atom l c Hget. discriminate.
Qed.

Lemma append_new_fold_In (constr : list FNode) (c : FNode) :
  forall rel,
    In c (fold_left append_new constr rel) -> In c rel \/ In c constr.
Proof.
  induction constr as [|x constr IH]; intros rel; simpl; [auto|].
  intros H. destruct (IH _ H) as [Hrel|Hin]; [|auto].
  unfold append_new in Hrel. destruct (memb x rel); [auto|].
  apply in_app_or in Hrel. destruct Hrel as [Hrel|[<-|[]]]; auto.
Qed.

Lemma relevant_constraints_touched (a : InstantaneousAction)
    (rd : dict (list FNode)) (c : FNode) :
  relevancy_sound rd ->
  In c (_get_relevant_constraints a rd) ->
  exists eff, In eff (effects a) /\ In (fluent eff) (fluents_of c).
Proof.
  intros Hrd. unfold _get_relevant_constraints.
  assert (H : forall effs rel,
             In c (fold_left
                     (fun relevant_constrains eff =>
                        fold_left append_new
                          match dict_get rd (fluent eff) with
                          | Some l => l
                          | None => []
                          end relevant_constrains) effs rel) ->
             In c rel \/
             exists eff, In eff effs /\ In (fluent eff) (fluents_of c)).
  { induction effs as [|eff effs IH]; intros rel; simpl; [auto|].
    intros Hin. destruct (IH _ Hin) as [Hrel|[eff' [He Hf]]].
    - apply append_new_fold_In in Hrel. destruct Hrel as [Hrel|Hl]; [auto|].
      right. exists eff. split; [auto|].
      destruct (dict_get rd (fluent eff)) as [l|] eqn:Hget; [|destruct Hl].
      eapply Hrd; eauto.
    - right. eauto. }
  intros Hin. destruct (H _ _ Hin) as [[]|Hex]. exact Hex.
Qed.

(** ** Constraints an action does not touch *)

Lemma build_constraint_list_normal (cs : list FNode) (c : FNode) :
  In c (_build_constraint_list cs) -> normal c.
Proof.
  unfold _build_constraint_list.
  set (C_temp := simplify (em_And cs)).
  set (C_list := if is_and C_temp then args C_temp else [C_temp]).
  pose proof (simplify_normal (em_And (_remove_quantifier C_list))) as Hn.
  destruct (simplify (em_And (_remove_quantifier C_list))) as
    [b|f|x|l|l|phi|phi|phi|phi psi|phi psi]; simpl;
    try (intros [<-|[]]; exact Hn).
  inversion Hn as [| | |? Hl _ _ _| | | | | |]; subst.
  rewrite Forall_forall in Hl. auto.
Qed.

Lemma regression_keeps (a : InstantaneousAction) (phi : FNode) :
  grounded_effects a -> normal phi -> propositional phi = true ->
  untouched a phi ->
  exists r, _regression phi a = OK r /\ simplify r = phi.
Proof.
  intros Hg Hn Hp Hu.
  destruct (regression_untouched a Hg phi Hp Hu) as [r [Hr Hs]].
  exists r. split; [exact Hr|]. rewrite Hs. apply simplify_fixed. exact Hn.
Qed.

Lemma untouched_app (a : InstantaneousAction) (phi psi c : FNode) :
  fluents_of c = fluents_of phi ++ fluents_of psi ->
  untouched a c -> untouched a phi /\ untouched a psi.
Proof.
  intros Hc Hu. split; intros eff Heff Hf; apply (Hu eff Heff);
    rewrite Hc; apply in_or_app; auto.
Qed.

Lemma compile_constraint_untouched (monitors : dict FNode)
    (a : InstantaneousAction) (E : list Effect) (c : FNode) :
  grounded_effects a -> normal c -> is_constraint c = true ->
  Forall (fun x => propositional x = true) (args c) ->
  untouched a c ->
  (is_always c = false -> exists m, dict_get monitors c = Some m) ->
  compile_constraint monitors (a, E) c = OK (a, E).
Proof.
  intros Hg Hn Hk Hp Hu Hm.
  destruct c as [b|f|x|l|l|phi|phi|phi|phi psi|phi psi];
    try discriminate; inversion Hn; subst; simpl in Hp;
    unfold compile_constraint.
  - inversion Hp as [|? ? Hphi _]; subst.
    destruct (regression_keeps a phi Hg) as [r [Hr Hs]]; auto.
    unfold _manage_always_compilation. rewrite Hr. simpl. rewrite Hs.
    destruct (FNode_eq_dec phi phi); [reflexivity|congruence].
  - inversion Hp as [|? ? Hphi _]; subst.
    destruct (Hm eq_refl) as [m Hd]. unfold dict_item. rewrite Hd. simpl.
    destruct (regression_keeps a phi Hg) as [r [Hr Hs]]; auto.
    unfold _manage_sometime_compilation. rewrite Hr. simpl. rewrite Hs.
    destruct (FNode_eq_dec phi phi); [reflexivity|congruence].
  - inversion Hp as [|? ? Hphi _]; subst.
    destruct (Hm eq_refl) as [m Hd]. unfold dict_item. rewrite Hd. simpl.
    destruct (regression_keeps a phi Hg) as [r [Hr Hs]]; auto.
    unfold _manage_amo_compilation. rewrite Hr. simpl. rewrite Hs.
    destruct (FNode_eq_dec phi phi); [reflexivity|congruence].
  - inversion Hp as [|? ? Hphi Hp']; subst.
    inversion Hp' as [|? ? Hpsi _]; subst.
    destruct (untouched_app a phi psi (SometimeBefore phi psi) eq_refl Hu)
      as [Hu1 Hu2].
    destruct (Hm eq_refl) as [m Hd]. unfold dict_item. rewrite Hd. simpl.
    destruct (regression_keeps a phi Hg) as [r1 [Hr1 Hs1]]; auto.
    destruct (regression_keeps a psi Hg) as [r2 [Hr2 Hs2]]; auto.
    unfold _manage_sb_compilation. rewrite Hr1. simpl. rewrite Hr2. simpl.
    rewrite Hs1, Hs2.
    destruct (FNode_eq_dec phi phi); [|congruence].
    destruct (FNode_eq_dec psi psi); [reflexivity|congruence].
  - inversion Hp as [|? ? Hphi Hp']; subst.
    inversion Hp' as [|? ? Hpsi _]; subst.
    destruct (untouched_app a phi psi (SometimeAfter phi psi) eq_refl Hu)
      as [Hu1 Hu2].
    destruct (Hm eq_refl) as [m Hd]. unfold dict_item. rewrite Hd. simpl.
    destruct (regression_keeps a phi Hg) as [r1 [Hr1 Hs1]]; auto.
    destruct (regression_keeps a psi Hg) as [r2 [Hr2 Hs2]]; auto.
    unfold _manage_sa_compilation. rewrite Hr1. simpl. rewrite Hr2. simpl.
    rewrite Hs1, Hs2, !FNode_eqb_refl. reflexivity.
Qed.

(** C6: let a be a grounded action.  For every formula psi built from
    constants, fluent atoms, negation, conjunction and disjunction, no fluent
    of which is written by an effect of a, the regression of psi through a
    returns a formula r with simplify r = simplify psi.  Consequently a
    constraint none of whose fluents a writes is not among the constraints
    relevant to a, and the rewriting step for such a constraint of the
    normalised list, were it run, leaves the action and the pending effects
    as they are: it emits no precondition and no conditional effect. *)
Theorem regression_fixed_point :
  forall a : InstantaneousAction,
    grounded_effects a ->
    (forall psi,
        propositional psi = true -> untouched a psi ->
        exists r, _regression psi a = OK r /\ simplify r = simplify psi) /\
    (forall C c,
        untouched a c ->
        ~ In c (_get_relevant_constraints a (_build_relevancy_dict C))) /\
    (forall cs monitors E c,
        In c (_build_constraint_list cs) ->
        is_constraint c = true ->
        Forall (fun x => propositional x = true) (args c) ->
        untouched a c ->
        (is_always c = false -> exists m, dict_get monitors c = Some m) ->
        compile_constraint monitors (a, E) c = OK (a, E)).
Proof.
  intros a Hg. split; [|split].
  - apply regression_untouched. exact Hg.
  - intros C c Hu Hin.
    destruct (relevant_constraints_touched a _ c
                (build_relevancy_dict_sound C) Hin) as [eff [He Hf]].
    exact (Hu eff He Hf).
  - intros cs monitors E c Hin Hk Hp Hu Hm.
    apply compile_constraint_untouched; auto.
    apply (build_constraint_list_normal cs). exact Hin.
Qed.

Lemma regression_fixed_point_witness :
  (exists r,
      _regression (And [atom_p; Not atom_q]) (set_true "reach" atom_g) = OK r /\
      simplify r = simplify (And [atom_p; Not atom_q])) /\
  ~ In (SometimeBefore atom_p atom_q)
       (_get_relevant_constraints (set_true "reach" atom_g)
          (_build_relevancy_dict
             [SometimeBefore atom_p atom_q; Sometime atom_g])) /\
  compile_constraint [(SometimeBefore atom_p atom_q, FluentExp "seen-psi-0")]
                     (set_true "reach" atom_g, [])
                     (SometimeBefore atom_p atom_q)
    = OK (set_true "reach" atom_g, []).
Proof.
  assert (Hg : grounded_effects (set_true "reach" atom_g))
    by (repeat constructor).
  assert (Hu : forall c,
             ~ In atom_g (fluents_of c) ->
             untouched (set_true "reach" atom_g) c).
  { intros c Hc eff [<-|[]]. exact Hc. }
  destruct (regression_fixed_point (set_true "reach" atom_g) Hg)
    as [H1 [H2 H3]].
  split; [|split].
  - apply H1; [reflexivity|]. apply Hu. simpl.
    intros [H|[H|[]]]; discriminate H.
  - apply H2. apply Hu. simpl. intros [H|[H|[]]]; discriminate H.
  - apply (H3 [SometimeBefore atom_p atom_q; Sometime atom_g]).
    + left. reflexivity.
    + reflexivity.
    + repeat constructor.
    + apply Hu. simpl. intros [H|[H|[]]]; discriminate H.
    + intros _. eexists. reflexivity.
Defined.

(** ** The at-most-once rewriting, with its guards *)

Lemma effects_eta (a : InstantaneousAction) :
  mkAction (action_name a) (preconditions a) (effects a ++ []) = a.
Proof. destruct a. simpl. rewrite app_nil_r. reflexivity. Qed.

(** C5, amended: for at-most-once(phi) with monitor m and an action a, let
    R be the simplified regression of phi through a.  If R is phi, the
    action is left unchanged by this constraint.  Otherwise the action gains
    the precondition rho = simplify(not R or not m or phi), with the
    unregressed phi as last disjunct, unless rho is the constant true, and
    the conditional effect (condition R, m := true) unless R is the constant
    false.  This is what one step of the loop over the relevant constraints
    does to the action and to the pending effects, and what the whole loop
    does to an action whose only relevant constraint is this one. *)
Theorem amo_rewrite_guarded :
  forall (monitors : dict FNode) (a : InstantaneousAction)
         (phi : FNode) (n : string),
    propositional phi = true ->
    dict_get monitors (AtMostOnce phi) = Some (FluentExp n) ->
    exists r,
      _regression phi a = OK r /\
      let R := simplify r in
      let rho := simplify (em_Or [em_Not R; em_Not (FluentExp n); phi]) in
      let new_preconditions := if is_true rho then [] else [rho] in
      let new_effects :=
        if is_false R then [] else [mkEffect R (FluentExp n) TRUE] in
      (forall E,
          compile_constraint monitors (a, E) (AtMostOnce phi) =
          OK (if FNode_eqb R phi then (a, E)
              else (mkAction (action_name a)
                             (preconditions a ++ new_preconditions)
                             (effects a),
                    E ++ new_effects))) /\
      (forall relevancy_dict,
          _get_relevant_constraints a relevancy_dict = [AtMostOnce phi] ->
          compile_action monitors relevancy_dict a =
          OK (if FNode_eqb R phi then a
              else mkAction (action_name a)
                            (preconditions a ++ new_preconditions)
                            (effects a ++ new_effects))).
Proof.
  intros monitors a phi n Hp Hm.
  destruct (regression_total a phi Hp) as [r Hr].
  exists r. split; [exact Hr|]. cbv zeta.
  assert (Hstep : forall E,
             compile_constraint monitors (a, E) (AtMostOnce phi) =
             OK (if FNode_eqb (simplify r) phi then (a, E)
                 else (mkAction (action_name a)
                         (preconditions a
                            ++ (if is_true
                                     (simplify
                                        (em_Or [em_Not (simplify r);
                                                em_Not (FluentExp n); phi]))
                                then []
                                else [simplify
                                        (em_Or [em_Not (simplify r);
                                                em_Not (FluentExp n); phi])]))
                         (effects a),
                       E ++ (if is_false (simplify r) then []
                             else [mkEffect (simplify r) (FluentExp n)
                                            TRUE])))).
  { intros E. unfold compile_constraint, dict_item. rewrite Hm. simpl.
    unfold _manage_amo_compilation. rewrite Hr. simpl.
    unfold FNode_eqb.
    destruct (FNode_eq_dec (simplify r) phi) as [Heq|Hne]; simpl.
    - reflexivity.
    - unfold _add_cond_eff. rewrite simplify_idempotent.
      destruct (is_true _) eqn:Hrho; simpl.
      + rewrite action_eta.
        destruct (is_false (simplify r)); simpl;
          [rewrite app_nil_r|]; reflexivity.
      + destruct (is_false (simplify r)); simpl;
          [rewrite app_nil_r|]; reflexivity. }
  split; [exact Hstep|].
  intros rd Hrel. unfold compile_action. rewrite Hrel. cbn [foldM].
  rewrite Hstep. cbn [bind].
  destruct (FNode_eqb (simplify r) phi); simpl.
  - rewrite effects_eta. reflexivity.
  - reflexivity.
Qed.

Lemma amo_rewrite_guarded_witness :
  compile_action [(AtMostOnce atom_p, FluentExp "seen-phi-0")]
                 (_build_relevancy_dict [AtMostOnce atom_p]) turn_on
  = OK (mkAction "turn_on"
                 [Or [Not (FluentExp "seen-phi-0"); atom_p]]
                 [mkEffect TRUE atom_p TRUE;
                  mkEffect TRUE (FluentExp "seen-phi-0") TRUE]).
Proof.
  destruct (amo_rewrite_guarded
              [(AtMostOnce atom_p, FluentExp "seen-phi-0")]
              turn_on atom_p "seen-phi-0" eq_refl eq_refl)
    as [r [Hr [_ Hloop]]].
  cbv zeta in Hloop.
  rewrite (Hloop (_build_relevancy_dict [AtMostOnce atom_p]) eq_refl).
  vm_compute in Hr. inversion Hr; subst r. reflexivity.
Defined.

(** ** The other rewriting rules, with their guards *)

Lemma add_cond_eff_set (E : list Effect) (x : FNode) (n : string) :
  _add_cond_eff E (simplify x) (FluentExp n) =
  E ++ (if is_false (simplify x) then []
        else [mkEffect (simplify x) (FluentExp n) TRUE]).
Proof.
  unfold _add_cond_eff. rewrite simplify_idempotent.
  destruct (is_false (simplify x)); simpl; [rewrite app_nil_r|]; reflexivity.
Qed.

Lemma add_cond_eff_unset (E : list Effect) (x : FNode) (n : string) :
  _add_cond_eff E (simplify x) (em_Not (FluentExp n)) =
  E ++ (if is_false (simplify x) then []
        else [mkEffect (simplify x) (FluentExp n) FALSE]).
Proof.
  unfold _add_cond_eff. rewrite simplify_idempotent.
  destruct (is_false (simplify x)); simpl; [rewrite app_nil_r|]; reflexivity.
Qed.

Lemma append_precondition_guarded (a : InstantaneousAction) (x : FNode) :
  append_precondition a (Some x, true) =
  OK (mkAction (action_name a)
               (preconditions a ++ (if is_true x then [] else [x]))
               (effects a)).
Proof.
  unfold append_precondition.
  destruct (is_true x); simpl; [rewrite action_eta|]; reflexivity.
Qed.

(** The rule for always(phi) (section 4.6): nothing when the simplified
    regression R is phi; otherwise the precondition R, unless R is the
    constant true; never an effect. *)
Theorem always_rewrite_guarded :
  forall (monitors : dict FNode) (a : InstantaneousAction) (E : list Effect)
         (phi : FNode),
    propositional phi = true ->
    exists r,
      _regression phi a = OK r /\
      compile_constraint monitors (a, E) (Always phi) =
      OK (if FNode_eqb (simplify r) phi then (a, E)
          else (mkAction (action_name a)
                         (preconditions a
                            ++ (if is_true (simplify r) then []
                                else [simplify r]))
                         (effects a),
                E)).
Proof.
  intros monitors a E phi Hp.
  destruct (regression_total a phi Hp) as [r Hr].
  exists r. split; [exact Hr|].
  unfold compile_constraint, _manage_always_compilation. rewrite Hr.
  cbn [bind]. unfold FNode_eqb.
  destruct (FNode_eq_dec (simplify r) phi); cbn [bind]; [reflexivity|].
  rewrite append_precondition_guarded. reflexivity.
Qed.

Lemma always_rewrite_guarded_witness :
  exists r,
    _regression atom_p (set_false "op" atom_p) = OK r /\
    compile_constraint [] (set_false "op" atom_p, []) (Always atom_p) =
    OK (if FNode_eqb (simplify r) atom_p then (set_false "op" atom_p, [])
        else (mkAction (action_name (set_false "op" atom_p))
                (preconditions (set_false "op" atom_p)
                   ++ (if is_true (simplify r) then [] else [simplify r]))
                (effects (set_false "op" atom_p)),
              [])).
Proof.
  apply (always_rewrite_guarded [] (set_false "op" atom_p) [] atom_p).
  reflexivity.
Defined.

(** The rule for sometime(phi) (section 4.6): the effect (condition R,
    m := true) when R differs from phi, unless R is the constant false; no
    precondition. *)
Theorem sometime_rewrite_guarded :
  forall (monitors : dict FNode) (a : InstantaneousAction) (E : list Effect)
         (phi : FNode) (n : string),
    propositional phi = true ->
    dict_get monitors (Sometime phi) = Some (FluentExp n) ->
    exists r,
      _regression phi a = OK r /\
      compile_constraint monitors (a, E) (Sometime phi) =
      OK (a,
          if FNode_eqb (simplify r) phi then E
          else E ++ (if is_false (simplify r) then []
                     else [mkEffect (simplify r) (FluentExp n) TRUE])).
Proof.
  intros monitors a E phi n Hp Hm.
  destruct (regression_total a phi Hp) as [r Hr].
  exists r. split; [exact Hr|].
  unfold compile_constraint, dict_item. rewrite Hm. cbn [bind].
  unfold _manage_sometime_compilation. rewrite Hr. cbn [bind].
  unfold FNode_eqb.
  destruct (FNode_eq_dec (simplify r) phi); cbn [bind]; [reflexivity|].
  rewrite add_cond_eff_set. reflexivity.
Qed.

Lemma sometime_rewrite_guarded_witness :
  exists r,
    _regression atom_p turn_on = OK r /\
    compile_constraint [(Sometime atom_p, FluentExp "hold-0")]
                       (turn_on, []) (Sometime atom_p) =
    OK (turn_on,
        if FNode_eqb (simplify r) atom_p then []
        else [] ++ (if is_false (simplify r) then []
                    else [mkEffect (simplify r) (FluentExp "hold-0") TRUE])).
Proof.
  apply (sometime_rewrite_guarded [(Sometime atom_p, FluentExp "hold-0")]
           turn_on [] atom_p "hold-0"); reflexivity.
Defined.

(** The rule for sometime-before(phi, psi) (section 4.6): when R_phi differs
    from phi, the precondition simplify(not R_phi or m), unless it is the
    constant true; when R_psi differs from psi, the effect (condition R_psi,
    m := true), unless R_psi is the constant false. *)
Theorem sometime_before_rewrite_guarded :
  forall (monitors : dict FNode) (a : InstantaneousAction) (E : list Effect)
         (phi psi : FNode) (n : string),
    propositional phi = true -> propositional psi = true ->
    dict_get monitors (SometimeBefore phi psi) = Some (FluentExp n) ->
    exists r_phi r_psi,
      _regression phi a = OK r_phi /\
      _regression psi a = OK r_psi /\
      let R_phi := simplify r_phi in
      let R_psi := simplify r_psi in
      let rho := simplify (em_Or [em_Not R_phi; FluentExp n]) in
      compile_constraint monitors (a, E) (SometimeBefore phi psi) =
      OK ((if FNode_eqb R_phi phi then a
           else mkAction (action_name a)
                         (preconditions a
                            ++ (if is_true rho then [] else [rho]))
                         (effects a)),
          (if FNode_eqb R_psi psi then E
           else E ++ (if is_false R_psi then []
                      else [mkEffect R_psi (FluentExp n) TRUE]))).
Proof.
  intros monitors a E phi psi n Hp1 Hp2 Hm.
  destruct (regression_total a phi Hp1) as [r1 Hr1].
  destruct (regression_total a psi Hp2) as [r2 Hr2].
  exists r1, r2. split; [exact Hr1|]. split; [exact Hr2|]. cbv zeta.
  unfold compile_constraint, dict_item. rewrite Hm. cbn [bind].
  unfold _manage_sb_compilation. rewrite Hr1. cbn [bind]. rewrite Hr2.
  cbn [bind]. unfold FNode_eqb.
  destruct (FNode_eq_dec (simplify r1) phi);
    destruct (FNode_eq_dec (simplify r2) psi); cbn [bind];
    try rewrite append_precondition_guarded;
    try rewrite add_cond_eff_set; reflexivity.
Qed.

Lemma sometime_before_rewrite_guarded_witness :
  exists r_phi r_psi,
    _regression atom_p turn_on = OK r_phi /\
    _regression atom_q turn_on = OK r_psi /\
    compile_constraint [(SometimeBefore atom_p atom_q, FluentExp "seen-psi-0")]
                       (turn_on, []) (SometimeBefore atom_p atom_q) =
    OK ((if FNode_eqb (simplify r_phi) atom_p then turn_on
         else mkAction (action_name turn_on)
                (preconditions turn_on
                   ++ (if is_true
                            (simplify (em_Or [em_Not (simplify r_phi);
                                              FluentExp "seen-psi-0"]))
                       then []
                       else [simplify (em_Or [em_Not (simplify r_phi);
                                              FluentExp "seen-psi-0"])]))
                (effects turn_on)),
        (if FNode_eqb (simplify r_psi) atom_q then []
         else [] ++ (if is_false (simplify r_psi) then []
                     else [mkEffect (simplify r_psi)
                                    (FluentExp "seen-psi-0") TRUE]))).
Proof.
  apply (sometime_before_rewrite_guarded
           [(SometimeBefore atom_p atom_q, FluentExp "seen-psi-0")]
           turn_on [] atom_p atom_q "seen-psi-0"); reflexivity.
Defined.

(** The rule for sometime-after(phi, psi) (section 4.6): when R_phi differs
    from phi or R_psi from psi, the effect (condition
    simplify(R_phi and not R_psi), m := false), unless that condition is the
    constant false; then, when R_psi differs from psi, the effect (condition
    R_psi, m := true), unless R_psi is the constant false. *)
Theorem sometime_after_rewrite_guarded :
  forall (monitors : dict FNode) (a : InstantaneousAction) (E : list Effect)
         (phi psi : FNode) (n : string),
    propositional phi = true -> propositional psi = true ->
    dict_get monitors (SometimeAfter phi psi) = Some (FluentExp n) ->
    exists r1 r2,
      _regression phi a = OK r1 /\
      _regression psi a = OK r2 /\
      let R1 := simplify r1 in
      let R2 := simplify r2 in
      let cond := simplify (em_And [R1; em_Not R2]) in
      let unset :=
        if FNode_eqb R1 phi && FNode_eqb R2 psi then []
        else if is_false cond then []
             else [mkEffect cond (FluentExp n) FALSE] in
      let set :=
        if FNode_eqb R2 psi then []
        else if is_false R2 then []
             else [mkEffect R2 (FluentExp n) TRUE] in
      compile_constraint monitors (a, E) (SometimeAfter phi psi) =
      OK (a, E ++ unset ++ set).
Proof.
  intros monitors a E phi psi n Hp1 Hp2 Hm.
  destruct (regression_total a phi Hp1) as [r1 Hr1].
  destruct (regression_total a psi Hp2) as [r2 Hr2].
  exists r1, r2. split; [exact Hr1|]. split; [exact Hr2|]. cbv zeta.
  unfold compile_constraint, dict_item. rewrite Hm. cbn [bind].
  unfold _manage_sa_compilation. rewrite Hr1. cbn [bind]. rewrite Hr2.
  cbn [bind]. unfold FNode_eqb.
  change (em_And [simplify r1; em_Not (simplify r2)])
    with (And [simplify r1; Not (simplify r2)]).
  destruct (FNode_eq_dec phi (simplify r1)) as [H1|H1];
    destruct (FNode_eq_dec (simplify r1) phi) as [H1'|H1'];
    try congruence;
    destruct (FNode_eq_dec psi (simplify r2)) as [H2|H2];
    destruct (FNode_eq_dec (simplify r2) psi) as [H2'|H2'];
    try congruence; cbn [negb orb andb];
    rewrite ?add_cond_eff_unset, ?add_cond_eff_set;
    rewrite ?app_nil_r, ?app_assoc; reflexivity.
Qed.

Lemma sometime_after_rewrite_guarded_witness :
  compile_constraint [(SometimeAfter atom_p atom_q, FluentExp "hold-0")]
                     (turn_on, []) (SometimeAfter atom_p atom_q) =
  OK (turn_on, [mkEffect (Not atom_q) (FluentExp "hold-0") FALSE]).
Proof.
  destruct (sometime_after_rewrite_guarded
              [(SometimeAfter atom_p atom_q, FluentExp "hold-0")]
              turn_on [] atom_p atom_q "hold-0" eq_refl eq_refl eq_refl)
    as [r1 [r2 [Hr1 [Hr2 H]]]].
  cbv zeta in H. rewrite H.
  vm_compute in Hr1. inversion Hr1; subst r1.
  vm_compute in Hr2. inversion Hr2; subst r2.
  reflexivity.
Defined.

(** ** Further properties of the compilation *)

Lemma gamma_loop_spec (literal : FNode) (effs : list Effect) :
  forall disj,
    _gamma_loop literal effs disj =
    if existsb is_true (asserting_conditions literal effs) then PyNode TRUE
    else match disj ++ asserting_conditions literal effs with
         | [] => PyBool false
         | D => PyNode (em_Or D)
         end.
Proof.
  unfold asserting_conditions.
  induction effs as [|eff effs IH]; intros disj; simpl.
  - rewrite app_nil_r. destruct disj; reflexivity.
  - unfold FNode_eqb.
    destruct (FNode_eq_dec literal (asserted eff)); simpl; [|apply IH].
    destruct (is_true (condition eff)); simpl; [reflexivity|].
    rewrite IH, <- app_assoc. reflexivity.
Qed.

(** The formula gamma of section 4.4: with D the conditions of the effects
    of the action that assert the literal, gamma is the constant true when
    some condition of D is the constant true, else the Python bool False
    when D is empty, else the disjunction of D. *)
Theorem gamma_spec :
  forall (literal : FNode) (action : InstantaneousAction),
    let D := asserting_conditions literal (effects action) in
    _gamma literal action =
    if existsb is_true D then PyNode TRUE
    else match D with
         | [] => PyBool false
         | _ => PyNode (em_Or D)
         end.
Proof.
  intros literal action. cbv zeta. unfold _gamma.
  rewrite gamma_loop_spec. simpl.
  destruct (existsb is_true _); [reflexivity|].
  destruct (asserting_conditions literal (effects action)); reflexivity.
Qed.

Lemma mapM_raise_usage (a : InstantaneousAction) (l : list FNode) :
  Forall (fun phi =>
            match _regression phi a with
            | OK _ => propositional phi = true
            | Raise e =>
                propositional phi = false /\
                e = UPUsageError "This compiler cannot handle this expression"
            end) l ->
  match mapM (fun component => _regression component a) l with
  | OK _ => forallb propositional l = true
  | Raise e =>
      forallb propositional l = false /\
      e = UPUsageError "This compiler cannot handle this expression"
  end.
Proof.
  induction 1 as [|x l Hx _ IH]; simpl; [reflexivity|].
  destruct (_regression x a) as [r|e]; simpl.
  - rewrite Hx. simpl.
    destruct (mapM _ l) as [rs|e]; simpl; exact IH.
  - destruct Hx as [Hx He]. rewrite Hx. auto.
Qed.

(** The regression returns exactly on the formulas built from constants,
    fluent atoms, negation, conjunction and disjunction; on any other shape
    it raises the usage error (sections 4.4 and 7). *)
Theorem regression_supported_shapes :
  forall (a : InstantaneousAction) (phi : FNode),
    match _regression phi a with
    | OK _ => propositional phi = true
    | Raise e =>
        propositional phi = false /\
        e = UPUsageError "This compiler cannot handle this expression"
    end.
Proof.
  intros a phi.
  induction phi as [b|f|x IH|l IH|l IH| | | | |] using FNode_nested_ind;
    simpl; auto.
  - destruct (_regression x a); simpl; exact IH.
  - pose proof (mapM_raise_usage a l IH) as H.
    destruct (mapM _ l); simpl; exact H.
  - pose proof (mapM_raise_usage a l IH) as H.
    destruct (mapM _ l); simpl; exact H.
Qed.

(** C3's companion (section 8, P3): when the constraint list holds
    sometime-before(phi, psi) and phi, substituted by the grounded initial
    state and simplified, is the constant true, the compilation raises; the
    error is that of the first failing constraint in list order. *)
Theorem sometime_before_violation_fails :
  forall (d : dict FNode) (P : Problem) (gr : GroundingResult)
         (phi psi : FNode),
    In (SometimeBefore phi psi) (constraints_of gr) ->
    is_true (simplify (substitute phi (init_of gr))) = true ->
    exists e,
      _compile d P gr = Raise e /\
      forall C1 C2,
        constraints_of gr = C1 ++ SometimeBefore phi psi :: C2 ->
        match _get_monitoring_atoms d C1 (init_of gr) with
        | OK _ => e = sometime_before_violated
        | Raise e' => e = e'
        end.
Proof.
  intros d P gr phi psi Hin Htrue.
  assert (Hsplit : forall C1 C2,
             constraints_of gr = C1 ++ SometimeBefore phi psi :: C2 ->
             _get_monitoring_atoms d (constraints_of gr) (init_of gr) =
             match _get_monitoring_atoms d C1 (init_of gr) with
             | OK _ => Raise sometime_before_violated
             | Raise e' => Raise e'
             end).
  { intros C1 C2 HC. rewrite HC. unfold _get_monitoring_atoms.
    rewrite monitor_loop_app.
    destruct (monitor_loop (init_of gr) C1 _) as [st|e']; simpl;
      [|reflexivity].
    rewrite Htrue. reflexivity. }
  destruct (in_split _ _ Hin) as [C1 [C2 HC]].
  destruct (_get_monitoring_atoms d (constraints_of gr) (init_of gr))
    as [ms|e] eqn:Hms.
  - pose proof (Hsplit _ _ HC) as Hs. revert Hs.
    destruct (_get_monitoring_atoms d C1 (init_of gr));
      intros Hs; discriminate Hs.
  - exists e. split; [apply compile_raises_with_monitors; exact Hms|].
    intros C1' C2' HC'.
    pose proof (Hsplit _ _ HC') as Hs. revert Hs.
    destruct (_get_monitoring_atoms d C1' (init_of gr)); congruence.
Qed.

Lemma sometime_before_violation_fails_witness :
  exists e,
    compile problem_two_violations = Raise e /\
    forall C1 C2,
      constraints_of (ground_self problem_two_violations)
        = C1 ++ SometimeBefore atom_p atom_q :: C2 ->
      match _get_monitoring_atoms fresh_dict C1
              (init_of (ground_self problem_two_violations)) with
      | OK _ => e = sometime_before_violated
      | Raise e' => e = e'
      end.
Proof.
  apply (sometime_before_violation_fails fresh_dict problem_two_violations
           (ground_self problem_two_violations) atom_p atom_q).
  - left. reflexivity.
  - reflexivity.
Defined.

(** Section 3, invariants: a compiled problem has no trajectory constraint,
    and the fluents it adds to those of the grounded problem are the
    monitors, all boolean. *)
Theorem compiled_problem_invariants :
  forall (d : dict FNode) (P : Problem) (gr : GroundingResult)
         (res : CompilerResult),
    _compile d P gr = OK res ->
    trajectory_constraints (result_problem res) = [] /\
    exists F_prime,
      fluents (result_problem res) = fluents (grounded_problem gr) ++ F_prime /\
      F_prime = monitor_fluents (monitored (constraints_of gr)) 0 /\
      forall fl, In fl F_prime -> fluent_type fl = BoolType.
Proof.
  intros d P gr res H.
  destruct (compile_ok_inv _ _ _ _ H)
    as [ms [mons [A_prime [tbm [Hms [_ [_ [_ [_ [Hfl Htc]]]]]]]]]].
  split; [exact Htc|].
  unfold _get_monitoring_atoms in Hms.
  destruct (monitor_loop_inv _ _ _ _ Hms) as [_ [Hat _]]. simpl in Hat.
  exists (monitoring_atoms ms). split; [exact Hfl|]. split; [exact Hat|].
  rewrite Hat. apply monitor_fluents_bool.
Qed.

Lemma compiled_problem_invariants_witness :
  exists res,
    compile scenario_S4 = OK res /\
    trajectory_constraints (result_problem res) = [] /\
    fluents (result_problem res) =
      fluents scenario_S4 ++ [bool_fluent "seen-psi-0"].
Proof.
  eexists. split; [reflexivity|].
  destruct (compiled_problem_invariants fresh_dict scenario_S4
              (ground_self scenario_S4) _ eq_refl)
    as [Htc [F [Hfl [HF _]]]].
  split; [exact Htc|]. rewrite Hfl, HF. reflexivity.
Defined.

(** ** The relevancy index, exactly *)

Lemma relevancy_add_get (rd : dict (list FNode)) (c atom k : FNode) :
  dict_get (relevancy_add rd c atom) k =
  if FNode_eqb k atom
  then Some (match dict_get rd atom with
             | Some l => l ++ [c]
             | None => [c]
             end)
  else dict_get rd k.
Proof.
  unfold relevancy_add, FNode_eqb.
  destruct (FNode_eq_dec k atom) as [->|Hne].
  - destruct (dict_get rd atom); apply dict_get_set_same.
  - destruct (dict_get rd atom); apply dict_get_set_other; exact Hne.
Qed.

Lemma relevancy_inner_get (c : FNode) (atoms : list FNode) :
  NoDup atoms ->
  forall rd k,
    dict_get (fold_left (fun rd' atom => relevancy_add rd' c atom) atoms rd) k
    = if memb k atoms
      then Some (match dict_get rd k with
                 | Some l => l ++ [c]
                 | None => [c]
                 end)
      else dict_get rd k.
Proof.
  induction 1 as [|atom atoms Hnin _ IH]; intros rd k; simpl; [reflexivity|].
  rewrite IH, !relevancy_add_get.
  destruct (FNode_eq_dec k atom) as [->|Hne].
  - rewrite FNode_eqb_refl.
    assert (H1 : memb atom atoms = false) by (apply memb_false; exact Hnin).
    assert (H2 : memb atom (atom :: atoms) = true)
      by (apply memb_In; left; reflexivity).
    rewrite H1, H2. reflexivity.
  - assert (Hk : FNode_eqb k atom = false).
    { destruct (FNode_eqb k atom) eqn:E; [|reflexivity].
      apply FNode_eqb_eq in E. congruence. }
    assert (Hm : memb k (atom :: atoms) = memb k atoms).
    { destruct (memb k atoms) eqn:E.
      - apply memb_In. right. apply memb_In. exact E.
      - apply memb_false. apply memb_false in E.
        intros [H|H]; [congruence|tauto]. }
    rewrite Hk, Hm. reflexivity.
Qed.

Lemma entry_of_snoc (l : list FNode) (c : FNode) :
  Some (match entry_of l with
        | Some l' => l' ++ [c]
        | None => [c]
        end) = entry_of (l ++ [c]).
Proof. destruct l as [|x l]; simpl; [reflexivity|]. reflexivity. Qed.

Lemma relevancy_fold_get (C : list FNode) :
  forall (rd : dict (list FNode)) (L : FNode -> list FNode),
    (forall k, dict_get rd k = entry_of (L k)) ->
    forall k,
      dict_get
        (fold_left
           (fun rd c =>
              fold_left (fun rd' atom => relevancy_add rd' c atom)
                        (free_vars c) rd) C rd) k
      = entry_of (L k ++ mentioning k C).
Proof.
  induction C as [|c C IH]; intros rd L HL k; simpl.
  - rewrite app_nil_r. apply HL.
  - rewrite (IH _ (fun k => L k ++ (if memb k (free_vars c) then [c] else []))).
    + destruct (memb k (free_vars c)); simpl;
        rewrite <- app_assoc; reflexivity.
    + intros k'. rewrite relevancy_inner_get by apply NoDup_nodup.
      rewrite HL.
      destruct (memb k' (free_vars c)).
      * apply entry_of_snoc.
      * rewrite app_nil_r. reflexivity.
Qed.

Lemma build_relevancy_dict_get (C : list FNode) (k : FNode) :
  dict_get (_build_relevancy_dict C) k = entry_of (mentioning k C).
Proof.
  unfold _build_relevancy_dict.
  apply (relevancy_fold_get C [] (fun _ => [])). reflexivity.
Qed.

Lemma append_new_fold_complete (constr : list FNode) (c : FNode) :
  forall rel,
    In c rel \/ In c constr -> In c (fold_left append_new constr rel).
Proof.
  induction constr as [|x constr IH]; intros rel; simpl; [tauto|].
  intros H. apply IH. unfold append_new.
  destruct (memb x rel) eqn:Hm.
  - destruct H as [H|[<-|H]]; auto. left. apply memb_In. exact Hm.
  - destruct H as [H|[<-|H]]; auto; left; apply in_or_app; simpl; auto.
Qed.

Lemma append_new_fold_NoDup (constr : list FNode) :
  forall rel, NoDup rel -> NoDup (fold_left append_new constr rel).
Proof.
  induction constr as [|x constr IH]; intros rel Hrel; simpl; [exact Hrel|].
  apply IH. unfold append_new. destruct (memb x rel) eqn:Hm; [exact Hrel|].
  apply memb_false in Hm.
  apply NoDup_app; [exact Hrel|repeat constructor; tauto|].
  intros y Hy [<-|[]]. tauto.
Qed.

Lemma entry_list (l : list FNode) :
  match entry_of l with
  | Some l' => l'
  | None => []
  end = l.
Proof. destruct l; reflexivity. Qed.

(** Section 4.3: the index lists under each fluent the constraints that
    mention it, in list order; the constraints relevant to an action are
    those of the list with a fluent written by an effect of the action, each
    once. *)
Theorem relevant_constraints_exact :
  forall (C : list FNode) (a : InstantaneousAction),
    (forall atom,
        dict_get (_build_relevancy_dict C) atom =
        entry_of (mentioning atom C)) /\
    (forall c,
        In c (_get_relevant_constraints a (_build_relevancy_dict C)) <->
        In c C /\
        exists eff, In eff (effects a) /\ In (fluent eff) (fluents_of c)) /\
    NoDup (_get_relevant_constraints a (_build_relevancy_dict C)).
Proof.
  intros C a. split; [apply build_relevancy_dict_get|].
  unfold _get_relevant_constraints.
  assert (Hfold : forall effs rel,
             (forall c,
                 In c (fold_left
                         (fun relevant_constrains eff =>
                            fold_left append_new
                              match dict_get (_build_relevancy_dict C)
                                             (fluent eff) with
                              | Some l => l
                              | None => []
                              end relevant_constrains) effs rel) <->
                 In c rel \/
                 exists eff, In eff effs /\
                             In c (mentioning (fluent eff) C)) /\
             (NoDup rel ->
              NoDup (fold_left
                       (fun relevant_constrains eff =>
                          fold_left append_new
                            match dict_get (_build_relevancy_dict C)
                                           (fluent eff) with
                            | Some l => l
                            | None => []
                            end relevant_constrains) effs rel))).
  { induction effs as [|eff effs IH]; intros rel; simpl.
    - split; [|auto]. intros c. split; [auto|].
      intros [H|[eff [[] _]]]. exact H.
    - rewrite build_relevancy_dict_get, entry_list.
      destruct (IH (fold_left append_new (mentioning (fluent eff) C) rel))
        as [IH1 IH2].
      split.
      + intros c. rewrite IH1. split.
        * intros [H|[eff' [He Hc]]].
          -- apply append_new_fold_In in H. destruct H; eauto.
          -- eauto.
        * intros [H|[eff' [[<-|He] Hc]]].
          -- left. apply append_new_fold_complete. auto.
          -- left. apply append_new_fold_complete. auto.
          -- eauto.
      + intros Hrel. apply IH2. apply append_new_fold_NoDup. exact Hrel. }
  destruct (Hfold (effects a) []) as [H1 H2].
  split; [|apply H2; constructor].
  intros c. rewrite H1. unfold mentioning. split.
  - intros [[]|[eff [He Hc]]]. apply filter_In in Hc.
    destruct Hc as [Hin Hm]. apply memb_In in Hm.
    unfold free_vars in Hm. apply nodup_In in Hm. eauto.
  - intros [Hin [eff [He Hf]]]. right. exists eff. split; [exact He|].
    apply filter_In. split; [exact Hin|]. apply memb_In.
    unfold free_vars. apply nodup_In. exact Hf.
Qed.

(** ** The normalised constraint list *)



(** ** The atoms of a condition *)

Lemma get_all_atoms_sound (condition : FNode) :
  forall x, In x (_get_all_atoms condition) ->
            is_fluent_exp x = true /\ In x (fluents_of condition).
Proof.
  induction condition as [b|f|y IH|l IH|l IH| | | | |]
    using FNode_nested_ind; simpl; intros x Hx; try contradiction.
  - destruct Hx as [<-|[]]. auto.
  - auto.
  - apply in_flat_map in Hx. destruct Hx as [y [Hy Hx]].
    rewrite Forall_forall in IH. destruct (IH y Hy x Hx) as [Hf Hin].
    split; [exact Hf|]. apply in_flat_map. eauto.
  - apply in_flat_map in Hx. destruct Hx as [y [Hy Hx]].
    rewrite Forall_forall in IH. destruct (IH y Hy x Hx) as [Hf Hin].
    split; [exact Hf|]. apply in_flat_map. eauto.
Qed.

Lemma flat_map_ext_Forall {A B : Type} (f g : A -> list B) (l : list A) :
  Forall (fun x => f x = g x) l -> flat_map f l = flat_map g l.
Proof.
  induction 1 as [|x l Hx _ IH]; simpl; [reflexivity|]. rewrite Hx, IH.
  reflexivity.
Qed.

Lemma get_all_atoms_propositional (condition : FNode) :
  propositional condition = true ->
  _get_all_atoms condition = fluents_of condition.
Proof.
  induction condition as [b|f|y IH|l IH|l IH| | | | |]
    using FNode_nested_ind; simpl; intros Hp; try discriminate;
    try reflexivity.
  - auto.
  - rewrite forallb_forall in Hp. apply flat_map_ext_Forall.
    rewrite Forall_forall in *. auto.
  - rewrite forallb_forall in Hp. apply flat_map_ext_Forall.
    rewrite Forall_forall in *. auto.
Qed.

(** [_get_all_atoms] returns fluent expressions only, all of them occurring
    in the condition; on a formula built from constants, fluent atoms,
    negation, conjunction and disjunction it returns every occurrence, in
    order; it returns nothing for a trajectory constraint, whose arguments
    it does not enter. *)
Theorem get_all_atoms_spec :
  forall condition : FNode,
    (forall x, In x (_get_all_atoms condition) ->
               is_fluent_exp x = true /\ In x (fluents_of condition)) /\
    (propositional condition = true ->
     _get_all_atoms condition = fluents_of condition) /\
    (is_constraint condition = true -> _get_all_atoms condition = []).
Proof.
  intros condition. split; [apply get_all_atoms_sound|].
  split; [apply get_all_atoms_propositional|].
  destruct condition; simpl; intros H; try discriminate; reflexivity.
Qed.

Lemma get_all_atoms_spec_witness :
  _get_all_atoms (And [atom_p; Not atom_q; Or [atom_p; TRUE]])
    = [atom_p; atom_q; atom_p] /\
  _get_all_atoms (SometimeBefore atom_p atom_q) = [].
Proof.
  destruct (get_all_atoms_spec (And [atom_p; Not atom_q; Or [atom_p; TRUE]]))
    as [_ [H _]].
  destruct (get_all_atoms_spec (SometimeBefore atom_p atom_q)) as [_ [_ H']].
  split; [rewrite H; reflexivity|apply H'; reflexivity].
Defined.

(** ** The monitors that start true *)

Lemma monitor_step_initial (I : dict FNode) (c : FNode)
    (st st' : MonitorState) :
  is_always c = false -> monitor_step I c st = OK st' ->
  initial_state_prime st' =
    initial_state_prime st
      ++ initial_true_atoms I [c] (monitoring_atoms_counter st).
Proof.
  intros Ha. unfold monitor_step.
  destruct c; try discriminate; simpl; unfold args_at; simpl;
    try discriminate.
  - intros H. inversion H. simpl.
    destruct (is_true _); rewrite ?app_nil_r; reflexivity.
  - destruct l; simpl; [discriminate|]. intros H. inversion H. simpl.
    destruct (is_true _); rewrite ?app_nil_r; reflexivity.
  - destruct l; simpl; [discriminate|]. intros H. inversion H. simpl.
    destruct (is_true _); rewrite ?app_nil_r; reflexivity.
  - intros H. inversion H. simpl.
    destruct (is_true _); rewrite ?app_nil_r; reflexivity.
  - intros H. inversion H. simpl.
    destruct (is_true _); rewrite ?app_nil_r; reflexivity.
  - destruct (is_true (simplify (substitute c1 I))); simpl; [discriminate|].
    intros H. inversion H. simpl.
    destruct (is_true _); rewrite ?app_nil_r; reflexivity.
  - intros H. inversion H. simpl.
    destruct (is_true _); rewrite ?app_nil_r; reflexivity.
Qed.

Lemma monitor_loop_initial (I : dict FNode) (C : list FNode) :
  forall st st',
    monitor_loop I C st = OK st' ->
    initial_state_prime st' =
      initial_state_prime st
        ++ initial_true_atoms I (monitored C) (monitoring_atoms_counter st).
Proof.
  induction C as [|c0 C IH]; intros st st'; simpl.
  - intros H. inversion H. rewrite app_nil_r. reflexivity.
  - destruct (monitor_step I c0 st) as [st1|e] eqn:Hstep; simpl;
      [|discriminate].
    intros Hloop. rewrite (IH _ _ Hloop). unfold monitored. simpl.
    destruct (is_always c0) eqn:Ha; simpl.
    + apply (monitor_step_always I c0 st st1 Ha) in Hstep. subst st1.
      reflexivity.
    + destruct (monitor_step_allocates I c0 st st1 Ha Hstep) as [_ [Hn _]].
      rewrite (monitor_step_initial I c0 st st1 Ha Hstep), Hn. simpl.
      rewrite app_nil_r, <- app_assoc. reflexivity.
Qed.

Lemma initial_true_atoms_allocated (I : dict FNode) (l : list FNode) :
  forall n m,
    In m (initial_true_atoms I l n) ->
    exists fl, In fl (monitor_fluents l n) /\ m = FluentExp (fluent_name fl).
Proof.
  induction l as [|c l IH]; intros n m; simpl; [tauto|].
  intros H. apply in_app_or in H. destruct H as [H|H].
  - destruct (watched c) as [x|]; [|destruct H].
    destruct (is_true _); [|destruct H].
    destruct H as [<-|[]]. eexists. split; [left; reflexivity|reflexivity].
  - destruct (IH _ _ H) as [fl [Hfl Hm]]. eauto.
Qed.

(** When the allocator returns, the monitors it has put in the initial-true
    set are, in allocation order, those of the non-always constraints whose
    watched formula (phi for sometime and at-most-once, psi for
    sometime-before and sometime-after), substituted by the grounded initial
    state and simplified, is the constant true; each is the atom of an
    allocated monitor fluent. *)
Theorem initial_true_set_exact :
  forall (d : dict FNode) (C : list FNode) (I : dict FNode)
         (ms : MonitorState),
    _get_monitoring_atoms d C I = OK ms ->
    initial_state_prime ms = initial_true_atoms I (monitored C) 0 /\
    forall m,
      In m (initial_state_prime ms) ->
      exists fl, In fl (monitoring_atoms ms) /\ m = FluentExp (fluent_name fl).
Proof.
  intros d C I ms H. unfold _get_monitoring_atoms in H.
  pose proof (monitor_loop_initial I C _ _ H) as Hi. simpl in Hi.
  destruct (monitor_loop_inv I C _ _ H) as [_ [Hat _]]. simpl in Hat.
  split; [exact Hi|]. intros m Hm. rewrite Hi in Hm. rewrite Hat.
  apply (initial_true_atoms_allocated I _ 0 m Hm).
Qed.

Lemma initial_true_set_exact_witness :
  exists ms,
    _get_monitoring_atoms fresh_dict
      [Sometime (Not atom_q); AtMostOnce atom_p;
       SometimeBefore atom_q atom_p; SometimeAfter atom_q atom_p]
      [(atom_p, TRUE)] = OK ms /\
    initial_state_prime ms =
      [FluentExp "seen-phi-1"; FluentExp "seen-psi-2"; FluentExp "hold-3"].
Proof.
  eexists. split; [reflexivity|].
  destruct (initial_true_set_exact fresh_dict
              [Sometime (Not atom_q); AtMostOnce atom_p;
               SometimeBefore atom_q atom_p; SometimeAfter atom_q atom_p]
              [(atom_p, TRUE)] _ eq_refl) as [H _].
  exact H.
Defined.

(** ** The compiled problem, field by field *)

Lemma compile_ok_result (d : dict FNode) (P : Problem) (gr : GroundingResult)
    (res : CompilerResult) :
  _compile d P gr = OK res ->
  exists ms mons A_prime tbm,
    _get_monitoring_atoms d (constraints_of gr) (init_of gr) = OK ms /\
    mapM (dict_item (_monitoring_atom_dict ms))
         (_get_landmark_constraints (constraints_of gr)) = OK mons /\
    foldM (action_step (map_back_action_instance gr)
                       (_monitoring_atom_dict ms)
                       (_build_relevancy_dict (constraints_of gr)))
          (actions (grounded_problem gr)) ([], []) = OK (A_prime, tbm) /\
    res = mkCompilerResult
            (assemble_problem
               (set_name (grounded_problem gr)
                         (engine_self_name ++ "_" ++ problem_name P))
               (simplify (em_And (goals (grounded_problem gr)
                                    ++ [em_And mons])))
               (monitoring_atoms ms) A_prime (initial_state_prime ms))
            tbm engine_self_name.
Proof.
  rewrite compile_unfold. intros H.
  apply bind_ok in H. destruct H as [ms [Hms H]].
  apply bind_ok in H. destruct H as [mons [Hmons H]].
  apply bind_ok in H. destruct H as [[A_prime tbm] [Hfold H]].
  inversion H. exists ms, mons, A_prime, tbm. auto.
Qed.

Lemma fold_add_fluent_frame (F : list Fluent) :
  forall P,
    initial_values (fold_left add_fluent F P) = initial_values P /\
    problem_name (fold_left add_fluent F P) = problem_name P.
Proof.
  induction F as [|fl F IH]; intros P; simpl; [auto|].
  destruct (IH (add_fluent P fl)) as [H1 H2]. rewrite H1, H2. auto.
Qed.

Lemma fold_add_action_frame (A : list InstantaneousAction) :
  forall P,
    initial_values (fold_left add_action A P) = initial_values P /\
    problem_name (fold_left add_action A P) = problem_name P.
Proof.
  induction A as [|a A IH]; intros P; simpl; [auto|].
  destruct (IH (add_action P a)) as [H1 H2]. rewrite H1, H2. auto.
Qed.

Lemma fold_set_initial_value_get (I_prime : list FNode) :
  Forall (fun x => is_fluent_exp x = true) I_prime ->
  forall P,
    let P' := fold_left
                (fun P init_val =>
                   set_initial_value
                     P (mkFluent (str_of_fluent_exp init_val) BoolType) TRUE)
                I_prime P in
    problem_name P' = problem_name P /\
    forall k,
      dict_get (initial_values P') k =
      if memb k I_prime then Some TRUE else dict_get (initial_values P) k.
Proof.
  induction 1 as [|x I_prime Hx _ IH]; intros P; simpl; [auto|].
  destruct (IH (set_initial_value
                  P (mkFluent (str_of_fluent_exp x) BoolType) TRUE))
    as [H1 H2].
  cbv zeta in H1, H2. split; [rewrite H1; reflexivity|].
  intros k. rewrite H2. simpl.
  destruct x; try discriminate. simpl.
  destruct (FNode_eq_dec k (FluentExp f)) as [->|Hne].
  - assert (Hm : memb (FluentExp f) (FluentExp f :: I_prime) = true)
      by (apply memb_In; left; reflexivity).
    rewrite Hm, dict_get_set_same.
    destruct (memb (FluentExp f) I_prime); reflexivity.
  - rewrite dict_get_set_other by exact Hne.
    assert (Hm : memb k (FluentExp f :: I_prime) = memb k I_prime).
    { destruct (memb k I_prime) eqn:E.
      - apply memb_In. right. apply memb_In. exact E.
      - apply memb_false. apply memb_false in E.
        intros [H|H]; [congruence|tauto]. }
    rewrite Hm. reflexivity.
Qed.

(** A compiled problem is named after the compiler and the input problem;
    its initial values are those of the grounded problem, except that every
    monitor of the initial-true set is true; a monitor outside that set is
    given no value by the compilation. *)
Theorem compiled_initial_values :
  forall (d : dict FNode) (P : Problem) (gr : GroundingResult)
         (res : CompilerResult),
    _compile d P gr = OK res ->
    exists ms,
      _get_monitoring_atoms d (constraints_of gr) (init_of gr) = OK ms /\
      (forall k,
          dict_get (initial_values (result_problem res)) k =
          if memb k (initial_state_prime ms) then Some TRUE
          else dict_get (initial_values (grounded_problem gr)) k) /\
      problem_name (result_problem res)
        = ("TrajectoryConstraintsRemover_" ++ problem_name P)%string /\
      engine_name res = "TrajectoryConstraintsRemover".
Proof.
  intros d P gr res H.
  destruct (compile_ok_result _ _ _ _ H)
    as [ms [mons [A_prime [tbm [Hms [_ [_ Hres]]]]]]].
  exists ms. split; [exact Hms|].
  assert (HI : Forall (fun x => is_fluent_exp x = true)
                      (initial_state_prime ms)).
  { apply Forall_forall. intros m Hm.
    unfold _get_monitoring_atoms in Hms.
    pose proof (monitor_loop_initial _ _ _ _ Hms) as Hi. simpl in Hi.
    rewrite Hi in Hm.
    destruct (initial_true_atoms_allocated _ _ _ _ Hm) as [fl [_ ->]].
    reflexivity. }
  subst res. cbn [result_problem engine_name]. unfold assemble_problem.
  cbv zeta.
  match goal with
  | |- context [fold_left ?f (initial_state_prime ms) ?P0] =>
      destruct (fold_set_initial_value_get (initial_state_prime ms) HI P0)
        as [Hname Hget]
  end.
  cbv zeta in Hname, Hget.
  split; [|split; [|reflexivity]].
  - intros k. rewrite Hget.
    destruct (memb k (initial_state_prime ms)); [reflexivity|].
    match goal with
    | |- context [fold_left add_action ?A ?P0] =>
        destruct (fold_add_action_frame A P0) as [Hiv _]; rewrite Hiv
    end.
    cbn [clear_actions initial_values].
    match goal with
    | |- context [fold_left add_fluent ?F ?P0] =>
        destruct (fold_add_fluent_frame F P0) as [Hiv' _]; rewrite Hiv'
    end.
    reflexivity.
  - rewrite Hname.
    match goal with
    | |- context [fold_left add_action ?A ?P0] =>
        destruct (fold_add_action_frame A P0) as [_ Hn]; rewrite Hn
    end.
    cbn [clear_actions problem_name].
    match goal with
    | |- context [fold_left add_fluent ?F ?P0] =>
        destruct (fold_add_fluent_frame F P0) as [_ Hn']; rewrite Hn'
    end.
    reflexivity.
Qed.

Lemma compiled_initial_values_witness :
  exists res,
    compile problem_landmarks = OK res /\
    dict_get (initial_values (result_problem res)) atom_g = Some FALSE /\
    dict_get (initial_values (result_problem res)) (FluentExp "hold-0") = None /\
    problem_name (result_problem res) = "TrajectoryConstraintsRemover_lm".
Proof.
  eexists. split; [reflexivity|].
  destruct (compiled_initial_values fresh_dict problem_landmarks
              (ground_self problem_landmarks) _ eq_refl)
    as [ms [Hms [Hget [Hname _]]]].
  vm_compute in Hms. inversion Hms; subst ms.
  split; [rewrite Hget; reflexivity|].
  split; [rewrite Hget; reflexivity|exact Hname].
Defined.

(** ** What the rewriting adds to an action *)

Lemma add_cond_eff_frame (E : list Effect) (cond m eff0 : FNode) :
  eff0 = m \/ eff0 = Not m ->
  exists Es,
    _add_cond_eff E cond eff0 = E ++ Es /\ Forall (monitor_write m) Es.
Proof.
  intros H. unfold _add_cond_eff.
  destruct (is_false (simplify cond)) eqn:Hc; simpl.
  - exists []. rewrite app_nil_r. auto.
  - destruct H as [->| ->].
    + destruct m; eexists; (split; [reflexivity|]); constructor; auto;
        unfold monitor_write; simpl; auto.
    + eexists. split; [reflexivity|]. constructor; auto.
      unfold monitor_write. simpl. auto.
Qed.

Lemma append_precondition_frame (a a' : InstantaneousAction) (p : Precond) :
  append_precondition a p = OK a' ->
  action_name a' = action_name a /\ effects a' = effects a /\
  exists ps,
    preconditions a' = preconditions a ++ ps /\
    Forall (fun x => is_true x = false) ps.
Proof.
  unfold append_precondition. destruct p as [[x|] [|]]; try discriminate.
  - destruct (is_true x) eqn:Hx; simpl; intros H; inversion H; simpl.
    + repeat split; auto. exists []. rewrite app_nil_r. auto.
    + repeat split; auto. exists [x]. auto.
  - intros H; inversion H. repeat split; auto.
    exists []. rewrite app_nil_r. auto.
  - intros H; inversion H. repeat split; auto.
    exists []. rewrite app_nil_r. auto.
Qed.

Lemma Forall_monitor_effect (monitors : dict FNode) (c m : FNode)
    (Es : list Effect) :
  is_always c = false -> dict_get monitors c = Some m ->
  Forall (monitor_write m) Es -> Forall (monitor_effect monitors c) Es.
Proof.
  intros Ha Hm H. eapply Forall_impl; [|exact H].
  intros eff He. split; [exact Ha|]. eauto.
Qed.

Lemma compile_constraint_frame (monitors : dict FNode)
    (a a' : InstantaneousAction) (E E' : list Effect) (c : FNode) :
  compile_constraint monitors (a, E) c = OK (a', E') ->
  action_name a' = action_name a /\ effects a' = effects a /\
  (exists ps,
      preconditions a' = preconditions a ++ ps /\
      Forall (fun x => is_true x = false) ps) /\
  exists Es, E' = E ++ Es /\ Forall (monitor_effect monitors c) Es.
Proof.
  assert (Hnil : forall a0 : InstantaneousAction,
             exists ps,
               preconditions a0 = preconditions a0 ++ ps /\
               Forall (fun x => is_true x = false) ps).
  { intros a0. exists []. rewrite app_nil_r. auto. }
  unfold compile_constraint. destruct c; try discriminate.
  - (* always *)
    intros H. apply bind_ok in H. destruct H as [p [_ H]].
    apply bind_ok in H. destruct H as [a1 [Ha1 H]]. inversion H; subst.
    destruct (append_precondition_frame _ _ _ Ha1) as [H1 [H2 H3]].
    repeat split; auto. exists []. rewrite app_nil_r. auto.
  - (* sometime *)
    intros H. apply bind_ok in H. destruct H as [m [Hm H]].
    unfold dict_item in Hm.
    destruct (dict_get monitors (Sometime c)) as [m0|] eqn:Hd;
      [|discriminate]. inversion Hm; subst m0.
    apply bind_ok in H. destruct H as [E1 [HE1 H]]. inversion H; subst.
    repeat split; auto.
    unfold _manage_sometime_compilation in HE1.
    apply bind_ok in HE1. destruct HE1 as [r [_ HE1]].
    destruct (FNode_eq_dec (simplify r) c); inversion HE1; subst.
    + exists []. rewrite app_nil_r. auto.
    + destruct (add_cond_eff_frame E (simplify r) m m (or_introl eq_refl))
        as [Es [-> HEs]].
      exists Es. split; [reflexivity|].
      apply (Forall_monitor_effect _ _ m); auto.
  - (* at-most-once *)
    intros H. apply bind_ok in H. destruct H as [m [Hm H]].
    unfold dict_item in Hm.
    destruct (dict_get monitors (AtMostOnce c)) as [m0|] eqn:Hd;
      [|discriminate]. inversion Hm; subst m0.
    apply bind_ok in H. destruct H as [[p E1] [HE1 H]].
    apply bind_ok in H. destruct H as [a1 [Ha1 H]]. inversion H; subst.
    destruct (append_precondition_frame _ _ _ Ha1) as [H1 [H2 H3]].
    repeat split; auto.
    unfold _manage_amo_compilation in HE1.
    apply bind_ok in HE1. destruct HE1 as [r [_ HE1]].
    destruct (FNode_eq_dec (simplify r) c); inversion HE1; subst.
    + exists []. rewrite app_nil_r. auto.
    + destruct (add_cond_eff_frame E (simplify r) m m (or_introl eq_refl))
        as [Es [-> HEs]].
      exists Es. split; [reflexivity|].
      apply (Forall_monitor_effect _ _ m); auto.
  - (* sometime-before *)
    intros H. apply bind_ok in H. destruct H as [m [Hm H]].
    unfold dict_item in Hm.
    destruct (dict_get monitors (SometimeBefore c1 c2)) as [m0|] eqn:Hd;
      [|discriminate]. inversion Hm; subst m0.
    apply bind_ok in H. destruct H as [[p E1] [HE1 H]].
    apply bind_ok in H. destruct H as [a1 [Ha1 H]]. inversion H; subst.
    destruct (append_precondition_frame _ _ _ Ha1) as [H1 [H2 H3]].
    repeat split; auto.
    unfold _manage_sb_compilation in HE1.
    apply bind_ok in HE1. destruct HE1 as [r1 [_ HE1]].
    apply bind_ok in HE1. destruct HE1 as [r2 [_ HE1]].
    inversion HE1; subst.
    destruct (FNode_eq_dec (simplify r2) c2).
    + exists []. rewrite app_nil_r. auto.
    + destruct (add_cond_eff_frame E (simplify r2) m m (or_introl eq_refl))
        as [Es [-> HEs]].
      exists Es. split; [reflexivity|].
      apply (Forall_monitor_effect _ _ m); auto.
  - (* sometime-after *)
    intros H. apply bind_ok in H. destruct H as [m [Hm H]].
    unfold dict_item in Hm.
    destruct (dict_get monitors (SometimeAfter c1 c2)) as [m0|] eqn:Hd;
      [|discriminate]. inversion Hm; subst m0.
    apply bind_ok in H. destruct H as [E1 [HE1 H]]. inversion H; subst.
    repeat split; auto.
    unfold _manage_sa_compilation in HE1.
    apply bind_ok in HE1. destruct HE1 as [r1 [_ HE1]].
    apply bind_ok in HE1. destruct HE1 as [r2 [_ HE1]].
    inversion HE1; subst. clear HE1.
    match goal with
    | |- context [if ?b then _add_cond_eff E ?cnd ?e0 else E] =>
        assert (H1 : exists Es1,
                   (if b then _add_cond_eff E cnd e0 else E) = E ++ Es1 /\
                   Forall (monitor_write m) Es1)
          by (destruct b;
              [apply add_cond_eff_frame; right; reflexivity
              |exists []; rewrite app_nil_r; auto])
    end.
    destruct H1 as [Es1 [-> HEs1]].
    destruct (negb (FNode_eqb c2 (simplify r2))).
    + destruct (add_cond_eff_frame (E ++ Es1) (simplify r2) m m
                  (or_introl eq_refl)) as [Es2 [-> HEs2]].
      exists (Es1 ++ Es2). rewrite app_assoc. split; [reflexivity|].
      apply (Forall_monitor_effect _ _ m); auto.
      apply Forall_app. auto.
    + exists Es1. split; [reflexivity|].
      apply (Forall_monitor_effect _ _ m); auto.
Qed.

Lemma compile_constraints_frame (monitors : dict FNode) (l : list FNode) :
  forall a E a' E',
    foldM (compile_constraint monitors) l (a, E) = OK (a', E') ->
    action_name a' = action_name a /\ effects a' = effects a /\
    (exists ps,
        preconditions a' = preconditions a ++ ps /\
        Forall (fun x => is_true x = false) ps) /\
    exists Es,
      E' = E ++ Es /\
      Forall (fun eff => exists c, In c l /\ monitor_effect monitors c eff) Es.
Proof.
  induction l as [|c l IH]; intros a E a' E'.
  - simpl. intros H. inversion H. repeat split; auto.
    + exists []. rewrite app_nil_r. auto.
    + exists []. rewrite app_nil_r. auto.
  - cbn [foldM]. intros H. apply bind_ok in H.
    destruct H as [[a1 E1] [Hc Hrest]].
    destruct (compile_constraint_frame _ _ _ _ _ _ Hc)
      as [N1 [F1 [[ps1 [P1 Q1]] [Es1 [-> R1]]]]].
    destruct (IH _ _ _ _ Hrest) as [N2 [F2 [[ps2 [P2 Q2]] [Es2 [-> R2]]]]].
    split; [congruence|]. split; [congruence|]. split.
    + exists (ps1 ++ ps2). rewrite P2, P1, app_assoc. split; [reflexivity|].
      apply Forall_app. auto.
    + exists (Es1 ++ Es2). rewrite app_assoc. split; [reflexivity|].
      apply Forall_app. split.
      * eapply Forall_impl; [|exact R1]. intros eff He. exists c.
        split; [left; reflexivity|exact He].
      * eapply Forall_impl; [|exact R2]. intros eff [c' [Hin He]].
        exists c'. split; [right; exact Hin|exact He].
Qed.

Lemma compile_action_frame (monitors : dict FNode) (rd : dict (list FNode))
    (a a' : InstantaneousAction) :
  compile_action monitors rd a = OK a' ->
  action_name a' = action_name a /\
  exists ps Es,
    preconditions a' = preconditions a ++ ps /\
    effects a' = effects a ++ Es /\
    Forall (fun x => is_true x = false) ps /\
    Forall (fun eff =>
              exists c,
                In c (_get_relevant_constraints a rd) /\
                monitor_effect monitors c eff) Es.
Proof.
  unfold compile_action. intros H. apply bind_ok in H.
  destruct H as [[a1 E1] [Hf H]]. inversion H; subst a'. simpl.
  destruct (compile_constraints_frame _ _ _ _ _ _ Hf)
    as [N [F [[ps [P Q]] [Es [HE R]]]]].
  simpl in HE. subst E1.
  split; [exact N|]. exists ps, Es. rewrite F. auto.
Qed.

Lemma relevant_constraints_listed (C : list FNode) (a : InstantaneousAction)
    (c : FNode) :
  In c (_get_relevant_constraints a (_build_relevancy_dict C)) -> In c C.
Proof.
  unfold _get_relevant_constraints.
  assert (H : forall effs rel,
             In c (fold_left
                     (fun relevant_constrains eff =>
                        fold_left append_new
                          match dict_get (_build_relevancy_dict C)
                                         (fluent eff) with
                          | Some l => l
                          | None => []
                          end relevant_constrains) effs rel) ->
             In c rel \/ In c C).
  { induction effs as [|eff effs IH]; intros rel; simpl; [auto|].
    intros Hin. destruct (IH _ Hin) as [Hrel|HC]; [|auto].
    apply append_new_fold_In in Hrel. destruct Hrel as [Hrel|Hl]; [auto|].
    right. rewrite build_relevancy_dict_get, entry_list in Hl.
    unfold mentioning in Hl. apply filter_In in Hl. tauto. }
  intros Hin. destruct (H _ _ Hin) as [[]|HC]. exact HC.
Qed.





(** ** The map back to the grounded actions *)

Lemma action_map_get_set_same (m : list (InstantaneousAction * MapValue))
    (a : InstantaneousAction) (v : MapValue) :
  action_map_get (action_map_set m a v) a = OK v.
Proof.
  induction m as [|[a0 v0] m IH]; simpl.
  - destruct (Action_eq_dec a a); [reflexivity|congruence].
  - destruct (Action_eq_dec a a0) as [->|Hne]; simpl.
    + destruct (Action_eq_dec a0 a0); [reflexivity|congruence].
    + destruct (Action_eq_dec a a0); [congruence|exact IH].
Qed.

Lemma action_map_get_set_other (m : list (InstantaneousAction * MapValue))
    (a x : InstantaneousAction) (v : MapValue) :
  x <> a -> action_map_get (action_map_set m a v) x = action_map_get m x.
Proof.
  intros Hne. induction m as [|[a0 v0] m IH]; simpl.
  - destruct (Action_eq_dec x a); [congruence|reflexivity].
  - destruct (Action_eq_dec a a0) as [->|Hne0]; simpl.
    + destruct (Action_eq_dec x a0); [congruence|reflexivity].
    + destruct (Action_eq_dec x a0); [reflexivity|exact IH].
Qed.

Lemma action_loop_trace (m : list (InstantaneousAction * MapValue))
    (d : dict FNode) (rd : dict (list FNode)) (A : list InstantaneousAction) :
  forall acc tb acc' tb' rewritten,
    foldM (action_step m d rd) A (acc, tb) = OK (acc', tb') ->
    mapM (compile_action d rd) A = OK rewritten ->
    (NoDup rewritten ->
     Forall2 (fun a a' =>
                exists v,
                  action_map_get m a = OK v /\ action_map_get tb' a' = OK v)
             A rewritten) /\
    (forall x, ~ In x rewritten -> action_map_get tb' x = action_map_get tb x).
Proof.
  induction A as [|a A IH]; intros acc tb acc' tb' rewritten; simpl.
  - intros H Hm. inversion H. inversion Hm. split; [constructor|auto].
  - intros H Hm. apply bind_ok in H. destruct H as [[acc1 tb1] [Hstep Hrest]].
    unfold action_step in Hstep.
    apply bind_ok in Hstep. destruct Hstep as [v [Hv Hstep]].
    apply bind_ok in Hstep. destruct Hstep as [a' [Ha' Hstep]].
    inversion Hstep; subst acc1 tb1. clear Hstep.
    rewrite Ha' in Hm. simpl in Hm.
    apply bind_ok in Hm. destruct Hm as [rest [Hrest' Hm]].
    inversion Hm; subst rewritten. clear Hm.
    destruct (IH _ _ _ _ _ Hrest Hrest') as [Hall Hout].
    split.
    + intros Hnd. inversion Hnd as [|? ? Hnin Hnd']; subst.
      constructor; [|auto].
      exists v. split; [exact Hv|].
      rewrite (Hout a' Hnin). apply action_map_get_set_same.
    + intros x Hx. rewrite Hout by (intros Hin; apply Hx; right; exact Hin).
      apply action_map_get_set_other.
      intros ->. apply Hx. left. reflexivity.
Qed.

Lemma compile_actions_names (d : dict FNode) (rd : dict (list FNode))
    (A : list InstantaneousAction) :
  forall rewritten,
    mapM (compile_action d rd) A = OK rewritten ->
    map action_name rewritten = map action_name A.
Proof.
  induction A as [|a A IH]; intros rewritten; simpl.
  - intros H. inversion H. reflexivity.
  - intros H. apply bind_ok in H. destruct H as [a' [Ha' H]].
    apply bind_ok in H. destruct H as [rest [Hrest H]].
    inversion H; subst rewritten. simpl.
    destruct (compile_action_frame _ _ _ _ Ha') as [-> _].
    rewrite (IH _ Hrest). reflexivity.
Qed.

(** When the actions of the grounded problem have pairwise distinct names,
    the map a compilation returns sends every rewritten action, kept or
    pruned, to what the grounder's map holds for the action it was rewritten
    from, and holds nothing else; the actions of the compiled problem are
    among the rewritten ones. *)
Theorem trace_back_round_trip :
  forall (d : dict FNode) (P : Problem) (gr : GroundingResult)
         (res : CompilerResult),
    _compile d P gr = OK res ->
    NoDup (map action_name (actions (grounded_problem gr))) ->
    exists ms rewritten,
      _get_monitoring_atoms d (constraints_of gr) (init_of gr) = OK ms /\
      mapM (compile_action (_monitoring_atom_dict ms)
                           (_build_relevancy_dict (constraints_of gr)))
           (actions (grounded_problem gr)) = OK rewritten /\
      actions (result_problem res) = filter kept rewritten /\
      Forall2 (fun a a' =>
                 exists v,
                   action_map_get (map_back_action_instance gr) a = OK v /\
                   action_map_get (trace_back_map res) a' = OK v)
              (actions (grounded_problem gr)) rewritten /\
      forall x,
        ~ In x rewritten ->
        action_map_get (trace_back_map res) x = Raise KeyError.
Proof.
  intros d P gr res H Hnd.
  destruct (compile_ok_inv _ _ _ _ H)
    as [ms [mons [A_prime [tbm [Hms [_ [Hfold [Hact _]]]]]]]].
  destruct (compile_ok_result _ _ _ _ H)
    as [ms' [mons' [A_prime' [tbm' [Hms' [_ [Hfold' Hres]]]]]]].
  rewrite Hms in Hms'. inversion Hms'; subst ms'. clear Hms'.
  rewrite Hfold in Hfold'. inversion Hfold'; subst A_prime' tbm'.
  clear Hfold'.
  destruct (action_loop_ok _ _ _ _ _ _ _ _ Hfold) as [rewritten [Hmap HA]].
  exists ms, rewritten. split; [exact Hms|]. split; [exact Hmap|].
  split; [rewrite Hact; exact HA|].
  destruct (action_loop_trace _ _ _ _ _ _ _ _ _ Hfold Hmap) as [Hall Hout].
  assert (Htb : trace_back_map res = tbm) by (rewrite Hres; reflexivity).
  rewrite Htb. split; [|exact Hout].
  apply Hall. apply (NoDup_map_inv action_name).
  rewrite (compile_actions_names _ _ _ _ Hmap). exact Hnd.
Qed.

Lemma trace_back_round_trip_witness :
  exists res,
    compile scenario_S3 = OK res /\
    action_map_get (trace_back_map res)
      (mkAction "turn_off" [] [mkEffect TRUE atom_p FALSE])
    = OK ("turn_off", []) /\
    action_map_get (trace_back_map res) turn_on = Raise KeyError.
Proof.
  eexists. split; [reflexivity|].
  assert (Hnd : NoDup (map action_name
                         (actions (grounded_problem
                                     (ground_self scenario_S3))))).
  { simpl. repeat constructor; simpl; intuition discriminate. }
  destruct (trace_back_round_trip fresh_dict scenario_S3
              (ground_self scenario_S3) _ eq_refl Hnd)
    as [ms [rewritten [Hms [Hmap [_ [Hall Hout]]]]]].
  vm_compute in Hms. inversion Hms; subst ms. clear Hms.
  vm_compute in Hmap. inversion Hmap; subst rewritten. clear Hmap.
  split.
  - inversion Hall as [|? ? ? ? _ Hall']; subst.
    inversion Hall' as [|? ? ? ? [v [Hv Hv']] _]; subst.
    vm_compute in Hv. inversion Hv; subst v. exact Hv'.
  - apply Hout. simpl. intuition discriminate.
Defined.

(** ** When the compilation raises, and when it returns *)

Lemma bind_raise {A B : Type} (r : result A) (k : A -> result B) (e : PyExc) :
  bind r k = Raise e ->
  r = Raise e \/ exists a, r = OK a /\ k a = Raise e.
Proof.
  destruct r as [a|e0]; simpl; [eauto|].
  intros H. left. inversion H. reflexivity.
Qed.

Lemma mapM_raise {A B : Type} (f : A -> result B) (l : list A) (e : PyExc) :
  mapM f l = Raise e -> exists x, In x l /\ f x = Raise e.
Proof.
  induction l as [|x l IH]; simpl; [discriminate|].
  intros H. apply bind_raise in H. destruct H as [H|[y [_ H]]].
  - exists x. auto.
  - apply bind_raise in H. destruct H as [H|[ys [_ H]]]; [|discriminate].
    destruct (IH H) as [x' [Hin Hx']]. eauto.
Qed.

Lemma foldM_raise {A S : Type} (f : S -> A -> result S) (l : list A)
    (e : PyExc) :
  forall s,
    foldM f l s = Raise e -> exists s' x, In x l /\ f s' x = Raise e.
Proof.
  induction l as [|x l IH]; intros s; simpl; [discriminate|].
  intros H. apply bind_raise in H. destruct H as [H|[s1 [_ H]]].
  - exists s, x. auto.
  - destruct (IH _ H) as [s' [x' [Hin Hx']]]. exists s', x'. auto.
Qed.

Lemma foldM_total {A S : Type} (f : S -> A -> result S) (l : list A) :
  (forall s x, In x l -> exists s', f s x = OK s') ->
  forall s, exists s', foldM f l s = OK s'.
Proof.
  induction l as [|x l IH]; intros Hf s; simpl; [eauto|].
  destruct (Hf s x (or_introl eq_refl)) as [s1 Hs1]. rewrite Hs1. simpl.
  apply IH. intros s0 y Hy. apply Hf. right. exact Hy.
Qed.

Lemma regression_shapes (a : InstantaneousAction) (phi : FNode) :
  match _regression phi a with
  | OK _ => propositional phi = true
  | Raise e =>
      propositional phi = false /\
      e = UPUsageError "This compiler cannot handle this expression"
  end.
Proof.
  induction phi as [b|f|x IH|l IH|l IH| | | | |] using FNode_nested_ind;
    simpl; auto.
  - destruct (_regression x a); simpl; exact IH.
  - pose proof (mapM_raise_usage a l IH) as H.
    destruct (mapM _ l); simpl; exact H.
  - pose proof (mapM_raise_usage a l IH) as H.
    destruct (mapM _ l); simpl; exact H.
Qed.

Lemma regression_raise (a : InstantaneousAction) (phi : FNode) (e : PyExc) :
  _regression phi a = Raise e ->
  propositional phi = false /\
  e = UPUsageError "This compiler cannot handle this expression".
Proof.
  intros H. pose proof (regression_shapes a phi) as Hs.
  rewrite H in Hs. exact Hs.
Qed.

Lemma dict_item_raise (monitors : dict FNode) (c : FNode) (e : PyExc) :
  dict_item monitors c = Raise e -> e = KeyError /\ dict_get monitors c = None.
Proof.
  unfold dict_item. destruct (dict_get monitors c); [discriminate|].
  intros H. inversion H. auto.
Qed.

Lemma compile_constraint_raise (monitors : dict FNode)
    (st : InstantaneousAction * list Effect) (c : FNode) (e : PyExc) :
  compile_constraint monitors st c = Raise e ->
  rewriting_failure monitors c e.
Proof.
  destruct st as [a E]. unfold compile_constraint, rewriting_failure.
  destruct c; try (intros H; inversion H; right; left; auto; fail).
  - (* always *)
    unfold _manage_always_compilation.
    destruct (_regression c a) as [r|e0] eqn:Hr; simpl.
    + destruct (FNode_eq_dec (simplify r) c); simpl; [discriminate|].
      destruct (is_true (simplify r)); discriminate.
    + intros H. inversion H; subst e0.
      destruct (regression_raise _ _ _ Hr) as [Hp ->].
      left. simpl. rewrite Hp. auto.
  - (* sometime *)
    intros H. apply bind_raise in H. destruct H as [H|[m [_ H]]].
    + apply dict_item_raise in H. right. right. tauto.
    + unfold _manage_sometime_compilation in H.
      destruct (_regression c a) as [r|e0] eqn:Hr; simpl in H.
      * destruct (FNode_eq_dec (simplify r) c); discriminate.
      * inversion H; subst e0.
        destruct (regression_raise _ _ _ Hr) as [Hp ->].
        left. simpl. rewrite Hp. auto.
  - (* at-most-once *)
    intros H. apply bind_raise in H. destruct H as [H|[m [_ H]]].
    + apply dict_item_raise in H. right. right. tauto.
    + unfold _manage_amo_compilation in H.
      destruct (_regression c a) as [r|e0] eqn:Hr; simpl in H.
      * destruct (FNode_eq_dec (simplify r) c); simpl in H; [discriminate|].
        destruct (is_true _); discriminate.
      * inversion H; subst e0.
        destruct (regression_raise _ _ _ Hr) as [Hp ->].
        left. simpl. rewrite Hp. auto.
  - (* sometime-before *)
    intros H. apply bind_raise in H. destruct H as [H|[m [_ H]]].
    + apply dict_item_raise in H. right. right. tauto.
    + unfold _manage_sb_compilation in H.
      destruct (_regression c1 a) as [r1|e0] eqn:Hr1; simpl in H.
      * destruct (_regression c2 a) as [r2|e0] eqn:Hr2; simpl in H.
        -- destruct (FNode_eq_dec (simplify r1) c1); simpl in H;
             [discriminate|].
           destruct (is_true _); discriminate.
        -- inversion H; subst e0.
           destruct (regression_raise _ _ _ Hr2) as [Hp ->].
           left. simpl. rewrite Hp, !andb_false_r. auto.
      * inversion H; subst e0.
        destruct (regression_raise _ _ _ Hr1) as [Hp ->].
        left. simpl. rewrite Hp. auto.
  - (* sometime-after *)
    intros H. apply bind_raise in H. destruct H as [H|[m [_ H]]].
    + apply dict_item_raise in H. right. right. tauto.
    + unfold _manage_sa_compilation in H.
      destruct (_regression c1 a) as [r1|e0] eqn:Hr1; simpl in H.
      * destruct (_regression c2 a) as [r2|e0] eqn:Hr2; simpl in H;
          [discriminate|].
        inversion H; subst e0.
        destruct (regression_raise _ _ _ Hr2) as [Hp ->].
        left. simpl. rewrite Hp, !andb_false_r. auto.
      * inversion H; subst e0.
        destruct (regression_raise _ _ _ Hr1) as [Hp ->].
        left. simpl. rewrite Hp. auto.
Qed.

Lemma monitor_step_raise (I : dict FNode) (c : FNode) (st : MonitorState)
    (e : PyExc) :
  monitor_step I c st = Raise e -> allocation_failure I c e.
Proof.
  unfold monitor_step, allocation_failure.
  destruct c; simpl; unfold args_at; simpl; try discriminate.
  - intros H. inversion H. right. right. auto.
  - intros H. inversion H. right. right. auto.
  - destruct l; simpl; [|discriminate].
    intros H. inversion H. right. right. auto.
  - destruct l; simpl; [|discriminate].
    intros H. inversion H. right. right. auto.
  - destruct (is_false (simplify (substitute c I))) eqn:Hf; [|discriminate].
    intros H. inversion H. left. split; [reflexivity|]. eauto.
  - destruct (is_true (simplify (substitute c1 I))) eqn:Ht; simpl;
      [|discriminate].
    intros H. inversion H. right. left. split; [reflexivity|]. eauto.
Qed.

Lemma monitor_loop_raise (I : dict FNode) (C : list FNode) (e : PyExc) :
  forall st,
    monitor_loop I C st = Raise e ->
    exists c, In c C /\ allocation_failure I c e.
Proof.
  induction C as [|c C IH]; intros st; simpl; [discriminate|].
  intros H. apply bind_raise in H. destruct H as [H|[st1 [_ H]]].
  - exists c. split; [left; reflexivity|].
    apply (monitor_step_raise I c st e H).
  - destruct (IH _ H) as [c' [Hin Hc']]. exists c'. auto.
Qed.

(** Where an exception of the modelled steps comes from: the allocator, the
    rewriting of a relevant constraint, or the lookup of an action in the
    grounder's map. *)
Lemma compile_raise_cases :
  forall (d : dict FNode) (P : Problem) (gr : GroundingResult) (e : PyExc),
    _compile d P gr = Raise e ->
    (exists c,
        In c (constraints_of gr) /\ allocation_failure (init_of gr) c e) \/
    (exists c,
        In c (constraints_of gr) /\
        (e = UPUsageError "This compiler cannot handle this expression" /\
         is_constraint c = true /\ forallb propositional (args c) = false \/
         e = unknown_constraint /\ is_constraint c = false)) \/
    (e = KeyError /\
     exists a,
       In a (actions (grounded_problem gr)) /\
       action_map_get (map_back_action_instance gr) a = Raise KeyError).
Proof.
  intros d P gr e. rewrite compile_unfold. intros H.
  apply bind_raise in H. destruct H as [H|[ms [Hms H]]].
  { left. apply (monitor_loop_raise _ _ _ _ H). }
  apply bind_raise in H. destruct H as [H|[mons [_ H]]].
  { destruct (landmarks_total _ _ _ _ Hms) as [mons Hmons].
    rewrite Hmons in H. discriminate. }
  apply bind_raise in H. destruct H as [H|[[A_prime tbm] [_ H]]];
    [|discriminate].
  right. apply foldM_raise in H. destruct H as [[acc tb] [a [Ha H]]].
  unfold action_step in H.
  apply bind_raise in H. destruct H as [H|[v [_ H]]].
  { right.
    assert (He : e = KeyError).
    { clear -H. induction (map_back_action_instance gr) as [|[a0 v0] m IH];
        simpl in H; [inversion H; reflexivity|].
      destruct (Action_eq_dec a a0); [discriminate|auto]. }
    subst e. split; [reflexivity|]. exists a. auto. }
  apply bind_raise in H. destruct H as [H|[a' [_ H]]]; [|discriminate].
  unfold compile_action in H.
  apply bind_raise in H. destruct H as [H|[[a1 E1] [_ H]]]; [|discriminate].
  apply foldM_raise in H. destruct H as [st [c [Hc H]]].
  apply relevant_constraints_listed in Hc.
  apply compile_constraint_raise in H.
  destruct H as [H|[H|[_ [Halw Hnone]]]].
  - left. exists c. auto.
  - left. exists c. auto.
  - exfalso. unfold _get_monitoring_atoms in Hms.
    destruct (monitor_loop_inv _ _ _ _ Hms) as [_ [_ [_ [He _]]]].
    destruct (He c) as [m Hm]; [left; apply monitored_In; auto|].
    rewrite Hm in Hnone. discriminate.
Qed.


Lemma monitor_step_allocates_iff (I : dict FNode) (c : FNode)
    (st : MonitorState) :
  match monitor_step I c st with
  | OK _ => allocates I c = true
  | Raise _ => allocates I c = false
  end.
Proof.
  unfold monitor_step, allocates.
  destruct c; simpl; unfold args_at; simpl; try reflexivity.
  - destruct l; reflexivity.
  - destruct l; reflexivity.
  - destruct (is_false _); reflexivity.
  - destruct (is_true (simplify (substitute c1 I))); reflexivity.
Qed.

Lemma monitor_loop_allocates_iff (I : dict FNode) (C : list FNode) :
  forall st,
    match monitor_loop I C st with
    | OK _ => forallb (allocates I) C = true
    | Raise _ => forallb (allocates I) C = false
    end.
Proof.
  induction C as [|c C IH]; intros st; simpl; [reflexivity|].
  pose proof (monitor_step_allocates_iff I c st) as Hs.
  destruct (monitor_step I c st) as [st1|e]; simpl; rewrite Hs;
    [apply IH|reflexivity].
Qed.

Lemma compile_constraint_rewritable (monitors : dict FNode)
    (a : InstantaneousAction) (E : list Effect) (c : FNode) :
  (is_always c = false -> exists m, dict_get monitors c = Some m) ->
  match compile_constraint monitors (a, E) c with
  | OK _ => rewritable c = true
  | Raise _ => rewritable c = false
  end.
Proof.
  intros Hm. unfold compile_constraint, rewritable.
  destruct c; try reflexivity.
  - (* always *)
    unfold _manage_always_compilation. simpl.
    pose proof (regression_shapes a c) as Hs.
    destruct (_regression c a) as [r|e]; simpl.
    + rewrite Hs. destruct (FNode_eq_dec (simplify r) c); simpl;
        [reflexivity|]. destruct (is_true (simplify r)); reflexivity.
    + destruct Hs as [-> _]. reflexivity.
  - (* sometime *)
    destruct (Hm eq_refl) as [m Hd]. unfold dict_item. rewrite Hd.
    unfold _manage_sometime_compilation. simpl.
    pose proof (regression_shapes a c) as Hs.
    destruct (_regression c a) as [r|e]; simpl.
    + rewrite Hs. destruct (FNode_eq_dec (simplify r) c); reflexivity.
    + destruct Hs as [-> _]. reflexivity.
  - (* at-most-once *)
    destruct (Hm eq_refl) as [m Hd]. unfold dict_item. rewrite Hd.
    unfold _manage_amo_compilation. simpl.
    pose proof (regression_shapes a c) as Hs.
    destruct (_regression c a) as [r|e]; simpl.
    + rewrite Hs. destruct (FNode_eq_dec (simplify r) c); simpl;
        [reflexivity|]. destruct (is_true _); reflexivity.
    + destruct Hs as [-> _]. reflexivity.
  - (* sometime-before *)
    destruct (Hm eq_refl) as [m Hd]. unfold dict_item. rewrite Hd.
    unfold _manage_sb_compilation. simpl.
    pose proof (regression_shapes a c1) as Hs1.
    pose proof (regression_shapes a c2) as Hs2.
    destruct (_regression c1 a) as [r1|e1]; simpl.
    + rewrite Hs1. destruct (_regression c2 a) as [r2|e2]; simpl.
      * rewrite Hs2. destruct (FNode_eq_dec (simplify r1) c1); simpl;
          [reflexivity|]. destruct (is_true _); reflexivity.
      * destruct Hs2 as [-> _]. reflexivity.
    + destruct Hs1 as [-> _]. reflexivity.
  - (* sometime-after *)
    destruct (Hm eq_refl) as [m Hd]. unfold dict_item. rewrite Hd.
    unfold _manage_sa_compilation. simpl.
    pose proof (regression_shapes a c1) as Hs1.
    pose proof (regression_shapes a c2) as Hs2.
    destruct (_regression c1 a) as [r1|e1]; simpl.
    + rewrite Hs1. destruct (_regression c2 a) as [r2|e2]; simpl.
      * rewrite Hs2. reflexivity.
      * destruct Hs2 as [-> _]. reflexivity.
    + destruct Hs1 as [-> _]. reflexivity.
Qed.

Lemma compile_constraints_rewritable (monitors : dict FNode)
    (l : list FNode) :
  (forall c, In c l -> is_always c = false ->
             exists m, dict_get monitors c = Some m) ->
  forall st,
    match foldM (compile_constraint monitors) l st with
    | OK _ => forallb rewritable l = true
    | Raise _ => forallb rewritable l = false
    end.
Proof.
  induction l as [|c l IH]; intros Hm st; [reflexivity|].
  cbn [foldM forallb]. destruct st as [a E].
  pose proof (compile_constraint_rewritable monitors a E c
                (Hm c (or_introl eq_refl))) as Hc.
  destruct (compile_constraint monitors (a, E) c) as [st1|e]; cbn [bind];
    rewrite Hc; [|reflexivity].
  apply IH. intros c' Hin. apply Hm. right. exact Hin.
Qed.

Lemma compile_action_rewritable (d : dict FNode) (C : list FNode)
    (I : dict FNode) (ms : MonitorState) (a : InstantaneousAction) :
  _get_monitoring_atoms d C I = OK ms ->
  match compile_action (_monitoring_atom_dict ms) (_build_relevancy_dict C) a
  with
  | OK _ =>
      forallb rewritable
        (_get_relevant_constraints a (_build_relevancy_dict C)) = true
  | Raise _ =>
      forallb rewritable
        (_get_relevant_constraints a (_build_relevancy_dict C)) = false
  end.
Proof.
  intros Hms. unfold compile_action.
  assert (Hm : forall c,
             In c (_get_relevant_constraints a (_build_relevancy_dict C)) ->
             is_always c = false ->
             exists m, dict_get (_monitoring_atom_dict ms) c = Some m).
  { intros c Hc Ha. apply relevant_constraints_listed in Hc.
    unfold _get_monitoring_atoms in Hms.
    destruct (monitor_loop_inv _ _ _ _ Hms) as [_ [_ [_ [He _]]]].
    apply He. left. apply monitored_In. auto. }
  pose proof (compile_constraints_rewritable _ _ Hm (a, [])) as Hf.
  destruct (foldM _ _ _) as [[a1 E1]|e]; simpl; exact Hf.
Qed.

Lemma action_loop_returns (m : list (InstantaneousAction * MapValue))
    (d : dict FNode) (C : list FNode) (I : dict FNode) (ms : MonitorState)
    (A : list InstantaneousAction) :
  _get_monitoring_atoms d C I = OK ms ->
  forall st,
    (exists st',
        foldM (action_step m (_monitoring_atom_dict ms)
                           (_build_relevancy_dict C)) A st = OK st') <->
    Forall (fun a =>
              (exists v, action_map_get m a = OK v) /\
              forallb rewritable
                (_get_relevant_constraints a (_build_relevancy_dict C))
              = true) A.
Proof.
  intros Hms. induction A as [|a A IH]; intros st.
  - simpl. split; [constructor|eauto].
  - cbn [foldM]. destruct st as [acc tb]. unfold action_step at 1.
    pose proof (compile_action_rewritable d C I ms a Hms) as Hca.
    split.
    + intros [st' H]. apply bind_ok in H. destruct H as [st1 [Hstep Hrest]].
      apply bind_ok in Hstep. destruct Hstep as [v [Hv Hstep]].
      apply bind_ok in Hstep. destruct Hstep as [a' [Ha' _]].
      rewrite Ha' in Hca. constructor; [eauto|].
      apply (IH st1). eauto.
    + intros H. inversion H as [|? ? [[v Hv] Hr] Hrest]; subst.
      rewrite Hv. cbn [bind]. rewrite Hr in Hca.
      destruct (compile_action _ _ a) as [a'|e]; [|discriminate].
      cbn [bind]. apply IH. exact Hrest.
Qed.


(** ** The regression is the weakest precondition *)

Lemma mem_remove_same (f : string) (s : State) :
  existsb (String.eqb f) (remove string_dec f s) = false.
Proof.
  induction s as [|g s IH]; simpl; [reflexivity|].
  destruct (string_dec f g) as [->|Hne]; [exact IH|].
  simpl. rewrite IH. apply String.eqb_neq in Hne. rewrite Hne. reflexivity.
Qed.

Lemma mem_remove_other (f g : string) (s : State) :
  f <> g ->
  existsb (String.eqb f) (remove string_dec g s) = existsb (String.eqb f) s.
Proof.
  intros Hne. induction s as [|h s IH]; simpl; [reflexivity|].
  destruct (string_dec g h) as [->|Hgh]; simpl.
  - rewrite IH. apply String.eqb_neq in Hne. rewrite Hne. reflexivity.
  - rewrite IH. reflexivity.
Qed.

Lemma apply_effect_mem (s acc : State) (eff : Effect) (f : string) :
  existsb (String.eqb f) (apply_effect s acc eff) =
  if fires_on s f eff then holds s (value eff)
  else existsb (String.eqb f) acc.
Proof.
  unfold apply_effect, fires_on.
  destruct (holds s (condition eff)); simpl; [|reflexivity].
  unfold FNode_eqb.
  destruct (FNode_eq_dec (fluent eff) (FluentExp f)) as [->|Hne].
  - destruct (holds s (value eff)); simpl.
    + rewrite String.eqb_refl. reflexivity.
    + apply mem_remove_same.
  - destruct (fluent eff) as [|g| | | | | | | |]; try reflexivity.
    assert (Hfg : f <> g) by congruence.
    destruct (holds s (value eff)); simpl.
    + apply String.eqb_neq in Hfg. rewrite Hfg. simpl.
      apply mem_remove_other. apply String.eqb_neq. exact Hfg.
    + apply mem_remove_other. exact Hfg.
Qed.

Lemma apply_effects_mem (s : State) (f : string) (effs : list Effect) :
  forall acc,
    existsb (String.eqb f) (fold_left (apply_effect s) effs acc) =
    fold_left (fun b eff => if fires_on s f eff then holds s (value eff)
                            else b)
              effs (existsb (String.eqb f) acc).
Proof.
  induction effs as [|eff effs IH]; intros acc; simpl; [reflexivity|].
  rewrite IH, apply_effect_mem. reflexivity.
Qed.

Lemma last_write_consistent (s : State) (f : string) (effs : list Effect) :
  (forall e1 e2,
      In e1 effs -> In e2 effs ->
      fires_on s f e1 = true -> fires_on s f e2 = true ->
      holds s (value e1) = holds s (value e2)) ->
  forall b,
    fold_left (fun b eff => if fires_on s f eff then holds s (value eff)
                            else b) effs b =
    existsb (fun eff => fires_on s f eff && holds s (value eff)) effs
    || (b && negb (existsb (fun eff => fires_on s f eff
                                       && negb (holds s (value eff))) effs)).
Proof.
  induction effs as [|eff effs IH]; intros Hc b; simpl.
  - rewrite andb_true_r. reflexivity.
  - rewrite IH
      by (intros e1 e2 H1 H2; apply Hc; right; assumption).
    destruct (fires_on s f eff) eqn:Hf; simpl; [|reflexivity].
    destruct (holds s (value eff)) eqn:Hv; simpl.
    + assert (Hn : existsb (fun e => fires_on s f e
                                     && negb (holds s (value e))) effs
                   = false).
      { apply not_true_is_false. intros Hex. apply existsb_exists in Hex.
        destruct Hex as [e [He Hfe]]. apply andb_prop in Hfe.
        destruct Hfe as [Hfe Hve].
        pose proof (Hc eff e (or_introl eq_refl) (or_intror He) Hf Hfe) as K.
        rewrite Hv in K. rewrite <- K in Hve. discriminate. }
      rewrite Hn. simpl. apply orb_true_r.
    + rewrite ?andb_false_r, ?orb_false_r. reflexivity.
Qed.

Lemma existsb_asserting (s : State) (literal : FNode) (effs : list Effect) :
  existsb (holds s) (asserting_conditions literal effs) =
  existsb (fun eff => FNode_eqb literal (asserted eff)
                      && holds s (condition eff)) effs.
Proof.
  unfold asserting_conditions.
  induction effs as [|eff effs IH]; simpl; [reflexivity|].
  destruct (FNode_eqb literal (asserted eff)); simpl; rewrite IH; reflexivity.
Qed.

Lemma existsb_ext_Forall {A : Type} (P : A -> Prop) (f g : A -> bool)
    (l : list A) :
  Forall P l -> (forall x, P x -> f x = g x) -> existsb f l = existsb g l.
Proof.
  intros Hl Hfg. induction Hl as [|x l Hx _ IH]; simpl; [reflexivity|].
  rewrite (Hfg x Hx), IH. reflexivity.
Qed.

Lemma asserted_positive (f : string) (eff : Effect) :
  is_fluent_exp (fluent eff) = true -> is_bool_constant (value eff) = true ->
  forall s : State,
    FNode_eqb (FluentExp f) (asserted eff) =
    FNode_eqb (fluent eff) (FluentExp f) && holds s (value eff).
Proof.
  intros Hfl Hv s. unfold asserted, FNode_eqb, em_Not.
  destruct (fluent eff) as [|g| | | | | | | |]; try discriminate.
  destruct (value eff) as [[|]| | | | | | | | |]; try discriminate;
    cbn [is_false holds].
  - destruct (FNode_eq_dec (FluentExp f) (FluentExp g));
      destruct (FNode_eq_dec (FluentExp g) (FluentExp f));
      first [reflexivity|congruence].
  - destruct (FNode_eq_dec (FluentExp f) (Not (FluentExp g)));
      [discriminate|].
    rewrite andb_false_r. reflexivity.
Qed.

Lemma asserted_negative (f : string) (eff : Effect) :
  is_fluent_exp (fluent eff) = true -> is_bool_constant (value eff) = true ->
  forall s : State,
    FNode_eqb (Not (FluentExp f)) (asserted eff) =
    FNode_eqb (fluent eff) (FluentExp f) && negb (holds s (value eff)).
Proof.
  intros Hfl Hv s. unfold asserted, FNode_eqb, em_Not.
  destruct (fluent eff) as [|g| | | | | | | |]; try discriminate.
  destruct (value eff) as [[|]| | | | | | | | |]; try discriminate;
    cbn [is_false holds negb].
  - destruct (FNode_eq_dec (Not (FluentExp f)) (FluentExp g));
      [discriminate|].
    rewrite andb_false_r. reflexivity.
  - destruct (FNode_eq_dec (Not (FluentExp f)) (Not (FluentExp g)));
      destruct (FNode_eq_dec (FluentExp g) (FluentExp f));
      first [reflexivity|congruence].
Qed.

Lemma asserting_positive (s : State) (f : string) (a : InstantaneousAction) :
  boolean_effects a ->
  existsb (holds s) (asserting_conditions (FluentExp f) (effects a)) =
  existsb (fun eff => fires_on s f eff && holds s (value eff)) (effects a).
Proof.
  intros Hb. rewrite existsb_asserting.
  apply (existsb_ext_Forall _ _ _ _ Hb).
  intros eff [Hfl Hv]. rewrite (asserted_positive f eff Hfl Hv s).
  unfold fires_on.
  destruct (FNode_eqb (fluent eff) (FluentExp f)), (holds s (value eff)),
    (holds s (condition eff)); reflexivity.
Qed.

Lemma asserting_negative (s : State) (f : string) (a : InstantaneousAction) :
  boolean_effects a ->
  existsb (holds s) (asserting_conditions (Not (FluentExp f)) (effects a)) =
  existsb (fun eff => fires_on s f eff && negb (holds s (value eff)))
          (effects a).
Proof.
  intros Hb. rewrite existsb_asserting.
  apply (existsb_ext_Forall _ _ _ _ Hb).
  intros eff [Hfl Hv]. rewrite (asserted_negative f eff Hfl Hv s).
  unfold fires_on.
  destruct (FNode_eqb (fluent eff) (FluentExp f)), (holds s (value eff)),
    (holds s (condition eff)); reflexivity.
Qed.

Lemma em_Or_holds (s : State) (l : list FNode) :
  holds s (em_Or l) = existsb (holds s) l.
Proof.
  destruct l as [|x [|y l]]; simpl; try reflexivity.
  rewrite orb_false_r. reflexivity.
Qed.

Lemma gamma_holds (s : State) (literal : FNode) (a : InstantaneousAction) :
  holds s (auto_promote (_gamma literal a)) =
  existsb (holds s) (asserting_conditions literal (effects a)).
Proof.
  unfold _gamma. rewrite gamma_loop_spec. simpl.
  destruct (existsb is_true (asserting_conditions literal (effects a)))
    eqn:Ht.
  - simpl. symmetry. apply existsb_exists in Ht. destruct Ht as [c [Hc Hct]].
    apply existsb_exists. exists c. split; [exact Hc|].
    apply is_true_TRUE in Hct. subst c. reflexivity.
  - destruct (asserting_conditions literal (effects a)) as [|c D] eqn:HD;
      [reflexivity|].
    cbn [auto_promote]. apply (em_Or_holds s (c :: D)).
Qed.

Lemma gamma_substitution_holds (s : State) (f : string)
    (a : InstantaneousAction) :
  boolean_effects a -> conflict_free a s ->
  holds s (_gamma_substitution (FluentExp f) a) =
  holds (apply_action a s) (FluentExp f).
Proof.
  intros Hb Hc. unfold _gamma_substitution, apply_action. cbv zeta.
  rewrite em_Or_holds. cbn [existsb]. rewrite em_And_holds. cbn [forallb].
  unfold em_Not at 1. cbn [holds]. rewrite !gamma_holds.
  unfold em_Not. rewrite asserting_positive, asserting_negative by exact Hb.
  rewrite apply_effects_mem, last_write_consistent.
  - rewrite orb_false_r, andb_true_r. reflexivity.
  - intros e1 e2 H1 H2 F1 F2. unfold fires_on in F1, F2.
    apply andb_prop in F1. destruct F1 as [C1 E1].
    apply andb_prop in F2. destruct F2 as [C2 E2].
    apply FNode_eqb_eq in E1. apply FNode_eqb_eq in E2.
    rewrite (Hc e1 e2 H1 H2 C1 C2) by congruence. reflexivity.
Qed.

Lemma regression_holds (s : State) (a : InstantaneousAction) :
  boolean_effects a -> conflict_free a s ->
  forall phi r,
    _regression phi a = OK r ->
    holds s r = holds (apply_action a s) phi.
Proof.
  intros Hb Hc phi.
  induction phi as [b|f|x IH|l IH|l IH| | | | |] using FNode_nested_ind;
    intros r; simpl; try discriminate.
  - intros H. inversion H. reflexivity.
  - intros H. inversion H. apply (gamma_substitution_holds s f a Hb Hc).
  - intros H. apply bind_ok in H. destruct H as [r0 [Hr0 H]].
    inversion H. simpl. rewrite (IH _ Hr0). reflexivity.
  - intros H. apply bind_ok in H. destruct H as [rs [Hrs H]].
    injection H as <-. rewrite em_And_holds.
    apply mapM_Forall2 in Hrs. revert IH.
    induction Hrs as [|x y l rs Hxy _ IHl]; intros IH; simpl; [reflexivity|].
    inversion IH as [|? ? Hx Hl]; subst.
    rewrite (Hx _ Hxy), (IHl Hl). reflexivity.
  - intros H. apply bind_ok in H. destruct H as [rs [Hrs H]].
    injection H as <-. rewrite em_Or_holds.
    apply mapM_Forall2 in Hrs. revert IH.
    induction Hrs as [|x y l rs Hxy _ IHl]; intros IH; simpl; [reflexivity|].
    inversion IH as [|? ? Hx Hl]; subst.
    rewrite (Hx _ Hxy), (IHl Hl). reflexivity.
Qed.

(** For an action whose effects assign boolean constants to fluent
    expressions, and a state in which no two of its firing effects assign
    different values to one fluent, the formula the regression returns for
    phi holds in the state exactly when phi holds in the state the action
    leads to; the simplified regression, which the rewriting uses, has the
    same truth value. *)
Theorem regression_weakest_precondition :
  forall (a : InstantaneousAction) (s : State) (phi r : FNode),
    boolean_effects a ->
    conflict_free a s ->
    _regression phi a = OK r ->
    holds s r = holds (apply_action a s) phi /\
    holds s (simplify r) = holds (apply_action a s) phi.
Proof.
  intros a s phi r Hb Hc Hr.
  rewrite simplify_sound. split; apply (regression_holds s a Hb Hc phi r Hr).
Qed.

Lemma copy_q_boolean : boolean_effects copy_q.
Proof. repeat constructor. Qed.

Lemma copy_q_conflict_free (s : State) : conflict_free copy_q s.
Proof.
  intros e1 e2 [<-|[<-|[]]] [<-|[<-|[]]]; cbn [condition fluent value];
    intros H1 H2 _; try reflexivity; exfalso;
    change (holds s (Not atom_q)) with (negb (holds s atom_q)) in *;
    destruct (holds s atom_q); discriminate.
Qed.

Lemma regression_weakest_precondition_witness :
  exists r,
    _regression (Or [atom_p; Not atom_q]) copy_q = OK r /\
    holds ["q"%string] r = true /\
    holds ["q"%string] (simplify r) = true.
Proof.
  eexists. split; [reflexivity|].
  apply (regression_weakest_precondition copy_q ["q"%string]
           (Or [atom_p; Not atom_q]) _ copy_q_boolean
           (copy_q_conflict_free _) eq_refl).
Defined.

(** ** What the added preconditions and effects mean *)

(** The always rule, in a state where phi holds, for an action with boolean
    effects that do not conflict there: the loop leaves the effects and the
    list E as they are, and the rewritten action is applicable in the state
    exactly when the action is and phi still holds after it. *)
Theorem always_rule_sound :
  forall (monitors : dict FNode) (a a' : InstantaneousAction)
         (E E' : list Effect) (phi : FNode) (s : State),
    boolean_effects a ->
    conflict_free a s ->
    holds s phi = true ->
    compile_constraint monitors (a, E) (Always phi) = OK (a', E') ->
    E' = E /\ effects a' = effects a /\
    forallb (holds s) (preconditions a') =
    forallb (holds s) (preconditions a) && holds (apply_action a s) phi.
Proof.
  intros monitors a a' E E' phi s Hb Hc Hphi H.
  unfold compile_constraint, _manage_always_compilation in H.
  apply bind_ok in H. destruct H as [p [Hp H]].
  apply bind_ok in Hp. destruct Hp as [r [Hr Hp]].
  pose proof (regression_holds s a Hb Hc phi r Hr) as Hwp.
  rewrite <- (simplify_sound s r) in Hwp.
  destruct (FNode_eq_dec (simplify r) phi) as [Heq|Hne].
  - inversion Hp; subst p. simpl in H. inversion H; subst a' E'.
    rewrite <- Hwp, Heq, Hphi, andb_true_r. auto.
  - inversion Hp; subst p. simpl in H.
    destruct (is_true (simplify r)) eqn:Ht; simpl in H;
      inversion H; subst a' E'; simpl.
    + apply is_true_TRUE in Ht. rewrite <- Hwp, Ht. simpl.
      rewrite andb_true_r. auto.
    + rewrite forallb_app. simpl. rewrite andb_true_r, Hwp. auto.
Qed.

Lemma always_rule_sound_witness :
  exists a',
    compile_constraint fresh_dict (turn_off, []) (Always (Or [atom_p; atom_q]))
    = OK (a', []) /\
    forallb (holds ["p"%string]) (preconditions a') = false /\
    forallb (holds ["p"%string; "q"%string]) (preconditions a') = true.
Proof.
  eexists. split; [reflexivity|].
  assert (Hb : boolean_effects turn_off) by (repeat constructor).
  assert (Hc : forall s, conflict_free turn_off s).
  { intros s e1 e2 [<-|[]] [<-|[]]; reflexivity. }
  split.
  - destruct (always_rule_sound fresh_dict turn_off _ [] []
                (Or [atom_p; atom_q]) ["p"%string] Hb (Hc _) eq_refl eq_refl)
      as [_ [_ H]].
    exact H.
  - destruct (always_rule_sound fresh_dict turn_off _ [] []
                (Or [atom_p; atom_q]) ["p"%string; "q"%string] Hb (Hc _)
                eq_refl eq_refl)
      as [_ [_ H]].
    exact H.
Defined.

(** The sometime rule, for an action with boolean effects that do not
    conflict in the state: the loop leaves the action as it is, and the
    effects it appends to E update the monitor; from any state in which the
    monitor is true whenever phi holds before the action, the monitor is
    true after them exactly when it was true or phi holds after the
    action. *)
Theorem sometime_rule_sound :
  forall (monitors : dict FNode) (a a' : InstantaneousAction)
         (E E' : list Effect) (phi : FNode) (m : string) (s : State),
    boolean_effects a ->
    conflict_free a s ->
    dict_get monitors (Sometime phi) = Some (FluentExp m) ->
    compile_constraint monitors (a, E) (Sometime phi) = OK (a', E') ->
    a' = a /\
    exists Es,
      E' = E ++ Es /\
      forall acc : State,
        (holds s phi = true -> holds acc (FluentExp m) = true) ->
        holds (fold_left (apply_effect s) Es acc) (FluentExp m) =
        holds acc (FluentExp m) || holds (apply_action a s) phi.
Proof.
  intros monitors a a' E E' phi m s Hb Hc Hm H.
  unfold compile_constraint, dict_item in H. rewrite Hm in H. cbn [bind] in H.
  apply bind_ok in H. destruct H as [E1 [HE1 H]]. inversion H; subst a' E'.
  split; [reflexivity|].
  unfold _manage_sometime_compilation in HE1.
  apply bind_ok in HE1. destruct HE1 as [r [Hr HE1]].
  pose proof (regression_holds s a Hb Hc phi r Hr) as Hwp.
  rewrite <- (simplify_sound s r) in Hwp.
  destruct (FNode_eq_dec (simplify r) phi) as [Heq|Hne].
  - inversion HE1; subst E1. exists []. rewrite app_nil_r.
    split; [reflexivity|]. intros acc Hinv. cbn [fold_left].
    rewrite <- Hwp, Heq.
    destruct (holds s phi); [rewrite Hinv; reflexivity|].
    rewrite orb_false_r. reflexivity.
  - inversion HE1; subst E1. unfold _add_cond_eff.
    rewrite simplify_idempotent.
    destruct (is_false (simplify r)) eqn:Hf; cbn [negb].
    + exists []. rewrite app_nil_r. split; [reflexivity|].
      intros acc _. cbn [fold_left]. rewrite <- Hwp.
      apply is_false_FALSE in Hf. rewrite Hf. simpl.
      rewrite orb_false_r. reflexivity.
    + exists [mkEffect (simplify r) (FluentExp m) TRUE].
      split; [reflexivity|]. intros acc _. cbn [fold_left holds].
      rewrite apply_effect_mem. unfold fires_on. cbn [condition fluent value].
      rewrite FNode_eqb_refl, andb_true_r, <- Hwp.
      destruct (holds s (simplify r)); simpl;
        [rewrite orb_true_r|rewrite orb_false_r]; reflexivity.
Qed.

Lemma sometime_rule_sound_witness :
  exists Es,
    forall acc : State,
      (holds [] atom_p = true -> holds acc (FluentExp "hold-0") = true) ->
      holds (fold_left (apply_effect []) Es acc) (FluentExp "hold-0") =
      holds acc (FluentExp "hold-0") || holds (apply_action turn_on []) atom_p.
Proof.
  assert (Hb : boolean_effects turn_on) by (repeat constructor).
  assert (Hc : conflict_free turn_on []).
  { intros e1 e2 [<-|[]] [<-|[]]; reflexivity. }
  destruct (sometime_rule_sound [(Sometime atom_p, FluentExp "hold-0")]
              turn_on _ [] _ atom_p "hold-0" [] Hb Hc eq_refl eq_refl)
    as [_ [Es [_ Hs]]].
  exists Es. exact Hs.
Defined.

(** With the monitors the allocator returned for the constraint list, the
    loop of the compilation over the actions (the lookup in the grounder's
    map, the rewriting by the relevant constraints, the pruning and the map
    back) runs to its end exactly when the grounder's map holds every action
    and every constraint relevant to an action is one of the five kinds over
    arguments the regression accepts; otherwise it raises. *)
Theorem rewriting_loop_returns_iff :
  forall (m : list (InstantaneousAction * MapValue)) (d : dict FNode)
         (C : list FNode) (I : dict FNode) (ms : MonitorState)
         (A : list InstantaneousAction),
    _get_monitoring_atoms d C I = OK ms ->
    ((exists st',
         foldM (action_step m (_monitoring_atom_dict ms)
                            (_build_relevancy_dict C)) A ([], []) = OK st') <->
     Forall (fun a =>
               (exists v, action_map_get m a = OK v) /\
               forallb rewritable
                 (_get_relevant_constraints a (_build_relevancy_dict C))
               = true) A).
Proof.
  intros m d C I ms A Hms. apply (action_loop_returns m d C I ms A Hms).
Qed.

Lemma rewriting_loop_returns_iff_witness :
  exists ms,
    _get_monitoring_atoms fresh_dict [Sometime (Always atom_p)] [] = OK ms /\
    ~ exists st',
        foldM (action_step [(turn_on, ("turn_on"%string, []))]
                           (_monitoring_atom_dict ms)
                           (_build_relevancy_dict [Sometime (Always atom_p)]))
              [turn_on] ([], []) = OK st'.
Proof.
  eexists. split; [reflexivity|]. intros Hex.
  apply (rewriting_loop_returns_iff
           [(turn_on, ("turn_on"%string, []))] fresh_dict
           [Sometime (Always atom_p)] [] _ [turn_on] eq_refl) in Hex.
  inversion Hex as [|? ? [_ Hr] _]. vm_compute in Hr. discriminate Hr.
Defined.

(** ** The outcome of the allocator *)

Lemma monitor_loop_first_failure (I : dict FNode) (C : list FNode)
    (e : PyExc) :
  forall st,
    monitor_loop I C st = Raise e ->
    exists l1 c l2,
      C = l1 ++ c :: l2 /\
      forallb (allocates I) l1 = true /\
      allocates I c = false /\
      allocation_failure I c e.
Proof.
  induction C as [|c C IH]; intros st; simpl; [discriminate|].
  pose proof (monitor_step_allocates_iff I c st) as Hs.
  destruct (monitor_step I c st) as [st1|e0] eqn:Hstep; simpl.
  - intros H. destruct (IH _ H) as [l1 [c' [l2 [HC [H1 [H2 H3]]]]]].
    exists (c :: l1), c', l2. simpl. rewrite Hs, H1, HC. auto.
  - intros H. inversion H; subst e0. exists [], c, C.
    repeat split; auto. apply (monitor_step_raise I c st e Hstep).
Qed.

(** The allocator returns exactly when every member of the list passes its
    test (an always does not evaluate to the constant false and the first
    argument of a sometime-before does not evaluate to the constant true
    under the map it is given, and any other node has a first argument).
    Otherwise it raises at the first member that fails, and only these: the
    always violation, the sometime-before violation, or IndexError for a
    node without arguments; the evaluation of a monitor's initial value
    never fails. *)
Theorem allocation_outcome :
  forall (d : dict FNode) (C : list FNode) (I : dict FNode),
    match _get_monitoring_atoms d C I with
    | OK ms =>
        forallb (allocates I) C = true /\
        List.length (monitoring_atoms ms) = List.length (monitored C)
    | Raise e =>
        exists l1 c l2,
          C = l1 ++ c :: l2 /\
          forallb (allocates I) l1 = true /\
          allocates I c = false /\
          allocation_failure I c e
    end.
Proof.
  intros d C I.
  pose proof (monitor_loop_allocates_iff I C (mkMonitorState [] 0 [] d)) as Hal.
  fold (_get_monitoring_atoms d C I) in Hal.
  destruct (_get_monitoring_atoms d C I) as [ms|e] eqn:H.
  - split; [exact Hal|]. unfold _get_monitoring_atoms in H.
    destruct (monitor_loop_inv _ _ _ _ H) as [_ [Hat _]]. simpl in Hat.
    rewrite Hat. clear. generalize 0.
    induction (monitored C) as [|c l IH]; intros n; simpl;
      [reflexivity|rewrite IH; reflexivity].
  - apply (monitor_loop_first_failure I C e _ H).
Qed.

(** ** The initial-state map *)

Lemma written_effect_fluents (A : list InstantaneousAction) (k : FNode) :
  written A k <-> In k (effect_fluents A).
Proof.
  unfold written, effect_fluents. rewrite in_flat_map. split.
  - intros [a [eff [Ha [He Hk]]]]. exists a. split; [exact Ha|].
    apply in_map_iff. eauto.
  - intros [a [Ha Hk]]. apply in_map_iff in Hk.
    destruct Hk as [eff [Hk He]]. eauto.
Qed.

Lemma compile_initial_values_get (d : dict FNode) (P : Problem)
    (gr : GroundingResult) (res : CompilerResult) :
  _compile d P gr = OK res ->
  exists ms,
    _get_monitoring_atoms d (constraints_of gr) (init_of gr) = OK ms /\
    forall k,
      dict_get (initial_values (result_problem res)) k =
      if memb k (initial_state_prime ms) then Some TRUE
      else dict_get (initial_values (grounded_problem gr)) k.
Proof.
  intros H.
  destruct (compile_ok_result _ _ _ _ H)
    as [ms [mons [A_prime [tbm [Hms [_ [_ Hres]]]]]]].
  exists ms. split; [exact Hms|].
  assert (HI : Forall (fun x => is_fluent_exp x = true)
                      (initial_state_prime ms)).
  { apply Forall_forall. intros m Hm.
    unfold _get_monitoring_atoms in Hms.
    pose proof (monitor_loop_initial _ _ _ _ Hms) as Hi. simpl in Hi.
    rewrite Hi in Hm.
    destruct (initial_true_atoms_allocated _ _ _ _ Hm) as [fl [_ ->]].
    reflexivity. }
  subst res. cbn [result_problem]. unfold assemble_problem. cbv zeta.
  match goal with
  | |- context [fold_left ?f (initial_state_prime ms) ?P0] =>
      destruct (fold_set_initial_value_get (initial_state_prime ms) HI P0)
        as [_ Hget]
  end.
  cbv zeta in Hget. intros k. rewrite Hget.
  destruct (memb k (initial_state_prime ms)); [reflexivity|].
  match goal with
  | |- context [fold_left add_action ?A ?P0] =>
      destruct (fold_add_action_frame A P0) as [Hiv _]; rewrite Hiv
  end.
  cbn [clear_actions initial_values].
  match goal with
  | |- context [fold_left add_fluent ?F ?P0] =>
      destruct (fold_add_fluent_frame F P0) as [Hiv' _]; rewrite Hiv'
  end.
  reflexivity.
Qed.

(** C10: the substitution map of the compilation holds a key exactly when
    some effect of some action of the grounded problem assigns it and its
    initial value is the constant true, and maps it to that value; such a
    fluent atom evaluates to true, and every other fluent atom (initially
    false, without initial value, or written by no action) is left as it is
    by the substitution and the simplification, so it evaluates neither to
    true nor to false.  This map is the one every initial-state evaluation of
    the compilation uses: an always or sometime-before violation is raised
    only for a constraint whose formula evaluates to false, respectively
    true, under it; and when the compilation returns, no listed always
    evaluates to false and no listed sometime-before has a first argument
    that evaluates to true under it, and the monitors that are initially
    true in the compiled problem are those whose watched formula evaluates
    to true under it. *)
Theorem ground_initial_state_exact :
  forall (d : dict FNode) (P : Problem) (gr : GroundingResult),
    let A := actions (grounded_problem gr) in
    let iv := initial_values (grounded_problem gr) in
    let C := constraints_of gr in
    let I := _ground_initial_state A iv in
    (forall k v,
        dict_get I k = Some v <->
        written A k /\ dict_get iv k = Some v /\ is_true v = true) /\
    (forall f,
        written A (FluentExp f) -> dict_get iv (FluentExp f) = Some TRUE ->
        simplify (substitute (FluentExp f) I) = TRUE) /\
    (forall f,
        ~ (written A (FluentExp f) /\
           dict_get iv (FluentExp f) = Some TRUE) ->
        simplify (substitute (FluentExp f) I) = FluentExp f) /\
    (forall f,
        dict_get I (FluentExp f) = None <->
        is_true (simplify (substitute (FluentExp f) I)) = false /\
        is_false (simplify (substitute (FluentExp f) I)) = false) /\
    (_compile d P gr = Raise always_violated ->
     exists phi,
       In (Always phi) C /\
       is_false (simplify (substitute phi I)) = true) /\
    (_compile d P gr = Raise sometime_before_violated ->
     exists phi psi,
       In (SometimeBefore phi psi) C /\
       is_true (simplify (substitute phi I)) = true) /\
    (forall res,
        _compile d P gr = OK res ->
        (forall phi,
            In (Always phi) C ->
            is_false (simplify (substitute phi I)) = false) /\
        (forall phi psi,
            In (SometimeBefore phi psi) C ->
            is_true (simplify (substitute phi I)) = false) /\
        (forall k,
            dict_get (initial_values (result_problem res)) k =
            if memb k (initial_true_atoms I (monitored C) 0) then Some TRUE
            else dict_get iv k)).
Proof.
  intros d P gr A iv C I.
  assert (Hget : forall k, dict_get I k =
            if memb k (effect_fluents A) && initially_true iv k
            then dict_get iv k else None).
  { intros k. unfold I, _ground_initial_state. apply ground_fold_get. }
  assert (Hkey : forall k v,
             dict_get I k = Some v <->
             written A k /\ dict_get iv k = Some v /\ is_true v = true).
  { intros k v. rewrite Hget, written_effect_fluents. unfold initially_true.
    destruct (memb k (effect_fluents A)) eqn:Hm; simpl.
    - apply memb_In in Hm.
      destruct (dict_get iv k) as [w|]; [|split; [congruence|tauto]].
      destruct (is_true w) eqn:Hw.
      + split; [intros H; inversion H; subst; auto|tauto].
      + split; [congruence|]. intros [_ [H1 H2]]. inversion H1; subst.
        congruence.
    - apply memb_false in Hm. split; [congruence|tauto]. }
  assert (Hsub : forall f,
             simplify (substitute (FluentExp f) I) =
             match dict_get I (FluentExp f) with
             | Some _ => TRUE
             | None => FluentExp f
             end).
  { intros f. rewrite substitute_fluent.
    destruct (dict_get I (FluentExp f)) as [v|] eqn:Hv; [|reflexivity].
    apply Hkey in Hv. destruct Hv as [_ [_ Hv]].
    apply is_true_TRUE in Hv. subst v. reflexivity. }
  split; [exact Hkey|]. split; [|split; [|split]].
  - intros f Hw Hiv. rewrite Hsub.
    destruct (dict_get I (FluentExp f)) as [v|] eqn:Hv; [reflexivity|].
    assert (Hk : dict_get I (FluentExp f) = Some TRUE)
      by (apply Hkey; auto).
    congruence.
  - intros f Hn. rewrite Hsub.
    destruct (dict_get I (FluentExp f)) as [v|] eqn:Hv; [|reflexivity].
    exfalso. apply Hn. apply Hkey in Hv. destruct Hv as [Hw [Hiv Ht]].
    apply is_true_TRUE in Ht. subst v. auto.
  - intros f. rewrite Hsub.
    destruct (dict_get I (FluentExp f)) as [v|]; simpl.
    + split; [discriminate|]. intros [H _]. discriminate H.
    + split; auto.
  - assert (Hraise : forall e,
               _compile d P gr = Raise e ->
               e = always_violated \/ e = sometime_before_violated ->
               exists c, In c C /\ allocation_failure I c e).
    { intros e He Hk. destruct (compile_raise_cases _ _ _ _ He)
        as [Hc|[[c [_ [[-> _]|[-> _]]]]|[-> _]]].
      - exact Hc.
      - destruct Hk as [Hk|Hk]; discriminate Hk.
      - destruct Hk as [Hk|Hk]; discriminate Hk.
      - destruct Hk as [Hk|Hk]; discriminate Hk. }
    split; [|split].
    + intros He. destruct (Hraise _ He (or_introl eq_refl))
        as [c [Hc [[_ [phi [-> Hf]]]|[[Hk _]|[Hk _]]]]];
        [eauto|discriminate Hk|discriminate Hk].
    + intros He. destruct (Hraise _ He (or_intror eq_refl))
        as [c [Hc [[Hk _]|[[_ [phi [psi [-> Hf]]]]|[Hk _]]]]];
        [discriminate Hk|eauto|discriminate Hk].
    + intros res Hres.
      destruct (compile_initial_values_get _ _ _ _ Hres) as [ms [Hms Hiv]].
      pose proof (monitor_loop_allocates_iff (init_of gr) (constraints_of gr)
                    (mkMonitorState [] 0 [] d)) as Hal.
      unfold _get_monitoring_atoms in Hms. rewrite Hms in Hal.
      rewrite forallb_forall in Hal.
      split; [|split].
      * intros phi Hin. specialize (Hal _ Hin). simpl in Hal.
        apply negb_true_iff in Hal. exact Hal.
      * intros phi psi Hin. specialize (Hal _ Hin). simpl in Hal.
        apply negb_true_iff in Hal. exact Hal.
      * intros k. rewrite Hiv.
        pose proof (monitor_loop_initial _ _ _ _ Hms) as Hi. simpl in Hi.
        rewrite Hi. reflexivity.
Qed.
